(** * calc_imaginary_ir: lexer, recursive-descent parser and register-IR
      generator of [src/main.cpp], embedded as Rocq functions.

    Conventions of the embedding.
    - [std::string] is [string]; [size_t] positions are [nat]; [int] is [Z]
      with the 32-bit bounds written out where the source can leave them.
    - A C++ exception is the [Throw] outcome of [result]; the three standard
      classes the program can raise are the constructors of [exception].
    - Loops that scan the text take as fuel the number of characters left,
      the recursive-descent parser takes a fuel that every nested call and
      every loop iteration decrements; [NoFuel] is the outcome of a run
      that was cut short, and is proved unreachable for the fuel the entry
      points pass.
    - Undefined behaviour ([back] of an empty vector, overflow of the [int]
      counter, reading an empty [std::optional]) is the outcome
      [Undefined]. *)

From Stdlib Require Import ZArith List Lia Bool Arith.
From Stdlib Require Import Ascii String DecimalString DecimalZ.
Import ListNotations.

Open Scope string_scope.

(** ** Outcomes *)

Inductive exception : Type :=
| invalid_argument (what : string)
| out_of_range (what : string)
| runtime_error (what : string).

Inductive result (A : Type) : Type :=
| Ok (a : A)
| Throw (e : exception)
| Undefined
| NoFuel.

Arguments Ok {A} a.
Arguments Throw {A} e.
Arguments Undefined {A}.
Arguments NoFuel {A}.

Definition bind {A B : Type} (r : result A) (k : A -> result B) : result B :=
  match r with
  | Ok a => k a
  | Throw e => Throw e
  | Undefined => Undefined
  | NoFuel => NoFuel
  end.

Notation "x <- r ;; k" := (bind r (fun x => k))
  (at level 61, r at next level, right associativity).
Notation "' p <- r ;; k" := (bind r (fun p => k))
  (at level 61, p pattern, r at next level, right associativity).

(** ** The C library pieces the program calls *)

(** [<cctype>] in the "C" locale; every byte above 127 is in no class. *)
Definition isspace (ch : ascii) : bool :=
  let n := nat_of_ascii ch in ((n =? 32) || ((9 <=? n) && (n <=? 13)))%nat.

Definition isdigit (ch : ascii) : bool :=
  let n := nat_of_ascii ch in ((48 <=? n) && (n <=? 57))%nat.

Definition isalpha (ch : ascii) : bool :=
  let n := nat_of_ascii ch in
  (((65 <=? n) && (n <=? 90)) || ((97 <=? n) && (n <=? 122)))%nat.

Definition isalnum (ch : ascii) : bool := isalpha ch || isdigit ch.

Definition INT_MAX : Z := 2147483647.
Definition INT_MIN : Z := -2147483648.

(** [std::to_string] on an integer: the decimal digits, ["-"] in front of a
    negative one. *)
Definition to_string (n : Z) : string := NilZero.string_of_int (Z.to_int n).

(** [std::to_string(double)] prints with ["%f"].  The only doubles of the
    program are converted from the [int] that [std::stoi] returns
    (main.cpp:316), every [int] is a double exactly, and ["%f"] prints such
    a value as its digits followed by six zeros. *)
Definition to_string_double (v : Z) : string := to_string v ++ ".000000".

Definition digit_value (ch : ascii) : Z := Z.of_nat (nat_of_ascii ch) - 48.

Fixpoint skip_spaces (s : string) : string :=
  match s with
  | String ch s' => if isspace ch then skip_spaces s' else s
  | EmptyString => s
  end.

(** The digits at the front of [s], read in base ten onto [acc]; the second
    component counts the digits read. *)
Fixpoint read_digits (s : string) (acc : Z) (n : nat) : Z * nat :=
  match s with
  | String ch s' =>
      if isdigit ch then read_digits s' (10 * acc + digit_value ch) (S n)
      else (acc, n)
  | EmptyString => (acc, n)
  end.

(** [std::stoi(str)]: [strtol] in base ten (leading white space, an optional
    sign, the longest run of digits, the rest ignored);
    [std::invalid_argument] when no digit was read, [std::out_of_range] when
    the value is no [int]. *)
Definition stoi (str : string) : result Z :=
  let s := skip_spaces str in
  let '(neg, s) :=
    match s with
    | String ch s' =>
        if (ch =? "-")%char then (true, s')
        else if (ch =? "+")%char then (false, s')
        else (false, s)
    | EmptyString => (false, s)
    end in
  let '(v, n) := read_digits s 0 0 in
  match n with
  | O => Throw (invalid_argument "stoi")
  | S _ =>
      let v := if neg then (- v)%Z else v in
      if ((INT_MIN <=? v) && (v <=? INT_MAX))%Z then Ok v
      else Throw (out_of_range "stoi")
  end.

(** ** Tokens (main.cpp:169-186) *)

Inductive TokenType : Type :=
| Number | Identifier | Plus | Minus | Mul | Div
| LeftParen | RightParen | EndOfFile.

Record Token : Type := mkToken { type : TokenType; value : option string }.

Definition TokenType_eqb (a b : TokenType) : bool :=
  match a, b with
  | Number, Number | Identifier, Identifier | Plus, Plus | Minus, Minus
  | Mul, Mul | Div, Div | LeftParen, LeftParen | RightParen, RightParen
  | EndOfFile, EndOfFile => true
  | _, _ => false
  end.

(** ** Lexer (main.cpp:188-299) *)

Record Lexer : Type := mkLexer { m_text : string; m_pos : nat }.

(** [++m_pos] *)
Definition advance (L : Lexer) : Lexer := mkLexer (m_text L) (S (m_pos L)).

(** The characters not yet scanned bound every scanning loop. *)
Definition chars_left (L : Lexer) : nat := length (m_text L) - m_pos L.

(** [while (m_pos < m_text.length() && P(m_text[m_pos])) chars += m_text[m_pos++];]
    the loop of main.cpp:257, 265 and 280, and without [chars] the one of
    [SkipWhitespaces].  Every turn moves [m_pos] on, so the characters
    left are fuel enough ([read_while_stops], [read_while_fuel]). *)
Fixpoint read_while (P : ascii -> bool) (fuel : nat) (chars : string)
    (L : Lexer) : string * Lexer :=
  match get (m_pos L) (m_text L) with
  | Some ch =>
      if P ch then
        match fuel with
        | O => (chars, L)
        | S fuel' => read_while P fuel' (chars ++ String ch "") (advance L)
        end
      else (chars, L)
  | None => (chars, L)
  end.

Definition SkipWhitespaces (L : Lexer) : Lexer :=
  snd (read_while isspace (chars_left L) "" L).

Definition ReadAsNumberConstant (L : Lexer) : Token * Lexer :=
  let '(chars, L) := read_while isdigit (chars_left L) "" L in
  let '(chars, L) :=
    match get (m_pos L) (m_text L) with
    | Some ch =>
        if (ch =? ".")%char
        then read_while isdigit (chars_left L) (chars ++ ".") (advance L)
        else (chars, L)
    | None => (chars, L)
    end in
  (mkToken Number (Some chars), L).

Definition ReadAsIdentifier (L : Lexer) : Token * Lexer :=
  let '(chars, L) :=
    read_while (fun ch => isalnum ch || (ch =? "_")%char) (chars_left L) "" L in
  (mkToken Identifier (Some chars), L).

Fixpoint GetNextToken_loop (fuel : nat) (L : Lexer) : result (Token * Lexer) :=
  match get (m_pos L) (m_text L) with
  | Some ch =>
      if isspace ch then
        match fuel with
        | O => NoFuel
        | S fuel' => GetNextToken_loop fuel' (SkipWhitespaces L)
        end
      else if isdigit ch then Ok (ReadAsNumberConstant L)
      else if isalpha ch then Ok (ReadAsIdentifier L)
      else if (ch =? "+")%char then Ok (mkToken Plus None, advance L)
      else if (ch =? "-")%char then Ok (mkToken Minus None, advance L)
      else if (ch =? "*")%char then Ok (mkToken Mul None, advance L)
      else if (ch =? "/")%char then Ok (mkToken Div None, advance L)
      else if (ch =? "(")%char then Ok (mkToken LeftParen None, advance L)
      else if (ch =? ")")%char then Ok (mkToken RightParen None, advance L)
      else Throw (invalid_argument
             ("can't parse character at pos " ++ to_string (Z.of_nat (m_pos L))
              ++ ": '" ++ String ch "'"))
  | None => Ok (mkToken EndOfFile None, L)
  end.

Definition GetNextToken (L : Lexer) : result (Token * Lexer) :=
  GetNextToken_loop (chars_left L) L.

(** ** AST (main.cpp:22-110) *)

(** The visitor's double dispatch is the [match] on the constructor.
    [m_value] is the [int] the double was converted from. *)
Inductive ExpressionAST : Type :=
| VariableRefAST (m_name : string)
| NumberAST (m_value : Z)
| BinaryExpressionAST (m_left m_right : ExpressionAST) (m_op : ascii).

(** ** Code generator (main.cpp:112-167) *)

(** [m_registers] is used as a stack only: the head of the list is the
    vector's [back()]. *)
Record SimpleCodeGenerator : Type := mkGenerator {
  m_code : string;
  m_registers : list string;
  m_registerId : Z
}.

Definition SimpleCodeGenerator_new : SimpleCodeGenerator :=
  mkGenerator "" [] 1.

(** [m_registers.back()] *)
Definition back (g : SimpleCodeGenerator) : result string :=
  match m_registers g with
  | r :: _ => Ok r
  | [] => Undefined
  end.

(** [auto r = m_registers.back(); m_registers.pop_back();] *)
Definition pop (g : SimpleCodeGenerator)
  : result (string * SimpleCodeGenerator) :=
  match m_registers g with
  | r :: rs => Ok (r, mkGenerator (m_code g) rs (m_registerId g))
  | [] => Undefined
  end.

(** [m_registers.push_back(prefix + std::to_string(m_registerId++))] *)
Definition push_register (prefix : string) (g : SimpleCodeGenerator)
  : result SimpleCodeGenerator :=
  if (m_registerId g <? INT_MAX)%Z then
    Ok (mkGenerator (m_code g)
          ((prefix ++ to_string (m_registerId g)) :: m_registers g)
          (m_registerId g + 1))
  else Undefined.

(** [m_code += m_registers.back() + rhs] *)
Definition emit (rhs : string) (g : SimpleCodeGenerator)
  : result SimpleCodeGenerator :=
  dest <- back g ;;
  Ok (mkGenerator (m_code g ++ dest ++ rhs) (m_registers g) (m_registerId g)).

Definition newline : string := String (ascii_of_nat 10) "".

Fixpoint Visit (node : ExpressionAST) (g : SimpleCodeGenerator)
  : result SimpleCodeGenerator :=
  match node with
  | VariableRefAST name =>
      g <- push_register "%x" g ;;
      emit (" = " ++ "%" ++ name ++ newline) g
  | NumberAST v =>
      g <- push_register "%x" g ;;
      emit (" = " ++ to_string_double v ++ newline) g
  | BinaryExpressionAST l r op =>
      g <- Visit l g ;;
      g <- Visit r g ;;
      '(right_, g) <- pop g ;;
      '(left_, g) <- pop g ;;
      if (op =? "+")%char then
        g <- push_register "%addtmp" g ;;
        emit (" = add " ++ left_ ++ " " ++ right_ ++ newline) g
      else if (op =? "-")%char then
        g <- push_register "%subtmp" g ;;
        emit (" = sub " ++ left_ ++ " " ++ right_ ++ newline) g
      else if (op =? "*")%char then
        g <- push_register "%multmp" g ;;
        emit (" = mul " ++ left_ ++ " " ++ right_ ++ newline) g
      else if (op =? "/")%char then
        g <- push_register "%divtmp" g ;;
        emit (" = div " ++ left_ ++ " " ++ right_ ++ newline) g
      else Ok g
  end.

(** [Generate] returns [m_code] and leaves the generator changed. *)
Definition Generate (root : ExpressionAST) (g : SimpleCodeGenerator)
  : result (string * SimpleCodeGenerator) :=
  g <- Visit root g ;;
  r <- back g ;;
  let g := mkGenerator (m_code g ++ "%result = " ++ r)
             (m_registers g) (m_registerId g) in
  Ok (m_code g, g).

(** ** Parser (main.cpp:301-387) *)

Record Parser : Type := mkParser { m_lexer : Lexer; m_token : Token }.

Definition Parser_new (lexer : Lexer) : result Parser :=
  '(tok, lexer) <- GetNextToken lexer ;;
  Ok (mkParser lexer tok).

Definition is_type (ty : TokenType) (p : Parser) : bool :=
  TokenType_eqb (type (m_token p)) ty.

Definition Eat (ty : TokenType) (p : Parser) : result Parser :=
  if negb (is_type ty p) then Throw (runtime_error "can't eat that token")
  else
    '(tok, lexer) <- GetNextToken (m_lexer p) ;;
    Ok (mkParser lexer tok).

(** [*m_token.value] *)
Definition deref (v : option string) : result string :=
  match v with
  | Some s => Ok s
  | None => Undefined
  end.

Definition parse_fn : Type := Parser -> result (ExpressionAST * Parser).

(** [ParseAtom], with the [ParseAddSub] it calls as a parameter. *)
Definition ParseAtom (ParseAddSub : parse_fn) : parse_fn := fun p =>
  if is_type Number p then
    value <- deref (value (m_token p)) ;;
    p <- Eat Number p ;;
    v <- stoi value ;;
    Ok (NumberAST v, p)
  else if is_type Identifier p then
    identifier <- deref (value (m_token p)) ;;
    p <- Eat Identifier p ;;
    Ok (VariableRefAST identifier, p)
  else if is_type LeftParen p then
    p <- Eat LeftParen p ;;
    '(node, p) <- ParseAddSub p ;;
    p <- Eat RightParen p ;;
    Ok (node, p)
  else Throw (runtime_error "can't parse atom").

(** The [while] of [ParseMulDiv] (main.cpp:337-350). *)
Fixpoint ParseMulDiv_loop (ParseAtom : parse_fn) (fuel : nat)
    (node : ExpressionAST) (p : Parser) : result (ExpressionAST * Parser) :=
  if is_type Mul p || is_type Div p then
    match fuel with
    | O => NoFuel
    | S fuel' =>
        let op := m_token p in
        p <- (if is_type Mul p then Eat Mul p
              else if is_type Div p then Eat Div p
              else Ok p) ;;
        '(rhs, p) <- ParseAtom p ;;
        ParseMulDiv_loop ParseAtom fuel'
          (BinaryExpressionAST node rhs
             (if TokenType_eqb (type op) Mul then "*" else "/")%char) p
    end
  else Ok (node, p).

Definition ParseMulDiv (ParseAtom : parse_fn) (fuel : nat) : parse_fn :=
  fun p =>
    '(node, p) <- ParseAtom p ;;
    ParseMulDiv_loop ParseAtom fuel node p.

(** The [while] of [ParseAddSub] (main.cpp:357-370). *)
Fixpoint ParseAddSub_loop (ParseMulDiv : parse_fn) (fuel : nat)
    (node : ExpressionAST) (p : Parser) : result (ExpressionAST * Parser) :=
  if is_type Plus p || is_type Minus p then
    match fuel with
    | O => NoFuel
    | S fuel' =>
        let op := m_token p in
        p <- (if is_type Plus p then Eat Plus p
              else if is_type Minus p then Eat Minus p
              else Ok p) ;;
        '(rhs, p) <- ParseMulDiv p ;;
        ParseAddSub_loop ParseMulDiv fuel'
          (BinaryExpressionAST node rhs
             (if TokenType_eqb (type op) Plus then "+" else "-")%char) p
    end
  else Ok (node, p).

Fixpoint ParseAddSub_rec (fuel : nat) : parse_fn := fun p =>
  match fuel with
  | O => NoFuel
  | S fuel' =>
      let ParseMulDiv := ParseMulDiv (ParseAtom (ParseAddSub_rec fuel')) fuel' in
      '(node, p) <- ParseMulDiv p ;;
      ParseAddSub_loop ParseMulDiv fuel' node p
  end.

(** What is left to parse: the characters not yet scanned and the
    lookahead token. *)
Definition tokens_left (p : Parser) : nat :=
  chars_left (m_lexer p) + (if is_type EndOfFile p then 0 else 1).

Definition ParseAddSub : parse_fn := fun p =>
  ParseAddSub_rec (S (tokens_left p)) p.

(** ** The driver (main.cpp:389-408) *)

(** The body of the [try] block up to [Generate]. *)
Definition translate (line : string) : result string :=
  let generator := SimpleCodeGenerator_new in
  parser <- Parser_new (mkLexer line 0) ;;
  '(ast, _) <- ParseAddSub parser ;;
  '(code, _) <- Generate ast generator ;;
  Ok code.

Record Console : Type := mkConsole { cout : string; cerr : string }.

Definition put_cout (s : string) (io : Console) : Console :=
  mkConsole (cout io ++ s) (cerr io).

Definition put_cerr (s : string) (io : Console) : Console :=
  mkConsole (cout io) (cerr io ++ s).

(** One turn of the loop body: the [try] block and its [catch (...)]. *)
Definition main_body (line : string) (io : Console) : result Console :=
  match translate line with
  | Ok code => Ok (put_cout (code ++ newline) io)
  | Throw _ => Ok (put_cerr ("invalid expression" ++ newline) io)
  | Undefined => Undefined
  | NoFuel => NoFuel
  end.

(** [main] on the lines [getline] will deliver. *)
Fixpoint main (cin : list string) (io : Console) : result Console :=
  let io := put_cout ">>> " io in
  match cin with
  | line :: cin' => io <- main_body line io ;; main cin' io
  | [] => Ok io
  end.

(** ** Vocabulary of the statements *)

Fixpoint all_chars (P : ascii -> bool) (s : string) : bool :=
  match s with
  | String ch s' => P ch && all_chars P s'
  | EmptyString => true
  end.

(** [s] does not begin with a character of class [P]. *)
Definition stops (P : ascii -> bool) (s : string) : bool :=
  match s with
  | String ch _ => negb (P ch)
  | EmptyString => true
  end.

Definition is_operator_char (ch : ascii) : bool :=
  ((ch =? "+") || (ch =? "-") || (ch =? "*") || (ch =? "/")
   || (ch =? "(") || (ch =? ")"))%char.

(** A character that is no white space, digit, letter or operator. *)
Definition unknown_char (ch : ascii) : bool :=
  negb (isspace ch || isdigit ch || isalpha ch || is_operator_char ch).

(** The diagnostic of main.cpp:245. *)
Definition lex_error (pos : nat) (ch : ascii) : exception :=
  invalid_argument
    ("can't parse character at pos " ++ to_string (Z.of_nat pos)
     ++ ": '" ++ String ch "'").

Definition EndOfFile_token : Token := mkToken EndOfFile None.

(** [n] calls of [GetNextToken] in a row, with the tokens they return. *)
Fixpoint GetNextToken_times (n : nat) (L : Lexer) : result (list Token * Lexer) :=
  match n with
  | O => Ok ([], L)
  | S n' =>
      '(tok, L) <- GetNextToken L ;;
      '(toks, L) <- GetNextToken_times n' L ;;
      Ok (tok :: toks, L)
  end.

(** The number a run of decimal digits denotes. *)
Fixpoint decimal_value (ds : string) : Z :=
  match ds with
  | String ch ds' =>
      digit_value ch * 10 ^ Z.of_nat (length ds') + decimal_value ds'
  | EmptyString => 0
  end.

(** The text of a numeric literal: a digit run, optionally followed by
    ['.'] and a digit run. *)
Definition literal_text (ds : string) (fraction : option string) : string :=
  match fraction with
  | Some fs => ds ++ "." ++ fs
  | None => ds
  end.

Definition is_literal (ds : string) (fraction : option string) : bool :=
  negb (ds =? "") && all_chars isdigit ds
  && match fraction with
     | Some fs => all_chars isdigit fs
     | None => true
     end.

(** Some character of [s] is in class [P]. *)
Fixpoint some_char (P : ascii -> bool) (s : string) : bool :=
  match s with
  | String ch s' => P ch || some_char P s'
  | EmptyString => false
  end.

(** The lines of an IR program, joined as [Generate] joins them. *)
Definition ir (lines : list string) : string := concat newline lines.

(** An emitted instruction: the destination register is [dest_prefix]
    followed by the decimal [dest_id]; [operation] is what stands right of
    [" = "]. *)
Record Instruction : Type := mkInstruction {
  dest_prefix : string;
  dest_id : Z;
  operation : string
}.

Definition dest (i : Instruction) : string :=
  dest_prefix i ++ to_string (dest_id i).

Definition instruction_line (i : Instruction) : string :=
  dest i ++ " = " ++ operation i ++ newline.

Fixpoint render (ins : list Instruction) : string :=
  match ins with
  | i :: ins' => instruction_line i ++ render ins'
  | [] => ""
  end.

Definition register_prefix (s : string) : bool :=
  (s =? "%x") || (s =? "%addtmp") || (s =? "%subtmp")
  || (s =? "%multmp") || (s =? "%divtmp").

(** [start], [start + 1], ... ([n] numbers). *)
Fixpoint Zseq (start : Z) (n : nat) : list Z :=
  match n with
  | O => []
  | S n' => start :: Zseq (start + 1) n'
  end.

Fixpoint nodes (node : ExpressionAST) : nat :=
  match node with
  | BinaryExpressionAST l r _ => S (nodes l + nodes r)
  | _ => 1
  end.

Definition supported_operator (op : ascii) : bool :=
  ((op =? "+") || (op =? "-") || (op =? "*") || (op =? "/"))%char.

(** The binary nodes whose operator is none of the four of the [switch]
    of main.cpp:142. *)
Fixpoint unknown_operators (node : ExpressionAST) : nat :=
  match node with
  | BinaryExpressionAST l r op =>
      (if supported_operator op then 0 else 1)
      + unknown_operators l + unknown_operators r
  | _ => 0
  end.

Fixpoint last_char (s : string) : option ascii :=
  match s with
  | String ch EmptyString => Some ch
  | String _ s' => last_char s'
  | EmptyString => None
  end.

Definition starts_with_digit (s : string) : bool :=
  match s with
  | String ch _ => isdigit ch
  | EmptyString => false
  end.

(** A Number or Identifier token carries its text, and the text of a
    Number begins with a digit. *)
Definition has_value (tok : Token) : bool :=
  match type tok, value tok with
  | Number, Some s => starts_with_digit s
  | Number, None | Identifier, None => false
  | _, _ => true
  end.

(** The exceptions a translation of [text] can end with: the lexer's, for
    an unknown character of [text] at the position it names; the two of
    the parser; the one of [std::stoi] on too large a number. *)
Definition thrown (text : string) (e : exception) : Prop :=
  (exists pos ch,
      e = lex_error pos ch /\ get pos text = Some ch
      /\ unknown_char ch = true)
  \/ e = runtime_error "can't eat that token"
  \/ e = runtime_error "can't parse atom"
  \/ e = out_of_range "stoi".

Definition is_binary_operator (ty : TokenType) : bool :=
  match ty with
  | Plus | Minus | Mul | Div => true
  | _ => false
  end.

(** The characters an identifier goes on with (main.cpp:280). *)
Definition identifier_char (ch : ascii) : bool :=
  isalnum ch || (ch =? "_")%char.

(** What a completed [Visit] has done to the generator. *)
Record visited (node : ExpressionAST) (g g' : SimpleCodeGenerator)
    (ins : list Instruction) : Prop := {
  visited_code : m_code g' = m_code g ++ render ins;
  visited_ids : map dest_id ins = Zseq (m_registerId g) (List.length ins);
  visited_counter :
    m_registerId g' = (m_registerId g + Z.of_nat (List.length ins))%Z;
  visited_bound : (m_registerId g' <= INT_MAX)%Z;
  visited_prefixes :
    Forall (fun i => register_prefix (dest_prefix i) = true) ins;
  visited_count : List.length ins + unknown_operators node = nodes node;
  visited_depth :
    List.length (m_registers g') + unknown_operators node
    = List.length (m_registers g) + 1;
  visited_top :
    unknown_operators node = 0 ->
    exists front last,
      ins = (front ++ [last])%list
      /\ m_registers g' = dest last :: m_registers g
}.


(** What a call of [GetNextToken] may come to: an EndOfFile token with
    nothing left to scan, another token and fewer characters left, or the
    exception for an unknown character of the text. *)
Definition scanned (L : Lexer) (r : result (Token * Lexer)) : Prop :=
  match r with
  | Ok (tok, L') =>
      has_value tok = true
      /\ m_text L' = m_text L
      /\ (if TokenType_eqb (type tok) EndOfFile then chars_left L' = 0
          else chars_left L' < chars_left L)
  | Throw e =>
      exists pos ch,
        e = lex_error pos ch /\ get pos (m_text L) = Some ch
        /\ unknown_char ch = true
  | Undefined | NoFuel => False
  end.

(** What [Eat] may come to: a lookahead with its text and fewer tokens
    left, on the same text; or an exception. *)
Definition eaten (p : Parser) (r : result Parser) : Prop :=
  match r with
  | Ok p' =>
      has_value (m_token p') = true
      /\ m_text (m_lexer p') = m_text (m_lexer p)
      /\ tokens_left p' < tokens_left p
  | Throw e => thrown (m_text (m_lexer p)) e
  | Undefined | NoFuel => False
  end.

(** What a call of a parsing function on [p] may have come to: a tree over
    the four operators that used up at least as many tokens as it has
    nodes, with a lookahead token that satisfies [Q]; or an exception. *)
Definition parsed (Q : Parser -> Prop) (p : Parser)
    (r : result (ExpressionAST * Parser)) : Prop :=
  match r with
  | Ok (node, p') =>
      has_value (m_token p') = true
      /\ m_text (m_lexer p') = m_text (m_lexer p)
      /\ nodes node + tokens_left p' <= tokens_left p
      /\ unknown_operators node = 0
      /\ Q p'
  | Throw e => thrown (m_text (m_lexer p)) e
  | Undefined | NoFuel => False
  end.

(** The same for the loops, which start from the tree [node] built so
    far. *)
Definition extended (Q : Parser -> Prop) (node : ExpressionAST) (p : Parser)
    (r : result (ExpressionAST * Parser)) : Prop :=
  match r with
  | Ok (node', p') =>
      has_value (m_token p') = true
      /\ m_text (m_lexer p') = m_text (m_lexer p)
      /\ nodes node' + tokens_left p' <= nodes node + tokens_left p
      /\ unknown_operators node' = 0
      /\ Q p'
  | Throw e => thrown (m_text (m_lexer p)) e
  | Undefined | NoFuel => False
  end.

Definition no_MulDiv (p : Parser) : Prop :=
  is_type Mul p || is_type Div p = false.

Definition no_operator (p : Parser) : Prop :=
  is_binary_operator (type (m_token p)) = false.

(** The operation name and the prefix of the temporary that the [switch]
    of main.cpp:142 gives an operator. *)
Definition mnemonic (op : ascii) : string :=
  if (op =? "+")%char then "add"
  else if (op =? "-")%char then "sub"
  else if (op =? "*")%char then "mul"
  else "div".

Definition temporary_prefix (op : ascii) : string :=
  "%" ++ mnemonic op ++ "tmp".

(** [node] with the operands wrapped around it one after the other, each
    as the right child of a new root. *)
Definition left_chain (node : ExpressionAST)
    (operands : list (ascii * ExpressionAST)) : ExpressionAST :=
  fold_left (fun acc o => BinaryExpressionAST acc (snd o) (fst o))
    operands node.

(** A run of one of the two [while] loops of the parser, from the parser
    state [p] to [p']: as long as the lookahead is of type [ty1] or [ty2]
    it is eaten and an operand is parsed behind it. *)
Inductive chain_run (operand : parse_fn) (ty1 ty2 : TokenType)
    (c1 c2 : ascii) :
    Parser -> list (ascii * ExpressionAST) -> Parser -> Prop :=
| chain_done (p : Parser) :
    is_type ty1 p || is_type ty2 p = false ->
    chain_run operand ty1 ty2 c1 c2 p [] p
| chain_more (p q p1 p' : Parser) (rhs : ExpressionAST)
    (rest : list (ascii * ExpressionAST)) :
    is_type ty1 p || is_type ty2 p = true ->
    Eat (if is_type ty1 p then ty1 else ty2) p = Ok q ->
    operand q = Ok (rhs, p1) ->
    chain_run operand ty1 ty2 c1 c2 p1 rest p' ->
    chain_run operand ty1 ty2 c1 c2 p
      ((if is_type ty1 p then c1 else c2, rhs) :: rest) p'.

(** *** Chains of identifiers: [x0 o1 x1 o2 x2 ...] *)

Definition is_identifier (x : string) : bool :=
  match x with
  | String ch _ => isalpha ch && all_chars identifier_char x
  | EmptyString => false
  end.

Definition additive (op : ascii) : bool := ((op =? "+") || (op =? "-"))%char.

Definition multiplicative (op : ascii) : bool :=
  ((op =? "*") || (op =? "/"))%char.

(** Every operator of the chain is additive, or every one is
    multiplicative. *)
Definition same_precedence (rest : list (ascii * string)) : bool :=
  forallb (fun o => additive (fst o)) rest
  || forallb (fun o => multiplicative (fst o)) rest.

(** What follows the first operand: for each further operand a blank, the
    operator, a blank and the identifier. *)
Fixpoint chain_tail (rest : list (ascii * string)) : string :=
  match rest with
  | o :: rest' => " " ++ String (fst o) (" " ++ snd o) ++ chain_tail rest'
  | [] => ""
  end.

Definition chain_text (x0 : string) (rest : list (ascii * string)) : string :=
  x0 ++ chain_tail rest.

Definition variables (rest : list (ascii * string))
  : list (ascii * ExpressionAST) :=
  map (fun o => (fst o, VariableRefAST (snd o))) rest.

(** The instructions for the operands behind the first: each identifier
    is loaded into [%x<id>], then combined with the register [prev] of
    everything to its left into a temporary numbered [id + 1]. *)
Fixpoint chain_instructions (prev : string) (id : Z)
    (rest : list (ascii * string)) : list Instruction :=
  match rest with
  | o :: rest' =>
      let load := mkInstruction "%x" id ("%" ++ snd o) in
      let combine :=
        mkInstruction (temporary_prefix (fst o)) (id + 1)
          (mnemonic (fst o) ++ " " ++ prev ++ " " ++ dest load) in
      load :: combine :: chain_instructions (dest combine) (id + 2) rest'
  | [] => []
  end.

(** The register that holds the value of the whole chain. *)
Fixpoint chain_register (prev : string) (id : Z)
    (rest : list (ascii * string)) : string :=
  match rest with
  | o :: rest' =>
      chain_register (temporary_prefix (fst o) ++ to_string (id + 1))
        (id + 2) rest'
  | [] => prev
  end.

Definition token_type_of (op : ascii) : TokenType :=
  if (op =? "+")%char then Plus
  else if (op =? "-")%char then Minus
  else if (op =? "*")%char then Mul
  else Div.

(** The parser state behind an operand that ends at [pos]: the lookahead
    is the operator of the next operand, or EndOfFile. *)
Definition lookahead (text : string) (pos : nat)
    (rest : list (ascii * string)) : Parser :=
  match rest with
  | o :: _ =>
      mkParser (mkLexer text (pos + 2)) (mkToken (token_type_of (fst o)) None)
  | [] => mkParser (mkLexer text pos) EndOfFile_token
  end.

Definition chain_ok (rest : list (ascii * string)) : bool :=
  forallb (fun o => supported_operator (fst o) && is_identifier (snd o)) rest.

(** *** A line with more text behind it *)

(** A character that can go on the token in front of it: a digit, a
    letter or ['_'], or the dot of a fraction. *)
Definition continues_token (ch : ascii) : bool :=
  isdigit ch || identifier_char ch || (ch =? ".")%char.

(** The parser on [line1] and the parser on a longer line [line2] at the
    same point of their runs: either both have read the same token up to
    the same position inside [line1], or the first has met the end of
    [line1] where the second has a lookahead that is no binary
    operator. *)
Inductive same_run (line1 line2 : string) : Parser -> Parser -> Prop :=
| same_token (pos : nat) (tok : Token) :
    pos <= length line1 ->
    TokenType_eqb (type tok) EndOfFile = false ->
    same_run line1 line2
      (mkParser (mkLexer line1 pos) tok) (mkParser (mkLexer line2 pos) tok)
| at_end (p1 p2 : Parser) :
    TokenType_eqb (type (m_token p1)) EndOfFile = true ->
    is_binary_operator (type (m_token p2)) = false ->
    same_run line1 line2 p1 p2.

(** [F2] does on the longer line what [F1] does on [line1], whenever [F1]
    returns a tree. *)
Definition simulates (line1 line2 : string) (F1 F2 : parse_fn) : Prop :=
  forall p1 p2 node p1',
    same_run line1 line2 p1 p2 -> F1 p1 = Ok (node, p1') ->
    exists p2', F2 p2 = Ok (node, p2') /\ same_run line1 line2 p1' p2'.


(** ** Further vocabulary *)

(** The register the last instruction of a list defines. *)
Definition result_register (ins : list Instruction) : string :=
  match rev ins with
  | i :: _ => dest i
  | [] => ""
  end.

(** The instructions of a tree in post-order, its registers numbered from
    [id]: left subtree, right subtree, then the node's own instruction on
    the result registers of the two. *)
Fixpoint post_order (node : ExpressionAST) (id : Z) : list Instruction :=
  match node with
  | VariableRefAST name => [mkInstruction "%x" id ("%" ++ name)]
  | NumberAST v => [mkInstruction "%x" id (to_string_double v)]
  | BinaryExpressionAST l r op =>
      let cl := post_order l id in
      let cr := post_order r (id + Z.of_nat (nodes l)) in
      (cl ++ cr
       ++ [mkInstruction (temporary_prefix op)
             (id + Z.of_nat (nodes l) + Z.of_nat (nodes r))
             (mnemonic op ++ " " ++ result_register cl ++ " "
              ++ result_register cr)])%list
  end.

(** What one turn of the driver writes to [std::cout] and to [std::cerr]
    for a line. *)
Definition line_cout (line : string) : string :=
  match translate line with
  | Ok code => code ++ newline
  | _ => ""
  end.

Definition line_cerr (line : string) : string :=
  match translate line with
  | Throw _ => "invalid expression" ++ newline
  | _ => ""
  end.

(** What a whole session on the lines [cin] writes: the prompt before
    every [getline], also before the one that meets the end of the
    input. *)
Fixpoint session_cout (cin : list string) : string :=
  ">>> " ++ match cin with
            | line :: cin' => line_cout line ++ session_cout cin'
            | [] => ""
            end.

Fixpoint session_cerr (cin : list string) : string :=
  match cin with
  | line :: cin' => line_cerr line ++ session_cerr cin'
  | [] => ""
  end.

(** The character an operator or parenthesis token is scanned from. *)
Definition operator_char (ty : TokenType) : option ascii :=
  match ty with
  | Plus => Some "+"%char
  | Minus => Some "-"%char
  | Mul => Some "*"%char
  | Div => Some "/"%char
  | LeftParen => Some "("%char
  | RightParen => Some ")"%char
  | _ => None
  end.

(** [lexeme] is the text that the token [tok] stands for when [rest] is
    what follows it in the line: a numeric literal that no digit (nor,
    without a fraction, a dot) goes on, an identifier that no identifier
    character goes on, the character of an operator, or nothing at the
    end of the line. *)
Definition lexeme_of (tok : Token) (lexeme rest : string) : Prop :=
  match type tok with
  | Number =>
      value tok = Some lexeme
      /\ exists ds fraction,
           lexeme = literal_text ds fraction
           /\ is_literal ds fraction = true
           /\ stops isdigit rest = true
           /\ (fraction = None
               -> stops (fun ch => (ch =? ".")%char) rest = true)
  | Identifier =>
      value tok = Some lexeme /\ is_identifier lexeme = true
      /\ stops identifier_char rest = true
  | EndOfFile => value tok = None /\ lexeme = "" /\ rest = ""
  | ty =>
      value tok = None
      /\ exists c, operator_char ty = Some c /\ lexeme = String c ""
  end.

(** *** Expressions as they are written *)

(** The lines the parser accepts, by their structure: an identifier, a
    numeric literal, an expression in parentheses, two expressions with
    an operator between them, an expression with white space around
    it. *)
Inductive Expr : Type :=
| EId (x : string)
| ELit (ds : string) (fraction : option string)
| EParen (e : Expr)
| EBin (l : Expr) (op : ascii) (r : Expr)
| EBlank (ws1 : string) (e : Expr) (ws2 : string).

(** The text of an expression. *)
Fixpoint written (e : Expr) : string :=
  match e with
  | EId x => x
  | ELit ds fraction => literal_text ds fraction
  | EParen e' => "(" ++ written e' ++ ")"
  | EBin l op r => written l ++ String op (written r)
  | EBlank ws1 e' ws2 => ws1 ++ written e' ++ ws2
  end.

(** The tree an expression stands for: parentheses and white space leave
    no trace, a literal stands for the number before its dot. *)
Fixpoint tree (e : Expr) : ExpressionAST :=
  match e with
  | EId x => VariableRefAST x
  | ELit ds _ => NumberAST (decimal_value ds)
  | EParen e' => tree e'
  | EBin l op r => BinaryExpressionAST (tree l) (tree r) op
  | EBlank _ e' _ => tree e'
  end.

Definition precedence (op : ascii) : nat :=
  if multiplicative op then 1 else 0.

(** [e] is an expression of [level] 0 (a sum), 1 (a product) or 2 (an
    atom): the left operand of an operator is of the operator's level at
    least, the right operand of a higher level, so a sum is an operand of
    [*] or [/] and a right operand of [+] or [-] only in parentheses;
    literals are at most [INT_MAX]. *)
Fixpoint grammatical (level : nat) (e : Expr) : bool :=
  match e with
  | EId x => is_identifier x
  | ELit ds fraction =>
      is_literal ds fraction && (decimal_value ds <=? INT_MAX)%Z
  | EParen e' => grammatical 0 e'
  | EBin l op r =>
      supported_operator op && (level <=? precedence op)%nat
      && grammatical (precedence op) l && grammatical (S (precedence op)) r
  | EBlank ws1 e' ws2 =>
      all_chars isspace ws1 && all_chars isspace ws2 && grammatical level e'
  end.

(** The parser as the constructor, or [Eat], leaves it when the lexer
    stands at [pos]. *)
Definition parser_at (text : string) (pos : nat) : result Parser :=
  Parser_new (mkLexer text pos).

(** The functions [ParseAddSub_rec] is made of, at one fuel. *)
Definition atom_fn (fuel : nat) : parse_fn := ParseAtom (ParseAddSub_rec fuel).

Definition muldiv_fn (fuel : nat) : parse_fn :=
  ParseMulDiv (atom_fn fuel) fuel.

(** From [pos] on, [text] is parsed as an atom to [node], with the parser
    left as [pend]. *)
Definition parses_atom (text : string) (pos : nat) (node : ExpressionAST)
    (pend : Parser) : Prop :=
  exists p f0,
    parser_at text pos = Ok p
    /\ forall f, f0 <= f -> atom_fn f p = Ok (node, pend).

(** The same for a product: [ParseAtom] and then turns of the loop of
    [ParseMulDiv] bring the parser to [pend] with [node] built; the loop
    goes on from there as the lookahead of [pend] has it. *)
Definition parses_product (text : string) (pos : nat) (node : ExpressionAST)
    (pend : Parser) : Prop :=
  exists p f0 n a p1,
    parser_at text pos = Ok p
    /\ forall f, f0 <= f ->
         atom_fn f p = Ok (a, p1)
         /\ forall k,
              ParseMulDiv_loop (atom_fn f) (n + k) a p1
              = ParseMulDiv_loop (atom_fn f) k node pend.

(** And for a sum, with [ParseMulDiv] and the loop of [ParseAddSub]. *)
Definition parses_sum (text : string) (pos : nat) (node : ExpressionAST)
    (pend : Parser) : Prop :=
  exists p f0 n m p1,
    parser_at text pos = Ok p
    /\ forall f, f0 <= f ->
         muldiv_fn f p = Ok (m, p1)
         /\ forall k,
              ParseAddSub_loop (muldiv_fn f) (n + k) m p1
              = ParseAddSub_loop (muldiv_fn f) k node pend.

Definition parses (level : nat) (text : string) (pos : nat)
    (node : ExpressionAST) (pend : Parser) : Prop :=
  match level with
  | 0 => no_MulDiv pend -> parses_sum text pos node pend
  | 1 => parses_product text pos node pend
  | _ => parses_atom text pos node pend
  end.

(** [F2] returns what [F1] returns, wherever [F1] is not cut short. *)
Definition refines (F1 F2 : parse_fn) : Prop :=
  forall p, F1 p = NoFuel \/ F2 p = F1 p.

(** From the end of [pre] on, the text [pre ++ tail] begins with an
    expression of [level] that stands for [node], and [p'] is the parser
    behind it. *)
Definition reads (level : nat) (pre tail : string) (node : ExpressionAST)
    (p' : Parser) : Prop :=
  exists e suf,
    tail = written e ++ suf /\ grammatical level e = true
    /\ tree e = node
    /\ parser_at (pre ++ tail) (length pre + length (written e)) = Ok p'.

(** Whatever [F] returns, it has read an expression of [level]. *)
Definition sound (level : nat) (F : parse_fn) : Prop :=
  forall pre tail p node p',
    parser_at (pre ++ tail) (length pre) = Ok p ->
    F p = Ok (node, p') -> reads level pre tail node p'.

(** *** The text of a program, line by line *)

Definition is_newline (ch : ascii) : bool := (ch =? ascii_of_nat 10)%char.

(** [s] holds no line end. *)
Definition one_line (s : string) : bool :=
  all_chars (fun ch => negb (is_newline ch)) s.

(** [s] holds no line end and no blank. *)
Definition one_word (s : string) : bool :=
  all_chars (fun ch => negb (is_newline ch) && negb (ch =? " ")%char) s.

(** The lines of a text: the pieces between its line ends.  A text that
    ends with a line end has the empty string as its last line. *)
Fixpoint lines (s : string) : list string :=
  match s with
  | String ch s' =>
      if is_newline ch then "" :: lines s'
      else match lines s' with
           | l :: ls => String ch l :: ls
           | [] => [String ch ""]
           end
  | EmptyString => [""]
  end.

(** The first word of a line, up to its first blank: in a line of the
    generated text, the register the line defines. *)
Fixpoint destination (line : string) : string :=
  match line with
  | String ch s' =>
      if (ch =? " ")%char then "" else String ch (destination s')
  | EmptyString => ""
  end.

(** An instruction as it stands in the text, without its line end. *)
Definition instruction_text (i : Instruction) : string :=
  dest i ++ " = " ++ operation i.

(** The prefix of the register that holds the value of a node. *)
Definition node_prefix (node : ExpressionAST) : string :=
  match node with
  | BinaryExpressionAST _ _ op => temporary_prefix op
  | _ => "%x"
  end.

(** No variable name of the tree holds a line end. *)
Fixpoint one_line_names (node : ExpressionAST) : bool :=
  match node with
  | VariableRefAST name => one_line name
  | NumberAST _ => true
  | BinaryExpressionAST l r _ => one_line_names l && one_line_names r
  end.
(** * Properties *)

(** ** Strings *)

Lemma append_nil_r (s : string) : s ++ "" = s.
Proof. induction s; simpl; congruence. Qed.

Lemma append_assoc (a b c : string) : (a ++ b) ++ c = a ++ (b ++ c).
Proof. induction a; simpl; congruence. Qed.

Lemma length_append (a b : string) : length (a ++ b) = length a + length b.
Proof. induction a; simpl; congruence. Qed.

Lemma get_append_r (pre s : string) (k : nat) :
  get (length pre + k) (pre ++ s) = get k s.
Proof. induction pre; simpl; auto. Qed.

Lemma get_Some_lt (s : string) : forall n ch, get n s = Some ch -> n < length s.
Proof.
  induction s as [|c s IH]; intros [|n] ch H; simpl in *; try discriminate.
  - lia.
  - apply IH in H. lia.
Qed.

Lemma get_None_ge (s : string) : forall n, get n s = None -> length s <= n.
Proof.
  induction s as [|c s IH]; intros [|n] H; simpl in *; try discriminate; try lia.
  apply IH in H. lia.
Qed.

Lemma get_ge_None (s : string) : forall n, length s <= n -> get n s = None.
Proof.
  induction s as [|c s IH]; intros [|n] H; simpl in *; auto; try lia.
  apply IH. lia.
Qed.

Lemma append_cons_shift (pre : string) (ch : ascii) (s : string) :
  pre ++ String ch s = (pre ++ String ch "") ++ s.
Proof. rewrite append_assoc. reflexivity. Qed.

(** ** The scanning loop *)

Section ReadWhile.
Variable P : ascii -> bool.

Lemma read_while_text fuel : forall chars L,
  m_text (snd (read_while P fuel chars L)) = m_text L.
Proof.
  induction fuel as [|fuel IH]; intros chars L; simpl;
    (destruct (get (m_pos L) (m_text L)) as [ch|]; [destruct (P ch)|]);
    try reflexivity.
  rewrite IH. reflexivity.
Qed.

Lemma read_while_pos fuel : forall chars L,
  m_pos L <= m_pos (snd (read_while P fuel chars L)).
Proof.
  induction fuel as [|fuel IH]; intros chars L; simpl;
    (destruct (get (m_pos L) (m_text L)) as [ch|]; [destruct (P ch)|]);
    simpl; try lia.
  specialize (IH (chars ++ String ch "") (advance L)). simpl in IH. lia.
Qed.

(** With the characters left as fuel the loop ends where its condition
    is false. *)
Lemma read_while_stops fuel : forall chars L,
  chars_left L <= fuel ->
  let L' := snd (read_while P fuel chars L) in
  match get (m_pos L') (m_text L') with
  | Some ch => P ch = false
  | None => True
  end.
Proof.
  induction fuel as [|fuel IH]; intros chars L Hf; simpl;
    (destruct (get (m_pos L) (m_text L)) as [ch|] eqn:Hg;
     [destruct (P ch) eqn:HP|]); simpl;
    try (rewrite Hg; first [exact I | exact HP]).
  - apply get_Some_lt in Hg. unfold chars_left in Hf. lia.
  - apply IH. apply get_Some_lt in Hg. unfold chars_left in *. simpl. lia.
Qed.

Lemma read_while_fuel f1 : forall f2 chars L,
  chars_left L <= f1 -> chars_left L <= f2 ->
  read_while P f1 chars L = read_while P f2 chars L.
Proof.
  induction f1 as [|f1 IH]; intros f2 chars L H1 H2;
    destruct f2 as [|f2]; simpl;
    (destruct (get (m_pos L) (m_text L)) as [ch|] eqn:Hg;
     [destruct (P ch)|]); try reflexivity;
    apply get_Some_lt in Hg; unfold chars_left in *; try lia.
  apply IH; simpl; lia.
Qed.

(** Where the loop ends does not depend on the characters collected. *)
Lemma read_while_snd fuel : forall c1 c2 L,
  snd (read_while P fuel c1 L) = snd (read_while P fuel c2 L).
Proof.
  induction fuel as [|fuel IH]; intros c1 c2 L; simpl;
    (destruct (get (m_pos L) (m_text L)) as [c|]; [destruct (P c)|]);
    try reflexivity.
  apply IH.
Qed.

(** The loop over a run of [P] characters that is followed by none. *)
Lemma read_while_run (run : string) : forall text pre rest chars fuel,
  text = pre ++ run ++ rest ->
  all_chars P run = true -> stops P rest = true ->
  length run <= fuel ->
  read_while P fuel chars (mkLexer text (length pre))
  = (chars ++ run, mkLexer text (length pre + length run)).
Proof.
  induction run as [|c run IH]; intros text pre rest chars fuel Ht Hall Hstop Hf.
  - simpl in Ht. rewrite append_nil_r, Nat.add_0_r.
    assert (Hg : get (length pre) text
                 = match rest with String ch _ => Some ch | EmptyString => None end).
    { rewrite Ht. rewrite <- (Nat.add_0_r (length pre)) at 1.
      rewrite get_append_r. destruct rest; reflexivity. }
    destruct fuel; simpl; rewrite Hg; destruct rest as [|ch rest]; try reflexivity;
      simpl in Hstop; destruct (P ch); try discriminate; reflexivity.
  - simpl in Hall. apply andb_prop in Hall as [Hc Hall].
    destruct fuel as [|fuel]; [simpl in Hf; lia|].
    simpl.
    assert (Hg : get (length pre) text = Some c).
    { rewrite Ht. rewrite <- (Nat.add_0_r (length pre)) at 1.
      rewrite get_append_r. reflexivity. }
    rewrite Hg, Hc. unfold advance. simpl m_text. simpl m_pos.
    replace (S (length pre)) with (length (pre ++ String c "")).
    2:{ rewrite length_append. simpl. lia. }
    rewrite (IH text (pre ++ String c "") rest); auto.
    + rewrite append_assoc. simpl. f_equal. f_equal.
      rewrite length_append. simpl. lia.
    + rewrite Ht. simpl. apply append_cons_shift.
    + simpl in Hf. lia.
Qed.
End ReadWhile.

(** ** The lexer *)

Lemma GetNextToken_loop_fuel (L : Lexer) (f1 f2 : nat) :
  match get (m_pos L) (m_text L) with
  | Some ch => isspace ch = false
  | None => True
  end ->
  GetNextToken_loop f1 L = GetNextToken_loop f2 L.
Proof.
  intros H. destruct f1, f2; simpl;
    destruct (get (m_pos L) (m_text L)) as [ch|]; try reflexivity;
    rewrite H; reflexivity.
Qed.

Lemma GetNextToken_end (L : Lexer) :
  get (m_pos L) (m_text L) = None ->
  GetNextToken L = Ok (EndOfFile_token, L).
Proof.
  intros H. unfold GetNextToken.
  destruct (chars_left L); simpl; rewrite H; reflexivity.
Qed.

Lemma GetNextToken_loop_skip (L1 : Lexer) :
  GetNextToken_loop (chars_left L1) (SkipWhitespaces L1)
  = GetNextToken_loop (chars_left L1) L1.
Proof.
  pose proof (read_while_stops isspace (chars_left L1) "" L1 (le_n _)) as Hst.
  simpl in Hst. fold (SkipWhitespaces L1) in Hst.
  destruct (get (m_pos L1) (m_text L1)) as [c1|] eqn:Hg1.
  - destruct (isspace c1) eqn:Hs1.
    + pose proof (get_Some_lt _ _ _ Hg1) as Hlt1.
      assert (Hcl1 : chars_left L1 = S (chars_left L1 - 1))
        by (unfold chars_left; lia).
      rewrite Hcl1 at 2. simpl. rewrite Hg1, Hs1.
      apply GetNextToken_loop_fuel. exact Hst.
    + assert (Hid : SkipWhitespaces L1 = L1).
      { unfold SkipWhitespaces. destruct (chars_left L1); simpl;
          rewrite Hg1, Hs1; reflexivity. }
      rewrite Hid. reflexivity.
  - assert (Hid : SkipWhitespaces L1 = L1).
    { unfold SkipWhitespaces. destruct (chars_left L1); simpl;
        rewrite Hg1; reflexivity. }
    rewrite Hid. reflexivity.
Qed.

(** A white-space character is skipped: the token is the one found from
    the next position. *)
Lemma GetNextToken_space (L : Lexer) (ch : ascii) :
  get (m_pos L) (m_text L) = Some ch -> isspace ch = true ->
  GetNextToken L = GetNextToken (advance L).
Proof.
  intros Hg Hs. unfold GetNextToken.
  pose proof (get_Some_lt _ _ _ Hg) as Hlt.
  assert (Hcl : chars_left L = S (chars_left (advance L))).
  { unfold chars_left, advance. simpl. lia. }
  rewrite Hcl. simpl. rewrite Hg, Hs.
  assert (Hskip : SkipWhitespaces L = SkipWhitespaces (advance L)).
  { unfold SkipWhitespaces. rewrite Hcl. simpl. rewrite Hg, Hs.
    apply read_while_snd. }
  rewrite Hskip. apply GetNextToken_loop_skip.
Qed.

(** A run of white space is skipped whole. *)
Lemma GetNextToken_spaces (ws : string) : forall pre rest,
  all_chars isspace ws = true ->
  GetNextToken (mkLexer (pre ++ ws ++ rest) (length pre))
  = GetNextToken (mkLexer (pre ++ ws ++ rest) (length pre + length ws)).
Proof.
  induction ws as [|c ws IH]; intros pre rest Hall; simpl.
  - rewrite Nat.add_0_r. reflexivity.
  - simpl in Hall. apply andb_prop in Hall as [Hc Hall].
    rewrite (GetNextToken_space _ c); auto.
    2:{ simpl. rewrite <- (Nat.add_0_r (length pre)). rewrite get_append_r.
        reflexivity. }
    unfold advance. simpl.
    rewrite append_cons_shift.
    replace (S (length pre)) with (length (pre ++ String c ""))
      by (rewrite length_append; simpl; lia).
    rewrite IH; auto. f_equal. f_equal. rewrite length_append. simpl. lia.
Qed.

Lemma GetNextToken_unknown (L : Lexer) (ch : ascii) :
  get (m_pos L) (m_text L) = Some ch -> unknown_char ch = true ->
  GetNextToken L = Throw (lex_error (m_pos L) ch).
Proof.
  intros Hg Hu. unfold unknown_char in Hu.
  apply negb_true_iff in Hu.
  apply orb_false_elim in Hu as [Hu Hop].
  apply orb_false_elim in Hu as [Hu Ha].
  apply orb_false_elim in Hu as [Hs Hd].
  unfold is_operator_char in Hop.
  do 5 (apply orb_false_elim in Hop; destruct Hop as [Hop ?]).
  unfold GetNextToken.
  destruct (chars_left L); simpl; rewrite Hg, Hs, Hd, Ha;
    repeat match goal with H : (_ =? _)%char = false |- _ => rewrite H; clear H end;
    reflexivity.
Qed.

(** ** Character classes *)

Ltac by_bits ch :=
  destruct ch as [[] [] [] [] [] [] [] []]; vm_compute; intros;
  first [discriminate | reflexivity | tauto].

Lemma isdigit_class (ch : ascii) :
  isdigit ch = true ->
  isspace ch = false /\ (ch =? "-")%char = false /\ (ch =? "+")%char = false
  /\ (ch =? ".")%char = false.
Proof. revert ch. intros ch. by_bits ch. Qed.

Lemma isalpha_class (ch : ascii) :
  isalpha ch = true ->
  isspace ch = false /\ isdigit ch = false
  /\ (isalnum ch || (ch =? "_")%char) = true.
Proof. by_bits ch. Qed.

(** ** Tokens read from a known text *)

Lemma get_at_prefix (pre s : string) :
  get (length pre) (pre ++ s)
  = match s with String ch _ => Some ch | EmptyString => None end.
Proof.
  rewrite <- (Nat.add_0_r (length pre)), get_append_r. destruct s; reflexivity.
Qed.

Lemma chars_left_at_prefix (pre s : string) :
  chars_left (mkLexer (pre ++ s) (length pre)) = length s.
Proof. unfold chars_left. simpl. rewrite length_append. lia. Qed.

(** A digit run with no fraction behind it. *)
Lemma ReadAsNumberConstant_digits (pre ds rest : string) :
  all_chars isdigit ds = true -> stops isdigit rest = true ->
  stops (fun ch => (ch =? ".")%char) rest = true ->
  ReadAsNumberConstant (mkLexer (pre ++ ds ++ rest) (length pre))
  = (mkToken Number (Some ds),
     mkLexer (pre ++ ds ++ rest) (length pre + length ds)).
Proof.
  intros Hds Hrest Hdot. unfold ReadAsNumberConstant.
  rewrite (read_while_run isdigit ds _ pre rest); auto.
  2:{ rewrite chars_left_at_prefix, length_append. lia. }
  simpl m_pos. simpl m_text.
  replace (length pre + length ds) with (length (pre ++ ds))
    by apply length_append.
  rewrite <- append_assoc, get_at_prefix.
  destruct rest as [|ch rest]; [reflexivity|].
  simpl in Hdot. apply negb_true_iff in Hdot. rewrite Hdot. reflexivity.
Qed.

(** A digit run, a dot and a second digit run. *)
Lemma ReadAsNumberConstant_fraction (pre ds fs rest : string) :
  all_chars isdigit ds = true -> all_chars isdigit fs = true ->
  stops isdigit rest = true ->
  ReadAsNumberConstant (mkLexer (pre ++ ds ++ "." ++ fs ++ rest) (length pre))
  = (mkToken Number (Some (ds ++ "." ++ fs)),
     mkLexer (pre ++ ds ++ "." ++ fs ++ rest)
       (length pre + length (ds ++ "." ++ fs))).
Proof.
  intros Hds Hfs Hrest.
  remember (pre ++ ds ++ "." ++ fs ++ rest) as text eqn:Ht.
  unfold ReadAsNumberConstant.
  rewrite (read_while_run isdigit ds text pre ("." ++ fs ++ rest)); auto.
  2:{ unfold chars_left. cbn [m_text m_pos]. rewrite Ht, !length_append. lia. }
  cbv beta iota. cbn [m_text m_pos].
  assert (Hg : get (length pre + length ds) text = Some "."%char).
  { rewrite Ht. replace (length pre + length ds) with (length (pre ++ ds))
      by apply length_append.
    rewrite <- append_assoc, get_at_prefix. reflexivity. }
  rewrite Hg. cbn [Ascii.eqb Bool.eqb]. unfold advance. cbn [m_text m_pos].
  replace (S (length pre + length ds)) with (length (pre ++ ds ++ "."))
    by (rewrite !length_append; simpl; lia).
  rewrite (read_while_run isdigit fs text (pre ++ ds ++ ".") rest); auto.
  - cbv beta iota. f_equal; f_equal.
    + rewrite !append_assoc. reflexivity.
    + rewrite !length_append. simpl. lia.
  - rewrite Ht, !append_assoc. reflexivity.
  - unfold chars_left. cbn [m_text m_pos].
    rewrite Ht, !length_append. simpl. rewrite ?length_append. lia.
Qed.

Lemma GetNextToken_digit (L : Lexer) (ch : ascii) :
  get (m_pos L) (m_text L) = Some ch -> isdigit ch = true ->
  GetNextToken L = Ok (ReadAsNumberConstant L).
Proof.
  intros Hg Hd. destruct (isdigit_class ch Hd) as [Hs _].
  unfold GetNextToken. destruct (chars_left L); simpl; rewrite Hg, Hs, Hd;
    reflexivity.
Qed.

Lemma GetNextToken_alpha (L : Lexer) (ch : ascii) :
  get (m_pos L) (m_text L) = Some ch -> isalpha ch = true ->
  GetNextToken L = Ok (ReadAsIdentifier L).
Proof.
  intros Hg Ha. destruct (isalpha_class ch Ha) as [Hs [Hd _]].
  unfold GetNextToken. destruct (chars_left L); simpl; rewrite Hg, Hs, Hd, Ha;
    reflexivity.
Qed.

Lemma ReadAsIdentifier_run (pre name rest : string) :
  all_chars identifier_char name = true -> stops identifier_char rest = true ->
  ReadAsIdentifier (mkLexer (pre ++ name ++ rest) (length pre))
  = (mkToken Identifier (Some name),
     mkLexer (pre ++ name ++ rest) (length pre + length name)).
Proof.
  intros Hn Hr. unfold ReadAsIdentifier.
  change (fun ch : ascii => isalnum ch || (ch =? "_")%char) with identifier_char.
  rewrite (read_while_run identifier_char name _ pre rest); auto.
  rewrite chars_left_at_prefix, length_append. lia.
Qed.

(** ** The parser, one step at a time *)

Lemma Eat_ok (ty : TokenType) (p : Parser) (tok : Token) (L : Lexer) :
  is_type ty p = true -> GetNextToken (m_lexer p) = Ok (tok, L) ->
  Eat ty p = Ok (mkParser L tok).
Proof. intros Ht Hg. unfold Eat. rewrite Ht, Hg. reflexivity. Qed.

Lemma ParseAtom_Number (rec : parse_fn) (L : Lexer) (text : string) :
  ParseAtom rec (mkParser L (mkToken Number (Some text)))
  = (p <- Eat Number (mkParser L (mkToken Number (Some text))) ;;
     v <- stoi text ;; Ok (NumberAST v, p)).
Proof. reflexivity. Qed.

Lemma ParseAtom_Identifier (rec : parse_fn) (L : Lexer) (name : string) :
  ParseAtom rec (mkParser L (mkToken Identifier (Some name)))
  = (p <- Eat Identifier (mkParser L (mkToken Identifier (Some name))) ;;
     Ok (VariableRefAST name, p)).
Proof. reflexivity. Qed.

(** ** [std::stoi] on a literal *)

Lemma read_digits_run (ds : string) : forall rest acc n,
  all_chars isdigit ds = true -> stops isdigit rest = true ->
  read_digits (ds ++ rest) acc n
  = ((acc * 10 ^ Z.of_nat (length ds) + decimal_value ds)%Z, n + length ds).
Proof.
  induction ds as [|c ds IH]; intros rest acc n Hds Hrest.
  - simpl. replace (acc * 1 + 0)%Z with acc by lia. rewrite Nat.add_0_r.
    destruct rest as [|ch rest]; [reflexivity|].
    simpl in *. apply negb_true_iff in Hrest. rewrite Hrest. reflexivity.
  - simpl in Hds. apply andb_prop in Hds as [Hc Hds].
    cbn [append read_digits]. rewrite Hc. rewrite IH; auto.
    cbn [length decimal_value]. f_equal; [|lia].
    rewrite Nat2Z.inj_succ, Z.pow_succ_r by lia. ring.
Qed.

Lemma decimal_value_nonneg (ds : string) :
  all_chars isdigit ds = true -> (0 <= decimal_value ds)%Z.
Proof.
  induction ds as [|c ds IH]; intros H; simpl in *; [lia|].
  apply andb_prop in H as [Hc Hds]. specialize (IH Hds).
  assert (0 <= digit_value c)%Z.
  { unfold digit_value. unfold isdigit in Hc.
    apply andb_prop in Hc as [Hc _]. apply Nat.leb_le in Hc. lia. }
  assert (0 <= 10 ^ Z.of_nat (length ds))%Z by (apply Z.pow_nonneg; lia).
  nia.
Qed.

(** On a literal [std::stoi] reads the digits before the dot, and nothing
    else. *)
Lemma stoi_literal (ds : string) (fraction : option string) :
  is_literal ds fraction = true ->
  stoi (literal_text ds fraction)
  = if (decimal_value ds <=? INT_MAX)%Z then Ok (decimal_value ds)
    else Throw (out_of_range "stoi").
Proof.
  unfold is_literal. intros H.
  apply andb_prop in H as [H Hfs]. apply andb_prop in H as [Hne Hds].
  destruct ds as [|d ds]; [discriminate|]. clear Hne.
  pose proof (decimal_value_nonneg _ Hds) as Hpos.
  simpl in Hds. apply andb_prop in Hds as [Hd Hds'].
  destruct (isdigit_class d Hd) as [Hs [Hm [Hp _]]].
  assert (Htext : exists rest, literal_text (String d ds) fraction
                               = String d ds ++ rest /\ stops isdigit rest = true).
  { destruct fraction as [fs|]; simpl.
    - exists ("." ++ fs). split; reflexivity.
    - exists "". rewrite append_nil_r. split; reflexivity. }
  destruct Htext as [rest [Ht Hstop]]. rewrite Ht.
  unfold stoi. cbn [append skip_spaces]. rewrite Hs, Hm, Hp.
  change (String d (ds ++ rest)) with (String d ds ++ rest).
  rewrite read_digits_run; auto.
  2:{ simpl. rewrite Hd, Hds'. reflexivity. }
  cbn [length Nat.add]. rewrite Z.mul_0_l, Z.add_0_l.
  set (v := decimal_value (String d ds)) in *.
  assert (Hmin : (INT_MIN <=? v)%Z = true)
    by (apply Z.leb_le; unfold INT_MIN; lia).
  rewrite Hmin. reflexivity.
Qed.

Lemma read_digits_count (s : string) : forall acc n,
  n <= snd (read_digits s acc n).
Proof.
  induction s as [|ch s IH]; intros acc n; cbn [read_digits]; [simpl; lia|].
  destruct (isdigit ch); [|simpl; lia].
  specialize (IH (10 * acc + digit_value ch)%Z (S n)). lia.
Qed.

Lemma ParseMulDiv_loop_exit (atom : parse_fn) (fuel : nat)
    (node : ExpressionAST) (p : Parser) :
  is_type Mul p || is_type Div p = false ->
  ParseMulDiv_loop atom fuel node p = Ok (node, p).
Proof. intros H. destruct fuel; simpl; rewrite H; reflexivity. Qed.

Lemma ParseAddSub_loop_exit (muldiv : parse_fn) (fuel : nat)
    (node : ExpressionAST) (p : Parser) :
  is_type Plus p || is_type Minus p = false ->
  ParseAddSub_loop muldiv fuel node p = Ok (node, p).
Proof. intros H. destruct fuel; simpl; rewrite H; reflexivity. Qed.

(** ** A line that is one numeric literal *)

Lemma GetNextToken_literal (ds : string) (fraction : option string) :
  is_literal ds fraction = true ->
  GetNextToken (mkLexer (literal_text ds fraction) 0)
  = Ok (mkToken Number (Some (literal_text ds fraction)),
        mkLexer (literal_text ds fraction) (length (literal_text ds fraction))).
Proof.
  unfold is_literal. intros H.
  apply andb_prop in H as [H Hfs]. apply andb_prop in H as [Hne Hds].
  destruct ds as [|d ds]; [discriminate|]. clear Hne.
  assert (Hd : isdigit d = true) by (simpl in Hds; apply andb_prop in Hds; tauto).
  rewrite (GetNextToken_digit _ d); auto.
  2:{ destruct fraction; reflexivity. }
  f_equal. destruct fraction as [fs|]; unfold literal_text.
  - pose proof (ReadAsNumberConstant_fraction "" (String d ds) fs "" Hds Hfs eq_refl)
      as R.
    cbn [append length Nat.add] in R. rewrite append_nil_r in R.
    cbn [append]. exact R.
  - pose proof (ReadAsNumberConstant_digits "" (String d ds) "" Hds eq_refl eq_refl)
      as R.
    cbn [append length Nat.add] in R. rewrite append_nil_r in R. exact R.
Qed.

Lemma ParseAddSub_literal (ds : string) (fraction : option string) :
  is_literal ds fraction = true ->
  let line := literal_text ds fraction in
  ParseAddSub (mkParser (mkLexer line (length line))
                 (mkToken Number (Some line)))
  = if (decimal_value ds <=? INT_MAX)%Z
    then Ok (NumberAST (decimal_value ds),
             mkParser (mkLexer line (length line)) EndOfFile_token)
    else Throw (out_of_range "stoi").
Proof.
  intros Hlit line. unfold ParseAddSub.
  cbn [ParseAddSub_rec]. unfold ParseMulDiv at 1.
  rewrite ParseAtom_Number.
  rewrite (Eat_ok Number _ EndOfFile_token (mkLexer line (length line)));
    [|reflexivity|].
  2:{ apply GetNextToken_end. apply get_ge_None. simpl. lia. }
  cbn [bind]. unfold line at 1. rewrite stoi_literal by exact Hlit.
  destruct (decimal_value ds <=? INT_MAX)%Z; [|reflexivity].
  cbn [bind]. rewrite ParseMulDiv_loop_exit by reflexivity.
  cbn [bind]. apply ParseAddSub_loop_exit. reflexivity.
Qed.

Lemma translate_literal (ds : string) (fraction : option string) :
  is_literal ds fraction = true ->
  translate (literal_text ds fraction)
  = if (decimal_value ds <=? INT_MAX)%Z
    then Ok (ir ["%x1 = " ++ to_string (decimal_value ds) ++ ".000000";
                 "%result = %x1"])
    else Throw (out_of_range "stoi").
Proof.
  intros Hlit. unfold translate, Parser_new.
  rewrite GetNextToken_literal by exact Hlit. cbn [bind].
  rewrite ParseAddSub_literal by exact Hlit.
  destruct (decimal_value ds <=? INT_MAX)%Z; [|reflexivity].
  cbn. unfold ir, to_string_double. cbn. rewrite !append_assoc. reflexivity.
Qed.

(** C10. A numeric literal whose digits before the dot denote a number
    above [INT_MAX] is lexed as one Number token, [std::stoi] throws
    [std::out_of_range] on its text, and so do [ParseAddSub] and the whole
    translation; the exception is neither the lexer's
    [std::invalid_argument] nor the parser's [std::runtime_error]. *)
Theorem C10_literal_above_INT_MAX (ds : string) (fraction : option string) :
  is_literal ds fraction = true ->
  (INT_MAX < decimal_value ds)%Z ->
  Parser_new (mkLexer (literal_text ds fraction) 0)
  = Ok (mkParser (mkLexer (literal_text ds fraction)
                    (length (literal_text ds fraction)))
          (mkToken Number (Some (literal_text ds fraction))))
  /\ stoi (literal_text ds fraction) = Throw (out_of_range "stoi")
  /\ (p <- Parser_new (mkLexer (literal_text ds fraction) 0) ;; ParseAddSub p)
     = Throw (out_of_range "stoi")
  /\ translate (literal_text ds fraction) = Throw (out_of_range "stoi")
  /\ (forall what,
        translate (literal_text ds fraction) <> Throw (invalid_argument what)
        /\ translate (literal_text ds fraction) <> Throw (runtime_error what)).
Proof.
  intros Hlit Hbig.
  assert (Hcmp : (decimal_value ds <=? INT_MAX)%Z = false)
    by (apply Z.leb_gt; exact Hbig).
  assert (Hnew : Parser_new (mkLexer (literal_text ds fraction) 0)
                 = Ok (mkParser (mkLexer (literal_text ds fraction)
                                   (length (literal_text ds fraction)))
                         (mkToken Number (Some (literal_text ds fraction))))).
  { unfold Parser_new. rewrite GetNextToken_literal by exact Hlit. reflexivity. }
  assert (Htr : translate (literal_text ds fraction) = Throw (out_of_range "stoi")).
  { rewrite translate_literal by exact Hlit. rewrite Hcmp. reflexivity. }
  repeat split.
  - exact Hnew.
  - rewrite stoi_literal by exact Hlit. rewrite Hcmp. reflexivity.
  - rewrite Hnew. cbn [bind].
    pose proof (ParseAddSub_literal ds fraction Hlit) as R. cbv zeta in R.
    rewrite R, Hcmp. reflexivity.
  - exact Htr.
  - rewrite Htr. discriminate.
  - rewrite Htr. discriminate.
Qed.

Lemma C10_literal_above_INT_MAX_witness :
  is_literal "3000000000" None = true
  /\ (INT_MAX < decimal_value "3000000000")%Z
  /\ translate "3000000000" = Throw (out_of_range "stoi").
Proof.
  split; [reflexivity|]. split; [reflexivity|].
  apply (C10_literal_above_INT_MAX "3000000000" None); reflexivity.
Defined.

(** ** The lexer at the end of the text and on unknown characters *)

(** C8. Once the scan position has reached the end of the text,
    [GetNextToken] returns an EndOfFile token and leaves the lexer as it
    was, however many times it is called; and a run of white space before
    the scan position's token yields no token of its own: the call returns
    what it returns from behind the run. *)
Theorem C8_EndOfFile_after_exhaustion (L : Lexer) :
  length (m_text L) <= m_pos L ->
  GetNextToken L = Ok (EndOfFile_token, L)
  /\ (forall n,
        GetNextToken_times n L = Ok (repeat EndOfFile_token n, L))
  /\ (forall pre ws rest,
        all_chars isspace ws = true ->
        GetNextToken (mkLexer (pre ++ ws ++ rest) (length pre))
        = GetNextToken (mkLexer (pre ++ ws ++ rest) (length pre + length ws))).
Proof.
  intros Hend.
  assert (H1 : GetNextToken L = Ok (EndOfFile_token, L))
    by (apply GetNextToken_end, get_ge_None, Hend).
  split; [exact H1|]. split.
  - induction n as [|n IH]; [reflexivity|].
    cbn [GetNextToken_times]. rewrite H1. cbn [bind]. rewrite IH. reflexivity.
  - intros pre ws rest Hws. apply GetNextToken_spaces. exact Hws.
Qed.

Lemma C8_EndOfFile_after_exhaustion_witness :
  length (m_text (mkLexer "1 + 2" 5)) <= m_pos (mkLexer "1 + 2" 5)
  /\ GetNextToken_times 3 (mkLexer "1 + 2" 5)
     = Ok ([EndOfFile_token; EndOfFile_token; EndOfFile_token],
           mkLexer "1 + 2" 5).
Proof.
  split; [simpl; lia|].
  apply (C8_EndOfFile_after_exhaustion (mkLexer "1 + 2" 5)). simpl. lia.
Defined.

(** ** Concrete lines *)

(** C1. The line ["(1 + 2) / 3 * 5"] is translated to the eight lines of
    the README, in that order. *)
Theorem C1_readme_example :
  translate "(1 + 2) / 3 * 5"
  = Ok (ir ["%x1 = 1.000000";
            "%x2 = 2.000000";
            "%addtmp3 = add %x1 %x2";
            "%x4 = 3.000000";
            "%divtmp5 = div %addtmp3 %x4";
            "%x6 = 5.000000";
            "%multmp7 = mul %divtmp5 %x6";
            "%result = %multmp7"])
  /\ (p <- Parser_new (mkLexer "(1 + 2) / 3 * 5" 0) ;;
      '(ast, _) <- ParseAddSub p ;; Ok ast)
     = Ok (BinaryExpressionAST
             (BinaryExpressionAST
                (BinaryExpressionAST (NumberAST 1) (NumberAST 2) "+")
                (NumberAST 3) "/")
             (NumberAST 5) "*").
Proof. split; vm_compute; reflexivity. Qed.

(** C2 fails on the code: the literal ["1.5"] is emitted as [1.000000],
    because [ParseAtom] converts the text with [std::stoi]. *)
Theorem C2_fraction_is_dropped :
  is_literal "1" (Some "5") = true
  /\ literal_text "1" (Some "5") = "1.5"
  /\ translate "1.5" = Ok (ir ["%x1 = 1.000000"; "%result = %x1"])
  /\ translate "1.5" <> Ok (ir ["%x1 = 1.500000"; "%result = %x1"]).
Proof. repeat split; try reflexivity. vm_compute. discriminate. Qed.

(** ** Register names *)

Lemma to_string_inj (a b : Z) : to_string a = to_string b -> a = b.
Proof.
  unfold to_string. intros H.
  assert (G : forall z, NilZero.int_of_string (NilZero.string_of_int (Z.to_int z))
                        = Some (Z.to_int z)).
  { intros z. apply NilZero.isi; destruct z; simpl; try discriminate;
      intros [= E]; revert E; apply DecimalPos.Unsigned.to_uint_nonnil. }
  apply DecimalZ.to_int_inj.
  pose proof (G a) as Ga. rewrite H, G in Ga. congruence.
Qed.

Lemma dest_inj (i j : Instruction) :
  register_prefix (dest_prefix i) = true ->
  register_prefix (dest_prefix j) = true ->
  dest i = dest j -> dest_id i = dest_id j.
Proof.
  unfold register_prefix, dest. intros Hi Hj.
  repeat (apply orb_prop in Hi; destruct Hi as [Hi|Hi]);
    apply String.eqb_eq in Hi; rewrite Hi;
    repeat (apply orb_prop in Hj; destruct Hj as [Hj|Hj]);
    apply String.eqb_eq in Hj; rewrite Hj;
    cbn [append]; intros E; try discriminate;
    injection E as E; apply to_string_inj; exact E.
Qed.

Lemma Zseq_bounds (n : nat) : forall start x,
  In x (Zseq start n) -> (start <= x < start + Z.of_nat n)%Z.
Proof.
  induction n as [|n IH]; intros start x H; simpl in H; [contradiction|].
  destruct H as [<-|H]; [lia|]. apply IH in H. lia.
Qed.

Lemma Zseq_NoDup (n : nat) : forall start, NoDup (Zseq start n).
Proof.
  induction n as [|n IH]; intros start; simpl; constructor; auto.
  intros H. apply Zseq_bounds in H. lia.
Qed.

Lemma Zseq_app (n m : nat) : forall start,
  Zseq start (n + m) = (Zseq start n ++ Zseq (start + Z.of_nat n) m)%list.
Proof.
  induction n as [|n IH]; intros start.
  - simpl. f_equal. lia.
  - cbn [Nat.add Zseq app]. rewrite IH. do 3 f_equal. lia.
Qed.

Lemma NoDup_map_transfer {A B C : Type} (f : A -> B) (g : A -> C) (l : list A) :
  (forall x y, In x l -> In y l -> f x = f y -> g x = g y) ->
  NoDup (map g l) -> NoDup (map f l).
Proof.
  induction l as [|a l IH]; intros Hfg Hnd; simpl; constructor.
  - inversion Hnd as [|? ? Hnotin Hnd']; subst.
    intros Hin. apply in_map_iff in Hin as [y [Hy Hyin]].
    apply Hnotin. apply in_map_iff. exists y. split; [|exact Hyin].
    apply Hfg; simpl; auto.
  - inversion Hnd; subst. apply IH; auto.
    intros x y Hx Hy. apply Hfg; simpl; auto.
Qed.

(** Destinations numbered by a [Zseq] are pairwise different names. *)
Lemma dests_NoDup (ins : list Instruction) (start : Z) :
  Forall (fun i => register_prefix (dest_prefix i) = true) ins ->
  map dest_id ins = Zseq start (List.length ins) ->
  NoDup (map dest ins).
Proof.
  intros Hpre Hids. apply (NoDup_map_transfer dest dest_id).
  - rewrite Forall_forall in Hpre. intros x y Hx Hy. apply dest_inj; auto.
  - rewrite Hids. apply Zseq_NoDup.
Qed.

Lemma render_app (ins js : list Instruction) :
  render (ins ++ js) = render ins ++ render js.
Proof.
  induction ins as [|i ins IH]; simpl; [reflexivity|].
  rewrite IH, append_assoc. reflexivity.
Qed.

(** ** The visitor *)

Lemma bind_Ok {A B : Type} (r : result A) (k : A -> result B) (b : B) :
  bind r k = Ok b -> exists a, r = Ok a /\ k a = Ok b.
Proof. destruct r; simpl; intros H; try discriminate. eauto. Qed.

Lemma bind_Throw {A B : Type} (r : result A) (k : A -> result B)
    (e : exception) :
  bind r k = Throw e ->
  r = Throw e \/ exists a, r = Ok a /\ k a = Throw e.
Proof.
  destruct r; simpl; intros H; try discriminate; [right; eauto|left; congruence].
Qed.

(** One instruction: a fresh register pushed and its line appended. *)
Lemma push_emit (prefix rhs : string) (g g' : SimpleCodeGenerator) :
  (g1 <- push_register prefix g ;; emit rhs g1) = Ok g' ->
  (m_registerId g < INT_MAX)%Z
  /\ g' = mkGenerator
            (m_code g ++ (prefix ++ to_string (m_registerId g)) ++ rhs)
            ((prefix ++ to_string (m_registerId g)) :: m_registers g)
            (m_registerId g + 1).
Proof.
  unfold push_register, emit, back.
  destruct (m_registerId g <? INT_MAX)%Z eqn:E; simpl; [|discriminate].
  intros [= <-]. split; [apply Z.ltb_lt; exact E|reflexivity].
Qed.

Lemma push_emit_defined (prefix rhs : string) (g : SimpleCodeGenerator) :
  (m_registerId g < INT_MAX)%Z ->
  (g1 <- push_register prefix g ;; emit rhs g1)
  = Ok (mkGenerator
          (m_code g ++ (prefix ++ to_string (m_registerId g)) ++ rhs)
          ((prefix ++ to_string (m_registerId g)) :: m_registers g)
          (m_registerId g + 1)).
Proof.
  intros H. apply Z.ltb_lt in H. unfold push_register, emit, back.
  rewrite H. reflexivity.
Qed.

Lemma visited_leaf (node : ExpressionAST) (g : SimpleCodeGenerator)
    (op : string) :
  unknown_operators node = 0 -> nodes node = 1 ->
  (m_registerId g < INT_MAX)%Z ->
  visited node g
    (mkGenerator
       (m_code g ++ ("%x" ++ to_string (m_registerId g))
        ++ " = " ++ op ++ newline)
       (("%x" ++ to_string (m_registerId g)) :: m_registers g)
       (m_registerId g + 1))
    [mkInstruction "%x" (m_registerId g) op].
Proof.
  intros HU HN Hlt. constructor; cbn [m_code m_registers m_registerId length];
    rewrite ?HU, ?HN; try reflexivity; try lia.
  - unfold render, instruction_line, dest. cbn [dest_prefix dest_id operation].
    rewrite append_nil_r. reflexivity.
  - constructor; [reflexivity|constructor].
  - simpl. lia.
  - intros _. exists [], (mkInstruction "%x" (m_registerId g) op).
    split; reflexivity.
Qed.

Lemma supported_operator_cases (op : ascii) :
  supported_operator op = true ->
  op = "+"%char \/ op = "-"%char \/ op = "*"%char \/ op = "/"%char.
Proof.
  unfold supported_operator. intros H.
  repeat (apply orb_prop in H; destruct H as [H|H]);
    apply Ascii.eqb_eq in H; auto.
Qed.

Lemma visited_binary (l r : ExpressionAST) (op : ascii)
    (g g1 g2 : SimpleCodeGenerator) (ins_l ins_r : list Instruction)
    (right_ left_ : string) (rs : list string) (prefix opn : string) :
  visited l g g1 ins_l -> visited r g1 g2 ins_r ->
  m_registers g2 = right_ :: left_ :: rs ->
  supported_operator op = true -> register_prefix prefix = true ->
  (m_registerId g2 < INT_MAX)%Z ->
  visited (BinaryExpressionAST l r op) g
    (mkGenerator
       (m_code g2 ++ (prefix ++ to_string (m_registerId g2))
        ++ " = " ++ opn ++ newline)
       ((prefix ++ to_string (m_registerId g2)) :: rs)
       (m_registerId g2 + 1))
    (ins_l ++ ins_r ++ [mkInstruction prefix (m_registerId g2) opn])%list.
Proof.
  intros [Cl Il Nl Bl Pl Kl Dl Tl] [Cr Ir Nr Br Pr Kr Dr Tr] Hregs Hop Hpre Hlt.
  rewrite Hregs in Dr. cbn [List.length] in Dr.
  constructor; cbn [m_code m_registers m_registerId unknown_operators nodes];
    rewrite ?Hop; rewrite ?length_app; cbn [List.length].
  - rewrite Cr, Cl, !render_app. cbn [render].
    unfold instruction_line, dest. cbn [dest_prefix dest_id operation].
    rewrite append_nil_r, !append_assoc. reflexivity.
  - rewrite !map_app, Il, Ir. cbn [map dest_id].
    rewrite Zseq_app, Zseq_app. cbn [Zseq].
    rewrite Nr, Nl. repeat f_equal; try lia.
  - rewrite Nr, Nl. lia.
  - lia.
  - apply Forall_app. split; [exact Pl|]. apply Forall_app. split; [exact Pr|].
    constructor; [exact Hpre|constructor].
  - lia.
  - lia.
  - intros HU.
    assert (HUl : unknown_operators l = 0) by lia.
    assert (HUr : unknown_operators r = 0) by lia.
    destruct (Tl HUl) as [fl [ll [_ Htl]]].
    destruct (Tr HUr) as [fr [lr [_ Htr]]].
    rewrite Htl, Hregs in Htr. injection Htr as _ _ Hrs.
    exists (ins_l ++ ins_r)%list, (mkInstruction prefix (m_registerId g2) opn).
    split; [rewrite <- app_assoc; reflexivity|].
    rewrite Hrs. reflexivity.
Qed.

Lemma visited_unknown_operator (l r : ExpressionAST) (op : ascii)
    (g g1 g2 : SimpleCodeGenerator) (ins_l ins_r : list Instruction)
    (right_ left_ : string) (rs : list string) :
  visited l g g1 ins_l -> visited r g1 g2 ins_r ->
  m_registers g2 = right_ :: left_ :: rs ->
  supported_operator op = false ->
  visited (BinaryExpressionAST l r op) g
    (mkGenerator (m_code g2) rs (m_registerId g2))
    (ins_l ++ ins_r)%list.
Proof.
  intros [Cl Il Nl Bl Pl Kl Dl Tl] [Cr Ir Nr Br Pr Kr Dr Tr] Hregs Hop.
  rewrite Hregs in Dr. cbn [List.length] in Dr.
  constructor; cbn [m_code m_registers m_registerId unknown_operators nodes];
    rewrite ?Hop; rewrite ?length_app.
  - rewrite Cr, Cl, render_app, append_assoc. reflexivity.
  - rewrite map_app, Il, Ir, Zseq_app, Nl. reflexivity.
  - rewrite Nr, Nl. lia.
  - exact Br.
  - apply Forall_app. split; assumption.
  - lia.
  - lia.
  - intros HU. lia.
Qed.

Lemma pop_Ok (g g' : SimpleCodeGenerator) (r : string) :
  pop g = Ok (r, g') ->
  exists rs, m_registers g = r :: rs
             /\ g' = mkGenerator (m_code g) rs (m_registerId g).
Proof.
  unfold pop. destruct (m_registers g) as [|r0 rs]; [discriminate|].
  intros [= <- <-]. eauto.
Qed.

Theorem Visit_visited (node : ExpressionAST) :
  forall g g', Visit node g = Ok g' -> exists ins, visited node g g' ins.
Proof.
  induction node as [name|v|l IHl r IHr op]; intros g g' H.
  - cbn [Visit] in H. apply push_emit in H as [Hlt ->].
    exists [mkInstruction "%x" (m_registerId g) ("%" ++ name)].
    exact (visited_leaf (VariableRefAST name) g ("%" ++ name)
             eq_refl eq_refl Hlt).
  - cbn [Visit] in H. apply push_emit in H as [Hlt ->].
    exists [mkInstruction "%x" (m_registerId g) (to_string_double v)].
    exact (visited_leaf (NumberAST v) g (to_string_double v)
             eq_refl eq_refl Hlt).
  - cbn [Visit] in H.
    apply bind_Ok in H as [g1 [H1 H]]. apply bind_Ok in H as [g2 [H2 H]].
    apply bind_Ok in H as [[right_ g3] [H3 H]].
    apply bind_Ok in H as [[left_ g4] [H4 H]].
    destruct (IHl _ _ H1) as [ins_l Vl]. destruct (IHr _ _ H2) as [ins_r Vr].
    apply pop_Ok in H3 as [rs3 [Hr3 ->]].
    apply pop_Ok in H4 as [rs4 [Hr4 ->]].
    cbn [m_registers m_code m_registerId] in *. subst rs3.
    pose proof (fun prefix opn =>
      visited_binary l r op g g1 g2 ins_l ins_r right_ left_ rs4 prefix opn
        Vl Vr Hr3) as Vb.
    destruct (op =? "+")%char eqn:Eadd;
      [|destruct (op =? "-")%char eqn:Esub;
        [|destruct (op =? "*")%char eqn:Emul;
          [|destruct (op =? "/")%char eqn:Ediv]]].
    5:{ injection H as <-. exists (ins_l ++ ins_r)%list.
        apply (visited_unknown_operator l r op g g1 g2 ins_l ins_r right_ left_);
          auto.
        unfold supported_operator. rewrite Eadd, Esub, Emul, Ediv. reflexivity. }
    all: apply push_emit in H as [Hlt ->];
      cbn [m_registers m_code m_registerId];
      assert (Hop : supported_operator op = true)
        by (unfold supported_operator;
            rewrite ?Eadd, ?Esub, ?Emul, ?Ediv, ?orb_true_r; reflexivity).
    + exists (ins_l ++ ins_r ++
              [mkInstruction "%addtmp" (m_registerId g2)
                 ("add " ++ left_ ++ " " ++ right_)])%list.
      pose proof (Vb "%addtmp" ("add " ++ left_ ++ " " ++ right_)
                    Hop eq_refl Hlt) as V.
      cbn [append] in V. rewrite !append_assoc in V. cbn [append] in V.
      cbn [append]. exact V.
    + exists (ins_l ++ ins_r ++
              [mkInstruction "%subtmp" (m_registerId g2)
                 ("sub " ++ left_ ++ " " ++ right_)])%list.
      pose proof (Vb "%subtmp" ("sub " ++ left_ ++ " " ++ right_)
                    Hop eq_refl Hlt) as V.
      cbn [append] in V. rewrite !append_assoc in V. cbn [append] in V.
      cbn [append]. exact V.
    + exists (ins_l ++ ins_r ++
              [mkInstruction "%multmp" (m_registerId g2)
                 ("mul " ++ left_ ++ " " ++ right_)])%list.
      pose proof (Vb "%multmp" ("mul " ++ left_ ++ " " ++ right_)
                    Hop eq_refl Hlt) as V.
      cbn [append] in V. rewrite !append_assoc in V. cbn [append] in V.
      cbn [append]. exact V.
    + exists (ins_l ++ ins_r ++
              [mkInstruction "%divtmp" (m_registerId g2)
                 ("div " ++ left_ ++ " " ++ right_)])%list.
      pose proof (Vb "%divtmp" ("div " ++ left_ ++ " " ++ right_)
                    Hop eq_refl Hlt) as V.
      cbn [append] in V. rewrite !append_assoc in V. cbn [append] in V.
      cbn [append]. exact V.
Qed.

(** Over the four operators, and with room left in the [int] counter,
    [Visit] runs to completion. *)
Lemma Visit_defined (node : ExpressionAST) :
  forall g,
    unknown_operators node = 0 ->
    (m_registerId g + Z.of_nat (nodes node) <= INT_MAX)%Z ->
    exists g', Visit node g = Ok g'.
Proof.
  induction node as [name|v|l IHl r IHr op]; intros g HU Hroom.
  - cbn [Visit]. rewrite push_emit_defined; [eauto|]. cbn [nodes] in Hroom. lia.
  - cbn [Visit]. rewrite push_emit_defined; [eauto|]. cbn [nodes] in Hroom. lia.
  - cbn [unknown_operators nodes] in HU, Hroom.
    destruct (supported_operator op) eqn:Hop; [|lia].
    assert (HUl : unknown_operators l = 0) by lia.
    assert (HUr : unknown_operators r = 0) by lia.
    destruct (IHl g HUl) as [g1 H1]; [lia|].
    destruct (Visit_visited _ _ _ H1) as [ins_l Vl].
    pose proof (visited_counter _ _ _ _ Vl) as Nl.
    pose proof (visited_count _ _ _ _ Vl) as Kl.
    destruct (IHr g1 HUr) as [g2 H2]; [lia|].
    destruct (Visit_visited _ _ _ H2) as [ins_r Vr].
    pose proof (visited_counter _ _ _ _ Vr) as Nr.
    pose proof (visited_count _ _ _ _ Vr) as Kr.
    destruct (visited_top _ _ _ _ Vl HUl) as [fl [ll [_ Tl]]].
    destruct (visited_top _ _ _ _ Vr HUr) as [fr [lr [_ Tr]]].
    assert (Hlt : (m_registerId g2 < INT_MAX)%Z) by lia.
    cbn [Visit]. rewrite H1. cbn [bind]. rewrite H2. cbn [bind].
    unfold pop at 1. rewrite Tr. cbn [bind].
    unfold pop at 1. cbn [m_registers]. rewrite Tl. cbn [bind].
    apply supported_operator_cases in Hop.
    destruct Hop as [ -> | [ -> | [ -> | -> ] ] ]; cbn [Ascii.eqb Bool.eqb];
      rewrite push_emit_defined by exact Hlt; eauto.
Qed.

(** ** [Generate] on a new generator *)

Lemma Generate_Ok (root : ExpressionAST) (code : string)
    (g' : SimpleCodeGenerator) :
  Generate root SimpleCodeGenerator_new = Ok (code, g') ->
  exists front last,
    code = render (front ++ [last]) ++ "%result = " ++ dest last
    /\ m_code g' = code
    /\ m_registers g' = [dest last]
    /\ map dest_id (front ++ [last])%list
       = Zseq 1 (List.length (front ++ [last])%list)
    /\ Forall (fun i => register_prefix (dest_prefix i) = true)
         (front ++ [last])%list
    /\ List.length (front ++ [last])%list = nodes root
    /\ unknown_operators root = 0.
Proof.
  unfold Generate. intros H.
  apply bind_Ok in H as [g1 [H1 H]]. apply bind_Ok in H as [R [HR H]].
  injection H as <- <-.
  destruct (Visit_visited _ _ _ H1) as [ins [C I N B P K D T]].
  cbn [SimpleCodeGenerator_new m_code m_registers m_registerId List.length] in *.
  unfold back in HR.
  destruct (m_registers g1) as [|r0 rs] eqn:Hregs; [discriminate|].
  injection HR as ->. cbn [List.length] in D.
  assert (HU : unknown_operators root = 0) by lia.
  destruct (T HU) as [front [last [-> Htop]]].
  injection Htop as -> ->.
  exists front, last. cbn [m_code m_registers].
  rewrite C. cbn [append]. repeat split; auto. lia.
Qed.

Lemma Generate_defined (root : ExpressionAST) :
  unknown_operators root = 0 ->
  (Z.of_nat (nodes root) < INT_MAX)%Z ->
  exists code g', Generate root SimpleCodeGenerator_new = Ok (code, g').
Proof.
  intros HU Hsize.
  destruct (Visit_defined root SimpleCodeGenerator_new HU) as [g1 H1].
  { cbn [SimpleCodeGenerator_new m_registerId]. lia. }
  destruct (Visit_visited _ _ _ H1) as [ins V].
  destruct (visited_top _ _ _ _ V HU) as [front [last [_ Htop]]].
  unfold Generate, back. rewrite H1. cbn [bind]. rewrite Htop. cbn [bind].
  eauto.
Qed.

Lemma result_register_last (ins : list Instruction) (i : Instruction) :
  result_register (ins ++ [i]) = dest i.
Proof. unfold result_register. rewrite rev_app_distr. reflexivity. Qed.

Lemma post_order_length (node : ExpressionAST) : forall id,
  List.length (post_order node id) = nodes node.
Proof.
  induction node as [name|v|l IHl r IHr op]; intros id; cbn [post_order nodes];
    try reflexivity.
  rewrite !length_app, IHl, IHr. simpl. lia.
Qed.

Lemma Visit_post_order (node : ExpressionAST) :
  forall g,
    unknown_operators node = 0 ->
    (m_registerId g + Z.of_nat (nodes node) <= INT_MAX)%Z ->
    Visit node g
    = Ok (mkGenerator
            (m_code g ++ render (post_order node (m_registerId g)))
            (result_register (post_order node (m_registerId g))
             :: m_registers g)
            (m_registerId g + Z.of_nat (nodes node))).
Proof.
  induction node as [name|v|l IHl r IHr op]; intros g HU Hroom.
  - cbn [Visit post_order nodes] in *. rewrite push_emit_defined by lia.
    unfold render, instruction_line, result_register, dest.
    cbn [rev app dest_prefix dest_id operation].
    rewrite append_nil_r. reflexivity.
  - cbn [Visit post_order nodes] in *. rewrite push_emit_defined by lia.
    unfold render, instruction_line, result_register, dest.
    cbn [rev app dest_prefix dest_id operation].
    rewrite append_nil_r. reflexivity.
  - cbn [unknown_operators nodes] in HU, Hroom.
    destruct (supported_operator op) eqn:Hop; [|lia].
    cbn [Visit]. rewrite IHl by lia. cbn [bind].
    rewrite IHr by (cbn [m_registerId]; lia). cbn [bind].
    unfold pop at 1. cbn [m_registers m_code m_registerId bind].
    unfold pop at 1. cbn [m_registers m_code m_registerId bind].
    cbn [post_order nodes].
    set (cl := post_order l (m_registerId g)).
    set (cr := post_order r (m_registerId g + Z.of_nat (nodes l))).
    rewrite !app_assoc, result_register_last, <- !app_assoc, !render_app.
    apply supported_operator_cases in Hop.
    destruct Hop as [ -> | [ -> | [ -> | -> ] ] ];
      cbn [Ascii.eqb Bool.eqb];
      rewrite push_emit_defined by (cbn [m_registerId]; lia);
      cbn [m_registers m_code m_registerId];
      unfold render, instruction_line, dest, temporary_prefix, mnemonic;
      cbn [Ascii.eqb Bool.eqb dest_prefix dest_id operation];
      rewrite ?append_nil_r;
      repeat (progress (rewrite ?append_assoc; cbn [append]));
      f_equal; f_equal; try reflexivity;
      rewrite ?Nat2Z.inj_succ, ?Nat2Z.inj_add; lia.
Qed.

Lemma Generate_closed_form (root : ExpressionAST) (g : SimpleCodeGenerator) :
  unknown_operators root = 0 ->
  (m_registerId g + Z.of_nat (nodes root) <= INT_MAX)%Z ->
  let ins := post_order root (m_registerId g) in
  let code := m_code g ++ render ins ++ "%result = " ++ result_register ins in
  Generate root g
  = Ok (code,
        mkGenerator code (result_register ins :: m_registers g)
          (m_registerId g + Z.of_nat (nodes root))).
Proof.
  intros HU Hroom. cbv zeta. unfold Generate.
  rewrite Visit_post_order by assumption.
  cbn [bind back m_registers m_code m_registerId].
  rewrite !append_assoc. reflexivity.
Qed.


(** What [Generate] returns on a new generator is the closed form. *)
Lemma Generate_Ok_post_order (root : ExpressionAST) (code : string)
    (g' : SimpleCodeGenerator) :
  Generate root SimpleCodeGenerator_new = Ok (code, g') ->
  unknown_operators root = 0
  /\ (Z.of_nat (nodes root) < INT_MAX)%Z
  /\ code = render (post_order root 1) ++ "%result = "
            ++ result_register (post_order root 1)
  /\ g' = mkGenerator code [result_register (post_order root 1)]
            (1 + Z.of_nat (nodes root)).
Proof.
  intros H. pose proof H as H0. unfold Generate in H0.
  apply bind_Ok in H0 as [g1 [H1 H0]]. apply bind_Ok in H0 as [R [HR _]].
  destruct (Visit_visited _ _ _ H1) as [ins [_ _ N B _ K D _]].
  cbn [SimpleCodeGenerator_new m_registers m_registerId List.length] in *.
  unfold back in HR.
  destruct (m_registers g1) as [|r0 rs]; [discriminate|].
  cbn [List.length] in D.
  assert (HU : unknown_operators root = 0) by lia.
  assert (Hsize : (Z.of_nat (nodes root) < INT_MAX)%Z) by lia.
  pose proof (Generate_closed_form root SimpleCodeGenerator_new HU) as HG.
  cbv zeta in HG.
  cbn [SimpleCodeGenerator_new m_registerId m_code m_registers] in HG.
  rewrite HG in H by lia. injection H as <- <-.
  repeat split; assumption.
Qed.

(** *** The instructions of a tree *)

Lemma post_order_ids (node : ExpressionAST) : forall id,
  map dest_id (post_order node id) = Zseq id (nodes node).
Proof.
  induction node as [name|v|l IHl r IHr op]; intros id;
    cbn [post_order nodes]; try reflexivity.
  rewrite !map_app, IHl, IHr. cbn [map dest_id].
  replace (S (nodes l + nodes r)) with (nodes l + (nodes r + 1)) by lia.
  rewrite !Zseq_app. cbn [Zseq]. reflexivity.
Qed.

Lemma temporary_prefix_register (op : ascii) :
  register_prefix (temporary_prefix op) = true.
Proof.
  unfold temporary_prefix, mnemonic.
  destruct (op =? "+")%char; [reflexivity|].
  destruct (op =? "-")%char; [reflexivity|].
  destruct (op =? "*")%char; reflexivity.
Qed.

Lemma node_prefix_register (node : ExpressionAST) :
  register_prefix (node_prefix node) = true.
Proof.
  destruct node; try reflexivity. apply temporary_prefix_register.
Qed.

Lemma post_order_prefixes (node : ExpressionAST) : forall id,
  Forall (fun i => register_prefix (dest_prefix i) = true)
    (post_order node id).
Proof.
  induction node as [name|v|l IHl r IHr op]; intros id; cbn [post_order].
  - repeat constructor.
  - repeat constructor.
  - apply Forall_app. split; [apply IHl|].
    apply Forall_app. split; [apply IHr|].
    constructor; [apply temporary_prefix_register|constructor].
Qed.

(** The register of a tree's value: the prefix of its root and the
    number of its last instruction. *)
Lemma result_register_post_order (node : ExpressionAST) (id : Z) :
  result_register (post_order node id)
  = node_prefix node ++ to_string (id + Z.of_nat (nodes node) - 1).
Proof.
  destruct node as [name|v|l r op]; cbn [post_order nodes node_prefix].
  - unfold result_register, dest. cbn [rev app dest_prefix dest_id].
    f_equal. f_equal. lia.
  - unfold result_register, dest. cbn [rev app dest_prefix dest_id].
    f_equal. f_equal. lia.
  - rewrite !app_assoc, result_register_last. unfold dest.
    cbn [dest_prefix dest_id]. f_equal. f_equal. lia.
Qed.

(** *** Lines and words *)

Lemma all_chars_app (P : ascii -> bool) (a b : string) :
  all_chars P (a ++ b) = all_chars P a && all_chars P b.
Proof.
  induction a as [|ch a IH]; [reflexivity|].
  cbn [append all_chars]. rewrite IH, andb_assoc. reflexivity.
Qed.

Lemma one_line_app (a b : string) :
  one_line (a ++ b) = one_line a && one_line b.
Proof. apply all_chars_app. Qed.

Lemma one_word_one_line (s : string) : one_word s = true -> one_line s = true.
Proof.
  unfold one_word, one_line.
  induction s as [|ch s IH]; [reflexivity|]. cbn [all_chars]. intros H.
  apply andb_prop in H as [H Hs]. apply andb_prop in H as [H _].
  rewrite H, (IH Hs). reflexivity.
Qed.

Lemma lines_one_line (a : string) :
  one_line a = true -> lines a = [a].
Proof.
  unfold one_line. induction a as [|ch a IH]; [reflexivity|].
  cbn [all_chars lines]. intros H. apply andb_prop in H as [H Ha].
  apply negb_true_iff in H. rewrite H, (IH Ha). reflexivity.
Qed.

Lemma lines_cons (a b : string) :
  one_line a = true -> lines (a ++ newline ++ b) = a :: lines b.
Proof.
  unfold one_line. induction a as [|ch a IH]; [reflexivity|].
  cbn [all_chars]. intros H. apply andb_prop in H as [H Ha].
  apply negb_true_iff in H.
  change (String ch a ++ newline ++ b) with (String ch (a ++ newline ++ b)).
  cbn [lines]. rewrite H, (IH Ha). reflexivity.
Qed.

Lemma destination_word (a b : string) :
  one_word a = true -> destination (a ++ String " " b) = a.
Proof.
  unfold one_word. induction a as [|ch a IH]; [reflexivity|].
  cbn [all_chars append destination]. intros H.
  apply andb_prop in H as [H Ha]. apply andb_prop in H as [_ H].
  apply negb_true_iff in H. rewrite H, (IH Ha). reflexivity.
Qed.

Lemma uint_one_word (d : Decimal.uint) :
  one_word (NilEmpty.string_of_uint d) = true.
Proof. induction d; cbn; try reflexivity; exact IHd. Qed.

Lemma to_string_one_word (n : Z) : one_word (to_string n) = true.
Proof.
  unfold to_string, NilZero.string_of_int, NilZero.string_of_uint.
  destruct (Z.to_int n) as [d|d]; destruct d; try reflexivity;
    try (apply (uint_one_word (Decimal.D0 d)));
    try (apply (uint_one_word (Decimal.D1 d)));
    try (apply (uint_one_word (Decimal.D2 d)));
    try (apply (uint_one_word (Decimal.D3 d)));
    try (apply (uint_one_word (Decimal.D4 d)));
    try (apply (uint_one_word (Decimal.D5 d)));
    try (apply (uint_one_word (Decimal.D6 d)));
    try (apply (uint_one_word (Decimal.D7 d)));
    try (apply (uint_one_word (Decimal.D8 d)));
    try (apply (uint_one_word (Decimal.D9 d)));
    cbn; apply uint_one_word.
Qed.

Lemma register_prefix_cases (p : string) :
  register_prefix p = true ->
  p = "%x" \/ p = "%addtmp" \/ p = "%subtmp" \/ p = "%multmp"
  \/ p = "%divtmp".
Proof.
  unfold register_prefix. intros H.
  repeat (apply orb_prop in H as [H|H]);
    apply String.eqb_eq in H; tauto.
Qed.

Lemma register_one_word (p : string) (id : Z) :
  register_prefix p = true -> one_word (p ++ to_string id) = true.
Proof.
  intros H. unfold one_word. rewrite all_chars_app.
  fold (one_word (to_string id)). rewrite to_string_one_word.
  apply register_prefix_cases in H.
  destruct H as [ -> | [ -> | [ -> | [ -> | -> ] ] ] ]; reflexivity.
Qed.

Lemma register_not_result (p : string) (id : Z) :
  register_prefix p = true -> p ++ to_string id <> "%result".
Proof.
  intros H E. apply register_prefix_cases in H.
  destruct H as [ -> | [ -> | [ -> | [ -> | -> ] ] ] ];
    cbn [append] in E; discriminate.
Qed.

Lemma destination_instruction_text (i : Instruction) :
  register_prefix (dest_prefix i) = true ->
  destination (instruction_text i) = dest i.
Proof.
  intros H. unfold instruction_text.
  change (" = " ++ operation i) with (String " " ("= " ++ operation i)).
  apply destination_word. apply register_one_word. exact H.
Qed.

Lemma mnemonic_one_line (op : ascii) : one_line (mnemonic op) = true.
Proof.
  unfold mnemonic.
  destruct (op =? "+")%char; [reflexivity|].
  destruct (op =? "-")%char; [reflexivity|].
  destruct (op =? "*")%char; reflexivity.
Qed.

Lemma result_register_one_line (node : ExpressionAST) (id : Z) :
  one_line (result_register (post_order node id)) = true.
Proof.
  rewrite result_register_post_order.
  apply one_word_one_line, register_one_word, node_prefix_register.
Qed.

Lemma post_order_one_line (node : ExpressionAST) :
  one_line_names node = true ->
  forall id,
    Forall (fun i => one_line (instruction_text i) = true)
      (post_order node id).
Proof.
  assert (HT : forall p id rhs,
             register_prefix p = true -> one_line rhs = true ->
             one_line (instruction_text (mkInstruction p id rhs)) = true).
  { intros p id rhs Hp Hr. unfold instruction_text, dest.
    cbn [dest_prefix dest_id operation].
    rewrite (one_line_app (p ++ to_string id)),
      (one_word_one_line _ (register_one_word p id Hp)), one_line_app, Hr.
    reflexivity. }
  induction node as [name|v|l IHl r IHr op]; intros Hn id;
    cbn [post_order one_line_names] in *.
  - constructor; [|constructor]. apply HT; [reflexivity|].
    rewrite one_line_app, Hn. reflexivity.
  - constructor; [|constructor]. apply HT; [reflexivity|].
    unfold to_string_double.
    rewrite one_line_app, (one_word_one_line _ (to_string_one_word v)).
    reflexivity.
  - apply andb_prop in Hn as [Hl Hr].
    apply Forall_app. split; [apply IHl, Hl|].
    apply Forall_app. split; [apply IHr, Hr|].
    constructor; [|constructor].
    apply HT; [apply temporary_prefix_register|].
    rewrite !one_line_app, mnemonic_one_line, !result_register_one_line.
    reflexivity.
Qed.

Lemma lines_render (ins : list Instruction) (tail : string) :
  Forall (fun i => one_line (instruction_text i) = true) ins ->
  lines (render ins ++ tail) = (map instruction_text ins ++ lines tail)%list.
Proof.
  induction 1 as [|i ins Hi _ IH]; [reflexivity|].
  cbn [render map app]. rewrite <- IH, <- (lines_cons _ _ Hi).
  f_equal. unfold instruction_line, instruction_text.
  rewrite !append_assoc. reflexivity.
Qed.

Lemma map_destination (ins : list Instruction) :
  Forall (fun i => register_prefix (dest_prefix i) = true) ins ->
  map destination (map instruction_text ins) = map dest ins.
Proof.
  induction 1 as [|i ins Hi _ IH]; [reflexivity|].
  cbn [map]. rewrite IH, (destination_instruction_text i Hi). reflexivity.
Qed.

(** The text of a tree whose names hold no line end, line by line: one
    line for every instruction, then the [%result] line. *)
Lemma lines_of_code (root : ExpressionAST) :
  one_line_names root = true ->
  lines (render (post_order root 1) ++ "%result = "
         ++ result_register (post_order root 1))
  = (map instruction_text (post_order root 1)
     ++ [("%result = " ++ result_register (post_order root 1))%string])%list.
Proof.
  intros Hn. rewrite lines_render by (apply post_order_one_line, Hn).
  f_equal. apply lines_one_line.
  rewrite one_line_app, result_register_one_line. reflexivity.
Qed.

Lemma post_order_NoDup (root : ExpressionAST) (id : Z) :
  NoDup (map dest (post_order root id)).
Proof.
  apply (dests_NoDup _ id); [apply post_order_prefixes|].
  rewrite post_order_ids, post_order_length. reflexivity.
Qed.

Lemma destinations_NoDup (ins : list Instruction) :
  Forall (fun i => register_prefix (dest_prefix i) = true) ins ->
  NoDup (map dest ins) -> NoDup (map dest ins ++ ["%result"]).
Proof.
  intros HP HN. apply NoDup_app; [exact HN|repeat constructor; auto|].
  intros x Hx [E|[]]. subst x. apply in_map_iff in Hx as [i [E Hi]].
  rewrite Forall_forall in HP.
  exact (register_not_result _ _ (HP i Hi) E).
Qed.

Lemma post_order_last (node : ExpressionAST) (id : Z) :
  exists front last,
    post_order node id = (front ++ [last])%list
    /\ dest_prefix last = node_prefix node
    /\ dest_id last = (id + Z.of_nat (nodes node) - 1)%Z.
Proof.
  destruct node as [name|v|l r op]; cbn [post_order nodes node_prefix].
  - exists [], (mkInstruction "%x" id ("%" ++ name)).
    cbn [app dest_prefix dest_id]. repeat split. lia.
  - exists [], (mkInstruction "%x" id (to_string_double v)).
    cbn [app dest_prefix dest_id]. repeat split. lia.
  - eexists (post_order l id ++ post_order r (id + Z.of_nat (nodes l)))%list,
      _.
    rewrite <- app_assoc. split; [reflexivity|].
    cbn [dest_prefix dest_id]. split; [reflexivity|]. lia.
Qed.

(** C6 as stated fails: the text returned for the AST of ["1"] ends with
    the character ['1'] of [%result = %x1], not with a line end. *)
Lemma C6_counterexample :
  exists g',
    Generate (NumberAST 1) SimpleCodeGenerator_new
    = Ok (ir ["%x1 = 1.000000"; "%result = %x1"], g')
    /\ last_char (ir ["%x1 = 1.000000"; "%result = %x1"]) = Some "1"%char
    /\ last_char (ir ["%x1 = 1.000000"; "%result = %x1"])
       <> last_char newline.
Proof.
  eexists. split; [reflexivity|]. split; [reflexivity|].
  vm_compute. discriminate.
Qed.

(** ** Progress of the lexer *)

Lemma read_while_prefix (P : ascii -> bool) (fuel : nat) : forall chars L,
  exists more, fst (read_while P fuel chars L) = chars ++ more.
Proof.
  induction fuel as [|fuel IH]; intros chars L; cbn [read_while];
    (destruct (get (m_pos L) (m_text L)) as [ch|]; [destruct (P ch)|]);
    try (exists ""; cbn [fst]; rewrite append_nil_r; reflexivity).
  destruct (IH (chars ++ String ch "") (advance L)) as [more H].
  exists (String ch more). rewrite H, append_assoc. reflexivity.
Qed.

Lemma chars_left_S (L : Lexer) (ch : ascii) :
  get (m_pos L) (m_text L) = Some ch ->
  chars_left L = S (chars_left (advance L)).
Proof.
  intros Hg. apply get_Some_lt in Hg. unfold chars_left, advance. simpl. lia.
Qed.

Lemma chars_left_lt (L L' : Lexer) (ch : ascii) :
  get (m_pos L) (m_text L) = Some ch ->
  m_text L' = m_text L -> m_pos L < m_pos L' ->
  chars_left L' < chars_left L.
Proof.
  intros Hg Ht Hp. apply get_Some_lt in Hg. unfold chars_left.
  rewrite Ht. lia.
Qed.

(** The loop entered on a character of its class: the character is
    collected and the position moves on. *)
Lemma read_while_enters (P : ascii -> bool) (L : Lexer) (ch : ascii)
    (chars chars' : string) (L' : Lexer) :
  get (m_pos L) (m_text L) = Some ch -> P ch = true ->
  read_while P (chars_left L) chars L = (chars', L') ->
  (exists more, chars' = chars ++ String ch more)
  /\ m_text L' = m_text L /\ m_pos L < m_pos L'.
Proof.
  intros Hg HP. rewrite (chars_left_S L ch Hg). cbn [read_while].
  rewrite Hg, HP. intros E.
  pose proof (read_while_prefix P (chars_left (advance L))
                (chars ++ String ch "") (advance L)) as [more Hmore].
  pose proof (read_while_text P (chars_left (advance L))
                (chars ++ String ch "") (advance L)) as Htxt.
  pose proof (read_while_pos P (chars_left (advance L))
                (chars ++ String ch "") (advance L)) as Hpos.
  rewrite E in Hmore, Htxt, Hpos. cbn [fst snd advance m_text m_pos] in *.
  split; [|split; [exact Htxt|lia]].
  exists more. rewrite Hmore, append_assoc. reflexivity.
Qed.

Lemma ReadAsNumberConstant_progress (L L' : Lexer) (ch : ascii) (tok : Token) :
  get (m_pos L) (m_text L) = Some ch -> isdigit ch = true ->
  ReadAsNumberConstant L = (tok, L') ->
  has_value tok = true /\ type tok = Number
  /\ m_text L' = m_text L /\ chars_left L' < chars_left L.
Proof.
  intros Hg Hd. unfold ReadAsNumberConstant.
  destruct (read_while isdigit (chars_left L) "" L) as [chars L1] eqn:E1.
  destruct (read_while_enters isdigit L ch "" chars L1 Hg Hd E1)
    as [[more ->] [Htxt Hadv]].
  cbn [append].
  destruct (get (m_pos L1) (m_text L1)) as [c|];
    [destruct (c =? ".")%char|].
  - pose proof (read_while_text isdigit (chars_left L1)
                  (String ch (more ++ ".")) (advance L1)) as Htxt2.
    pose proof (read_while_pos isdigit (chars_left L1)
                  (String ch (more ++ ".")) (advance L1)) as Hpos2.
    pose proof (read_while_prefix isdigit (chars_left L1)
                  (String ch (more ++ ".")) (advance L1)) as [more2 Hmore2].
    destruct (read_while isdigit (chars_left L1) (String ch (more ++ "."))
                (advance L1)) as [chars2 L2].
    cbn [fst snd advance m_text m_pos] in *. intros [= <- <-]. subst chars2.
    repeat split.
    + exact Hd.
    + congruence.
    + apply (chars_left_lt L L2 ch Hg); [congruence|lia].
  - intros [= <- <-]. repeat split; auto.
    apply (chars_left_lt L L1 ch Hg); auto.
  - intros [= <- <-]. repeat split; auto.
    apply (chars_left_lt L L1 ch Hg); auto.
Qed.

Lemma ReadAsIdentifier_progress (L L' : Lexer) (ch : ascii) (tok : Token) :
  get (m_pos L) (m_text L) = Some ch -> isalpha ch = true ->
  ReadAsIdentifier L = (tok, L') ->
  has_value tok = true /\ type tok = Identifier
  /\ m_text L' = m_text L /\ chars_left L' < chars_left L.
Proof.
  intros Hg Ha. unfold ReadAsIdentifier.
  change (fun ch : ascii => isalnum ch || (ch =? "_")%char) with identifier_char.
  destruct (isalpha_class ch Ha) as [_ [_ Hid]].
  destruct (read_while identifier_char (chars_left L) "" L) as [chars L1] eqn:E1.
  destruct (read_while_enters identifier_char L ch "" chars L1 Hg Hid E1)
    as [_ [Htxt Hadv]].
  intros [= <- <-]. repeat split; auto.
  apply (chars_left_lt L L1 ch Hg); auto.
Qed.

Lemma GetNextToken_operator_char (L : Lexer) (ch : ascii) :
  get (m_pos L) (m_text L) = Some ch -> is_operator_char ch = true ->
  exists ty,
    GetNextToken L = Ok (mkToken ty None, advance L)
    /\ TokenType_eqb ty EndOfFile = false
    /\ has_value (mkToken ty None) = true.
Proof.
  intros Hg Hop. unfold is_operator_char in Hop.
  unfold GetNextToken.
  repeat (apply orb_prop in Hop; destruct Hop as [Hop|Hop]);
    apply Ascii.eqb_eq in Hop; subst ch;
    destruct (chars_left L); cbn [GetNextToken_loop]; rewrite Hg;
    cbn; eexists; repeat split; reflexivity.
Qed.

Lemma GetNextToken_scanned : forall n L,
  chars_left L = n -> scanned L (GetNextToken L).
Proof.
  induction n as [|n IH]; intros L Hn.
  - rewrite GetNextToken_end.
    + simpl. auto.
    + apply get_ge_None. unfold chars_left in Hn. lia.
  - destruct (get (m_pos L) (m_text L)) as [ch|] eqn:Hg.
    2:{ apply get_None_ge in Hg. unfold chars_left in Hn. lia. }
    pose proof (chars_left_S L ch Hg) as HS.
    destruct (isspace ch) eqn:Hs.
    { rewrite (GetNextToken_space L ch Hg Hs).
      pose proof (IH (advance L) ltac:(lia)) as H.
      unfold scanned in *. cbn [advance m_text] in H.
      destruct (GetNextToken (advance L)) as [[tok L']| | |]; auto.
      destruct H as [Hv [Ht H]]. split; [exact Hv|]. split; [exact Ht|].
      destruct (TokenType_eqb (type tok) EndOfFile); lia. }
    destruct (isdigit ch) eqn:Hd.
    { rewrite (GetNextToken_digit L ch Hg Hd).
      destruct (ReadAsNumberConstant L) as [tok L'] eqn:E.
      destruct (ReadAsNumberConstant_progress L L' ch tok Hg Hd E)
        as [Hv [Ht [Htxt Hc]]].
      simpl. rewrite Ht. simpl. auto. }
    destruct (isalpha ch) eqn:Ha.
    { rewrite (GetNextToken_alpha L ch Hg Ha).
      destruct (ReadAsIdentifier L) as [tok L'] eqn:E.
      destruct (ReadAsIdentifier_progress L L' ch tok Hg Ha E)
        as [Hv [Ht [Htxt Hc]]].
      simpl. rewrite Ht. simpl. auto. }
    destruct (is_operator_char ch) eqn:Hop.
    { destruct (GetNextToken_operator_char L ch Hg Hop) as [ty [-> [Hty Hv]]].
      cbn [scanned type]. rewrite Hty.
      split; [exact Hv|split; [reflexivity|lia]]. }
    assert (Hu : unknown_char ch = true)
      by (unfold unknown_char; rewrite Hs, Hd, Ha, Hop; reflexivity).
    rewrite (GetNextToken_unknown L ch Hg Hu). cbn [scanned].
    exists (m_pos L), ch. auto.
Qed.

(** ** Progress of the parser *)

Lemma is_type_eq (ty : TokenType) (p : Parser) :
  is_type ty p = true -> type (m_token p) = ty.
Proof. unfold is_type. destruct (type (m_token p)), ty; simpl; congruence. Qed.

Lemma tokens_left_not_EndOfFile (p : Parser) :
  is_type EndOfFile p = false ->
  tokens_left p = chars_left (m_lexer p) + 1.
Proof. unfold tokens_left. intros ->. reflexivity. Qed.

Lemma Eat_eaten (ty : TokenType) (p : Parser) :
  TokenType_eqb ty EndOfFile = false -> eaten p (Eat ty p).
Proof.
  intros Hty. unfold Eat. destruct (is_type ty p) eqn:E; cbn [negb].
  2:{ right. left. reflexivity. }
  assert (HE : is_type EndOfFile p = false).
  { apply is_type_eq in E. unfold is_type. rewrite E.
    destruct ty; simpl in *; congruence. }
  pose proof (GetNextToken_scanned _ (m_lexer p) eq_refl) as H.
  destruct (GetNextToken (m_lexer p)) as [[tok L']|e| |]; cbn [bind eaten];
    simpl in H; auto.
  - destruct H as [Hv [Ht H]]. split; [exact Hv|]. split; [exact Ht|].
    rewrite (tokens_left_not_EndOfFile p HE).
    unfold tokens_left, is_type. cbn [m_lexer m_token].
    destruct (TokenType_eqb (type tok) EndOfFile); lia.
  - left. exact H.
Qed.

(** On a text that begins with a digit [std::stoi] returns a number or
    throws [std::out_of_range]. *)
Lemma stoi_outcome (s : string) :
  starts_with_digit s = true ->
  (exists v, stoi s = Ok v) \/ stoi s = Throw (out_of_range "stoi").
Proof.
  destruct s as [|d s]; [discriminate|]. cbn [starts_with_digit]. intros Hd.
  destruct (isdigit_class d Hd) as [Hs [Hm [Hp _]]].
  unfold stoi. cbn [skip_spaces]. rewrite Hs, Hm, Hp.
  cbn [read_digits]. rewrite Hd.
  pose proof (fun acc n => read_digits_count s acc n) as Hn.
  destruct (read_digits s (10 * 0 + digit_value d) 1) as [v k] eqn:E.
  specialize (Hn (10 * 0 + digit_value d)%Z 1). rewrite E in Hn.
  cbn [snd] in Hn. destruct k as [|k]; [lia|].
  destruct ((INT_MIN <=? v)%Z && (v <=? INT_MAX)%Z); eauto.
Qed.

Lemma nodes_positive (node : ExpressionAST) : 1 <= nodes node.
Proof. destruct node; simpl; lia. Qed.

Lemma has_value_Number (p : Parser) :
  has_value (m_token p) = true -> is_type Number p = true ->
  exists s, value (m_token p) = Some s /\ starts_with_digit s = true.
Proof.
  intros Hv Ht. apply is_type_eq in Ht. unfold has_value in Hv.
  rewrite Ht in Hv. destruct (value (m_token p)) as [s|]; [eauto|discriminate].
Qed.

Lemma has_value_Identifier (p : Parser) :
  has_value (m_token p) = true -> is_type Identifier p = true ->
  exists s, value (m_token p) = Some s.
Proof.
  intros Hv Ht. apply is_type_eq in Ht. unfold has_value in Hv.
  rewrite Ht in Hv. destruct (value (m_token p)) as [s|]; [eauto|discriminate].
Qed.

Lemma thrown_text (text text' : string) (e : exception) :
  text' = text -> thrown text' e -> thrown text e.
Proof. intros ->. auto. Qed.

Section ParserProgress.
Variable n : nat.

Section Atom.
Variable rec : parse_fn.
Hypothesis rec_parsed : forall p,
  has_value (m_token p) = true -> tokens_left p < n ->
  parsed (fun _ => True) p (rec p).

Lemma ParseAtom_parsed (p : Parser) :
  has_value (m_token p) = true -> tokens_left p <= n ->
  parsed (fun _ => True) p (ParseAtom rec p).
Proof.
  intros Hv Hn. unfold ParseAtom.
  destruct (is_type Number p) eqn:EN.
  { destruct (has_value_Number p Hv EN) as [s [Hs Hd]].
    rewrite Hs. cbn [deref bind].
    pose proof (Eat_eaten Number p eq_refl) as HE.
    destruct (Eat Number p) as [p1|e| |]; cbn [bind eaten] in *; auto.
    destruct HE as [Hv1 [Ht1 Hlt]].
    destruct (stoi_outcome s Hd) as [[v ->]| ->]; cbn [bind parsed].
    - repeat split; auto; simpl; lia.
    - right. right. right. reflexivity. }
  destruct (is_type Identifier p) eqn:EI.
  { destruct (has_value_Identifier p Hv EI) as [s Hs].
    rewrite Hs. cbn [deref bind].
    pose proof (Eat_eaten Identifier p eq_refl) as HE.
    destruct (Eat Identifier p) as [p1|e| |]; cbn [bind eaten parsed] in *;
      auto.
    destruct HE as [Hv1 [Ht1 Hlt]]. repeat split; auto; simpl; lia. }
  destruct (is_type LeftParen p) eqn:EL.
  2:{ right. right. left. reflexivity. }
  pose proof (Eat_eaten LeftParen p eq_refl) as HE.
  destruct (Eat LeftParen p) as [p1|e| |]; cbn [bind eaten] in *; auto.
  destruct HE as [Hv1 [Ht1 Hlt1]].
  pose proof (rec_parsed p1 Hv1 ltac:(lia)) as HR.
  destruct (rec p1) as [[node p2]|e| |]; cbn [bind parsed] in *; auto.
  2:{ apply (thrown_text _ _ _ Ht1 HR). }
  destruct HR as [Hv2 [Ht2 [Hle2 [HU _]]]].
  pose proof (Eat_eaten RightParen p2 eq_refl) as HE.
  destruct (Eat RightParen p2) as [p3|e| |]; cbn [bind eaten parsed] in *;
    auto.
  2:{ apply (thrown_text _ _ e (eq_trans Ht2 Ht1) HE). }
  destruct HE as [Hv3 [Ht3 Hlt3]]. repeat split; auto; try congruence; lia.
Qed.
End Atom.

(** The loops of [ParseMulDiv] and [ParseAddSub] have one shape: [ty1]
    and [ty2] are the operator tokens, [operand] parses what stands
    behind one. *)
Section Loop.
Variable operand : parse_fn.
Variable Q : Parser -> Prop.
Hypothesis operand_parsed : forall p,
  has_value (m_token p) = true -> tokens_left p <= n ->
  parsed Q p (operand p).

Lemma loop_step (ty : TokenType) (node : ExpressionAST) (op : ascii)
    (p : Parser) (loop : ExpressionAST -> parse_fn) (Q' : Parser -> Prop) :
  TokenType_eqb ty EndOfFile = false -> supported_operator op = true ->
  unknown_operators node = 0 -> tokens_left p <= n ->
  (forall rhs p2,
      has_value (m_token p2) = true -> Q p2 ->
      tokens_left p2 + 2 <= tokens_left p ->
      unknown_operators (BinaryExpressionAST node rhs op) = 0 ->
      extended Q' (BinaryExpressionAST node rhs op) p2
        (loop (BinaryExpressionAST node rhs op) p2)) ->
  extended Q' node p
    (q <- Eat ty p ;; '(rhs, p2) <- operand q ;;
     loop (BinaryExpressionAST node rhs op) p2).
Proof.
  intros Hty Hop HU Hn Hloop.
  pose proof (Eat_eaten ty p Hty) as HE.
  destruct (Eat ty p) as [p1|e| |]; cbn [bind eaten extended] in *; auto.
  destruct HE as [Hv1 [Ht1 Hlt1]].
  pose proof (operand_parsed p1 Hv1 ltac:(lia)) as HA.
  destruct (operand p1) as [[rhs p2]|e| |]; cbn [bind parsed extended] in *;
    auto.
  2:{ apply (thrown_text _ _ _ Ht1 HA). }
  destruct HA as [Hv2 [Ht2 [Hle2 [HU2 HQ2]]]].
  pose proof (nodes_positive rhs) as Hpos.
  assert (HU' : unknown_operators (BinaryExpressionAST node rhs op) = 0).
  { cbn [unknown_operators]. rewrite Hop. lia. }
  pose proof (Hloop rhs p2 Hv2 HQ2 ltac:(lia) HU') as HL.
  destruct (loop (BinaryExpressionAST node rhs op) p2) as [[node2 p3]|e| |];
    cbn [extended] in *; auto.
  2:{ apply (thrown_text _ _ e (eq_trans Ht2 Ht1) HL). }
  destruct HL as [Hv3 [Ht3 [Hle3 [HU3 HQ3]]]]. cbn [nodes] in Hle3.
  repeat split; auto; try congruence; lia.
Qed.
End Loop.

Section MulDiv.
Variable atom : parse_fn.
Hypothesis atom_parsed : forall p,
  has_value (m_token p) = true -> tokens_left p <= n ->
  parsed (fun _ => True) p (atom p).

Lemma ParseMulDiv_loop_extended (fuel : nat) :
  forall node p,
    has_value (m_token p) = true -> unknown_operators node = 0 ->
    tokens_left p <= fuel -> tokens_left p <= n ->
    extended no_MulDiv node p (ParseMulDiv_loop atom fuel node p).
Proof.
  induction fuel as [|fuel IH]; intros node p Hv HU Hf Hn;
    cbn [ParseMulDiv_loop];
    destruct (is_type Mul p || is_type Div p) eqn:Eop;
    try (cbn [extended]; repeat split; auto; fail).
  - exfalso. unfold tokens_left in Hf.
    assert (is_type EndOfFile p = false).
    { apply orb_prop in Eop as [E|E]; apply is_type_eq in E;
        unfold is_type; rewrite E; reflexivity. }
    rewrite H in Hf. lia.
  - assert (HE : exists ty, TokenType_eqb ty EndOfFile = false
                 /\ (if is_type Mul p then Eat Mul p
                     else if is_type Div p then Eat Div p else Ok p)
                    = Eat ty p).
    { destruct (is_type Mul p); [exists Mul; auto|].
      destruct (is_type Div p); [exists Div; auto|discriminate]. }
    destruct HE as [ty [Hty ->]].
    apply (loop_step atom (fun _ => True) atom_parsed ty node _ p
             (fun node' => ParseMulDiv_loop atom fuel node') no_MulDiv);
      auto.
    + destruct (TokenType_eqb (type (m_token p)) Mul); reflexivity.
    + intros rhs p2 Hv2 _ Hle2 HU2. apply IH; auto; lia.
Qed.

Lemma ParseMulDiv_parsed (fuel : nat) (p : Parser) :
  has_value (m_token p) = true ->
  tokens_left p <= S fuel -> tokens_left p <= n ->
  parsed no_MulDiv p (ParseMulDiv atom fuel p).
Proof.
  intros Hv Hf Hn. unfold ParseMulDiv.
  pose proof (atom_parsed p Hv Hn) as HA.
  destruct (atom p) as [[node p1]|e| |]; cbn [bind parsed] in *; auto.
  destruct HA as [Hv1 [Ht1 [Hle1 [HU1 _]]]].
  pose proof (nodes_positive node) as Hpos.
  pose proof (ParseMulDiv_loop_extended fuel node p1 Hv1 HU1
                ltac:(lia) ltac:(lia)) as HL.
  destruct (ParseMulDiv_loop atom fuel node p1) as [[node2 p2]|e| |];
    cbn [extended] in *; auto.
  2:{ apply (thrown_text _ _ _ Ht1 HL). }
  destruct HL as [Hv2 [Ht2 [Hle2 [HU2 HQ]]]].
  repeat split; auto; try congruence; lia.
Qed.
End MulDiv.

Section AddSub.
Variable muldiv : parse_fn.
Hypothesis muldiv_parsed : forall p,
  has_value (m_token p) = true -> tokens_left p <= n ->
  parsed no_MulDiv p (muldiv p).

Lemma no_MulDiv_no_operator (p : Parser) :
  no_MulDiv p -> is_type Plus p || is_type Minus p = false ->
  no_operator p.
Proof.
  unfold no_operator, no_MulDiv, is_type.
  destruct (type (m_token p)); simpl; congruence.
Qed.

Lemma ParseAddSub_loop_extended (fuel : nat) :
  forall node p,
    has_value (m_token p) = true -> unknown_operators node = 0 ->
    tokens_left p <= fuel -> tokens_left p <= n ->
    no_MulDiv p ->
    extended no_operator node p (ParseAddSub_loop muldiv fuel node p).
Proof.
  induction fuel as [|fuel IH]; intros node p Hv HU Hf Hn HMD;
    cbn [ParseAddSub_loop];
    destruct (is_type Plus p || is_type Minus p) eqn:Eop;
    try (cbn [extended]; repeat split; auto;
         apply no_MulDiv_no_operator; auto; fail).
  - exfalso. unfold tokens_left in Hf.
    assert (is_type EndOfFile p = false).
    { apply orb_prop in Eop as [E|E]; apply is_type_eq in E;
        unfold is_type; rewrite E; reflexivity. }
    rewrite H in Hf. lia.
  - assert (HE : exists ty, TokenType_eqb ty EndOfFile = false
                 /\ (if is_type Plus p then Eat Plus p
                     else if is_type Minus p then Eat Minus p else Ok p)
                    = Eat ty p).
    { destruct (is_type Plus p); [exists Plus; auto|].
      destruct (is_type Minus p); [exists Minus; auto|discriminate]. }
    destruct HE as [ty [Hty ->]].
    apply (loop_step muldiv no_MulDiv muldiv_parsed ty node _ p
             (fun node' => ParseAddSub_loop muldiv fuel node') no_operator);
      auto.
    + destruct (TokenType_eqb (type (m_token p)) Plus); reflexivity.
    + intros rhs p2 Hv2 HMD2 Hle2 HU2. apply IH; auto; lia.
Qed.
End AddSub.
End ParserProgress.

Lemma parsed_weaken (Q : Parser -> Prop) (p : Parser)
    (r : result (ExpressionAST * Parser)) :
  parsed Q p r -> parsed (fun _ => True) p r.
Proof. destruct r as [[node p']|e| |]; simpl; tauto. Qed.

(** With more fuel than tokens left, [ParseAddSub_rec] returns a tree or
    throws; the lookahead it leaves is no binary operator. *)
Theorem ParseAddSub_rec_parsed (fuel : nat) :
  forall p,
    has_value (m_token p) = true -> tokens_left p < fuel ->
    parsed no_operator p (ParseAddSub_rec fuel p).
Proof.
  induction fuel as [|fuel IH]; intros p Hv Hf; [lia|].
  cbn [ParseAddSub_rec].
  assert (Hatom : forall q, has_value (m_token q) = true ->
                            tokens_left q <= fuel ->
                            parsed (fun _ => True) q
                              (ParseAtom (ParseAddSub_rec fuel) q)).
  { apply ParseAtom_parsed. intros q Hq Hlt.
    apply (parsed_weaken no_operator). apply IH; auto. }
  assert (Hmd : forall q, has_value (m_token q) = true ->
                          tokens_left q <= fuel ->
                          parsed no_MulDiv q
                            (ParseMulDiv (ParseAtom (ParseAddSub_rec fuel))
                               fuel q)).
  { intros q Hq Hlt. apply (ParseMulDiv_parsed fuel); auto. }
  pose proof (Hmd p Hv ltac:(lia)) as HM.
  destruct (ParseMulDiv (ParseAtom (ParseAddSub_rec fuel)) fuel p)
    as [[node p1]|e| |]; cbn [bind parsed] in *; auto.
  destruct HM as [Hv1 [Ht1 [Hle1 [HU1 HMD1]]]].
  pose proof (nodes_positive node) as Hpos.
  pose proof (ParseAddSub_loop_extended fuel _ Hmd fuel node p1 Hv1 HU1
                ltac:(lia) ltac:(lia) HMD1) as HL.
  destruct (ParseAddSub_loop
              (ParseMulDiv (ParseAtom (ParseAddSub_rec fuel)) fuel)
              fuel node p1) as [[node2 p2]|e| |]; cbn [extended] in *; auto.
  2:{ apply (thrown_text _ _ _ Ht1 HL). }
  destruct HL as [Hv2 [Ht2 [Hle2 [HU2 HQ]]]].
  repeat split; auto; try congruence; lia.
Qed.

Corollary ParseAddSub_parsed (p : Parser) :
  has_value (m_token p) = true -> parsed no_operator p (ParseAddSub p).
Proof. intros Hv. apply ParseAddSub_rec_parsed; auto. Qed.

(** ** Text behind a line *)

Lemma get_append_l (s t : string) : forall n,
  n < length s -> get n (s ++ t) = get n s.
Proof.
  induction s as [|c s IH]; intros [|n] H; simpl in *; try lia; auto.
  apply IH. lia.
Qed.

Lemma get_append_end (s : string) (c : ascii) (t : string) :
  get (length s) (s ++ String c t) = Some c.
Proof. rewrite get_at_prefix. reflexivity. Qed.

Section Extend.
Variables (line1 t : string) (c : ascii).
Let line2 : string := line1 ++ String c t.

(** The scanning loop reads the same characters on both lines when the
    first character behind [line1] ends the run. *)
Lemma read_while_extend (P : ascii -> bool) :
  P c = false ->
  forall f1 f2 chars pos,
    pos <= length line1 ->
    chars_left (mkLexer line1 pos) <= f1 ->
    chars_left (mkLexer line2 pos) <= f2 ->
    exists chars' pos',
      read_while P f1 chars (mkLexer line1 pos) = (chars', mkLexer line1 pos')
      /\ read_while P f2 chars (mkLexer line2 pos) = (chars', mkLexer line2 pos')
      /\ pos <= pos' /\ pos' <= length line1.
Proof.
  intros HP. induction f1 as [|f1 IH]; intros f2 chars pos Hpos H1 H2.
  - unfold chars_left in H1. cbn [m_text m_pos] in H1.
    assert (pos = length line1) by lia. subst pos.
    exists chars, (length line1).
    cbn [read_while m_pos m_text]. rewrite (get_ge_None line1) by lia.
    destruct f2; cbn [read_while m_pos m_text]; unfold line2;
      rewrite get_append_end, HP; auto.
  - cbn [read_while m_pos m_text].
    destruct (get pos line1) as [ch|] eqn:Hg.
    + pose proof (get_Some_lt _ _ _ Hg) as Hlt.
      assert (Hg2 : get pos line2 = Some ch)
        by (unfold line2; rewrite get_append_l; auto).
      destruct (P ch) eqn:HPc.
      * destruct f2 as [|f2].
        { unfold chars_left, line2 in H2. cbn [m_text m_pos] in H2.
          rewrite length_append in H2. simpl in H2. lia. }
        cbn [read_while m_pos m_text]. rewrite Hg2, HPc.
        unfold advance. cbn [m_text m_pos].
        destruct (IH f2 (chars ++ String ch "") (S pos)) as [chars' [pos' H]].
        { lia. }
        { unfold chars_left in *. cbn [m_text m_pos] in *. lia. }
        { unfold chars_left in *. cbn [m_text m_pos] in *. lia. }
        exists chars', pos'. intuition lia.
      * exists chars, pos.
        destruct f2; cbn [read_while m_pos m_text]; rewrite Hg2, HPc; auto.
    + apply get_None_ge in Hg. assert (pos = length line1) by lia. subst pos.
      exists chars, (length line1).
      destruct f2; cbn [read_while m_pos m_text]; unfold line2;
        rewrite get_append_end, HP; auto.
Qed.

Hypothesis c_ends_token : continues_token c = false.

Lemma ends_token_no_digit : isdigit c = false.
Proof.
  unfold continues_token in c_ends_token.
  apply orb_false_elim in c_ends_token as [H _].
  apply orb_false_elim in H as [H _]. exact H.
Qed.

Lemma ends_token_no_identifier_char : identifier_char c = false.
Proof.
  unfold continues_token in c_ends_token.
  apply orb_false_elim in c_ends_token as [H _].
  apply orb_false_elim in H as [_ H]. exact H.
Qed.

Lemma ends_token_no_dot : (c =? ".")%char = false.
Proof.
  unfold continues_token in c_ends_token.
  apply orb_false_elim in c_ends_token as [_ H]. exact H.
Qed.

Lemma ReadAsNumberConstant_extend (pos : nat) :
  pos <= length line1 ->
  exists tok pos',
    ReadAsNumberConstant (mkLexer line1 pos) = (tok, mkLexer line1 pos')
    /\ ReadAsNumberConstant (mkLexer line2 pos) = (tok, mkLexer line2 pos')
    /\ pos' <= length line1.
Proof.
  intros Hpos. unfold ReadAsNumberConstant.
  destruct (read_while_extend isdigit ends_token_no_digit
              (chars_left (mkLexer line1 pos)) (chars_left (mkLexer line2 pos))
              "" pos Hpos (le_n _) (le_n _))
    as [chars [pa [-> [-> [Hle1 Hle2]]]]].
  cbn [m_pos m_text].
  destruct (get pa line1) as [ch|] eqn:Hg.
  - pose proof (get_Some_lt _ _ _ Hg) as Hlt.
    assert (Hg2 : get pa line2 = Some ch)
      by (unfold line2; rewrite get_append_l; auto).
    rewrite Hg2. destruct (ch =? ".")%char.
    + unfold advance. cbn [m_text m_pos].
      destruct (read_while_extend isdigit ends_token_no_digit
                  (chars_left (mkLexer line1 pa)) (chars_left (mkLexer line2 pa))
                  (chars ++ ".") (S pa))
        as [chars' [pb [-> [-> [Hle3 Hle4]]]]].
      { lia. }
      { unfold chars_left. cbn [m_text m_pos]. lia. }
      { unfold chars_left. cbn [m_text m_pos]. lia. }
      exists (mkToken Number (Some chars')), pb. auto.
    + exists (mkToken Number (Some chars)), pa. auto.
  - apply get_None_ge in Hg. assert (pa = length line1) by lia. subst pa.
    unfold line2 at 1. rewrite get_append_end, ends_token_no_dot.
    exists (mkToken Number (Some chars)), (length line1). auto.
Qed.

Lemma ReadAsIdentifier_extend (pos : nat) :
  pos <= length line1 ->
  exists tok pos',
    ReadAsIdentifier (mkLexer line1 pos) = (tok, mkLexer line1 pos')
    /\ ReadAsIdentifier (mkLexer line2 pos) = (tok, mkLexer line2 pos')
    /\ pos' <= length line1.
Proof.
  intros Hpos. unfold ReadAsIdentifier.
  change (fun ch : ascii => isalnum ch || (ch =? "_")%char) with identifier_char.
  destruct (read_while_extend identifier_char ends_token_no_identifier_char
              (chars_left (mkLexer line1 pos)) (chars_left (mkLexer line2 pos))
              "" pos Hpos (le_n _) (le_n _))
    as [chars [pa [-> [-> [Hle1 Hle2]]]]].
  exists (mkToken Identifier (Some chars)), pa. auto.
Qed.

(** A token of [line1] is the same token of the longer line; where
    [line1] ends, the longer line goes on with the token found behind
    it. *)
Lemma GetNextToken_extend : forall n pos tok L1,
  length line1 - pos = n -> pos <= length line1 ->
  GetNextToken (mkLexer line1 pos) = Ok (tok, L1) ->
  if TokenType_eqb (type tok) EndOfFile
  then GetNextToken (mkLexer line2 pos)
       = GetNextToken (mkLexer line2 (length line1))
  else exists pos',
         L1 = mkLexer line1 pos' /\ pos' <= length line1
         /\ GetNextToken (mkLexer line2 pos) = Ok (tok, mkLexer line2 pos').
Proof.
  induction n as [|n IH]; intros pos tok L1 Hn Hpos H.
  - assert (pos = length line1) by lia. subst pos.
    rewrite GetNextToken_end in H
      by (apply get_ge_None; cbn [m_text m_pos]; lia).
    injection H as <- <-. reflexivity.
  - destruct (get pos line1) as [ch|] eqn:Hg.
    2:{ apply get_None_ge in Hg. lia. }
    pose proof (get_Some_lt _ _ _ Hg) as Hlt.
    assert (Hg2 : get pos line2 = Some ch)
      by (unfold line2; rewrite get_append_l; auto).
    destruct (isspace ch) eqn:Hs.
    { rewrite (GetNextToken_space (mkLexer line1 pos) ch Hg Hs) in H.
      rewrite (GetNextToken_space (mkLexer line2 pos) ch Hg2 Hs).
      unfold advance in *. cbn [m_text m_pos] in *.
      apply (IH (S pos) tok L1); auto; lia. }
    destruct (isdigit ch) eqn:Hd.
    { rewrite (GetNextToken_digit (mkLexer line1 pos) ch Hg Hd) in H.
      rewrite (GetNextToken_digit (mkLexer line2 pos) ch Hg2 Hd).
      destruct (ReadAsNumberConstant_extend pos Hpos)
        as [tok' [pos' [E1 [E2 Hle]]]].
      rewrite E1 in H. injection H as <- <-. rewrite E2.
      destruct (ReadAsNumberConstant_progress (mkLexer line1 pos) _ ch _ Hg Hd E1) as [_ [Ht _]].
      rewrite Ht. cbn [TokenType_eqb]. eauto. }
    destruct (isalpha ch) eqn:Ha.
    { rewrite (GetNextToken_alpha (mkLexer line1 pos) ch Hg Ha) in H.
      rewrite (GetNextToken_alpha (mkLexer line2 pos) ch Hg2 Ha).
      destruct (ReadAsIdentifier_extend pos Hpos)
        as [tok' [pos' [E1 [E2 Hle]]]].
      rewrite E1 in H. injection H as <- <-. rewrite E2.
      destruct (ReadAsIdentifier_progress (mkLexer line1 pos) _ ch _ Hg Ha E1) as [_ [Ht _]].
      rewrite Ht. cbn [TokenType_eqb]. eauto. }
    unfold GetNextToken in *.
    destruct (chars_left (mkLexer line1 pos)), (chars_left (mkLexer line2 pos));
      cbn [GetNextToken_loop m_text m_pos] in *;
      rewrite ?Hg, ?Hg2, ?Hs, ?Hd, ?Ha in *;
      repeat match type of H with
      | (if ?b then _ else _) = _ => destruct b
      end;
      try discriminate; injection H as <- <-; cbn [type TokenType_eqb];
      exists (S pos); unfold advance; cbn [m_text m_pos];
      (split; [reflexivity|split; [lia|reflexivity]]).
Qed.
End Extend.

Section Simulation.
Variables (line1 t : string) (c : ascii).
Let line2 : string := line1 ++ String c t.
Hypothesis c_ends_token : continues_token c = false.
Variables (tok_t : Token) (L_t : Lexer).
Hypothesis trailing_token :
  GetNextToken (mkLexer line2 (length line1)) = Ok (tok_t, L_t).
Hypothesis trailing_no_operator : is_binary_operator (type tok_t) = false.

Lemma same_run_operator (ty : TokenType) (p1 p2 : Parser) :
  same_run line1 line2 p1 p2 -> is_binary_operator ty = true ->
  is_type ty p1 = is_type ty p2.
Proof.
  intros [pos tok Hpos Htok|q1 q2 H1 H2] Hty; [reflexivity|].
  unfold is_type.
  destruct (type (m_token q1)), (type (m_token q2)), ty;
    simpl in *; congruence.
Qed.

Lemma at_end_is_type (ty : TokenType) (p1 : Parser) :
  TokenType_eqb (type (m_token p1)) EndOfFile = true ->
  TokenType_eqb ty EndOfFile = false ->
  is_type ty p1 = false.
Proof.
  unfold is_type. destruct (type (m_token p1)), ty; simpl; congruence.
Qed.

Lemma Eat_simulates (ty : TokenType) (p1 p2 p1' : Parser) :
  TokenType_eqb ty EndOfFile = false ->
  same_run line1 line2 p1 p2 -> Eat ty p1 = Ok p1' ->
  exists p2', Eat ty p2 = Ok p2' /\ same_run line1 line2 p1' p2'.
Proof.
  intros Hty [pos tok Hpos Htok|q1 q2 H1 H2] H.
  - unfold Eat in *. unfold is_type in *. cbn [m_token m_lexer] in *.
    destruct (TokenType_eqb (type tok) ty); cbn [negb] in *; [|discriminate].
    apply bind_Ok in H as [[tok' L1] [HG H]]. injection H as <-.
    pose proof (GetNextToken_extend line1 t c c_ends_token _ pos tok' L1
                  eq_refl Hpos HG) as HX.
    destruct (TokenType_eqb (type tok') EndOfFile) eqn:Etok.
    + fold line2 in HX. rewrite HX, trailing_token. cbn [bind].
      eexists. split; [reflexivity|]. apply at_end; assumption.
    + destruct HX as [pos' [-> [Hle HG2]]]. fold line2 in HG2.
      rewrite HG2. cbn [bind]. eexists. split; [reflexivity|].
      apply same_token; assumption.
  - unfold Eat in H. rewrite (at_end_is_type ty q1 H1 Hty) in H. discriminate.
Qed.

Lemma ParseAtom_simulates (rec1 rec2 : parse_fn) :
  simulates line1 line2 rec1 rec2 ->
  simulates line1 line2 (ParseAtom rec1) (ParseAtom rec2).
Proof.
  intros Hrec p1 p2 node p1' HR H.
  destruct HR as [pos tok Hpos Htok|q1 q2 H1 H2].
  2:{ unfold ParseAtom in H.
      rewrite !(at_end_is_type _ q1 H1) in H by reflexivity. discriminate. }
  pose proof (same_token line1 line2 pos tok Hpos Htok) as HR.
  unfold ParseAtom in *. unfold is_type at 1 in H. unfold is_type at 1.
  cbn [m_token] in *.
  destruct (TokenType_eqb (type tok) Number).
  { apply bind_Ok in H as [s [Hs H]]. apply bind_Ok in H as [q1 [HE H]].
    apply bind_Ok in H as [v [Hv H]]. injection H as <- <-.
    destruct (Eat_simulates Number _ _ _ eq_refl HR HE) as [q2 [HE2 HR2]].
    rewrite Hs. cbn [bind]. rewrite HE2. cbn [bind]. rewrite Hv. cbn [bind].
    eauto. }
  unfold is_type at 1 in H. unfold is_type at 1. cbn [m_token] in *.
  destruct (TokenType_eqb (type tok) Identifier).
  { apply bind_Ok in H as [s [Hs H]]. apply bind_Ok in H as [q1 [HE H]].
    injection H as <- <-.
    destruct (Eat_simulates Identifier _ _ _ eq_refl HR HE) as [q2 [HE2 HR2]].
    rewrite Hs. cbn [bind]. rewrite HE2. cbn [bind]. eauto. }
  unfold is_type at 1 in H. unfold is_type at 1. cbn [m_token] in *.
  destruct (TokenType_eqb (type tok) LeftParen); [|discriminate].
  apply bind_Ok in H as [q1 [HE H]]. apply bind_Ok in H as [[nd r1] [HP H]].
  apply bind_Ok in H as [s1 [HE' H]]. injection H as <- <-.
  destruct (Eat_simulates LeftParen _ _ _ eq_refl HR HE) as [q2 [HE2 HR2]].
  destruct (Hrec _ _ _ _ HR2 HP) as [r2 [HP2 HR3]].
  destruct (Eat_simulates RightParen _ _ _ eq_refl HR3 HE') as [s2 [HE3 HR4]].
  rewrite HE2. cbn [bind]. rewrite HP2. cbn [bind]. rewrite HE3. cbn [bind].
  eauto.
Qed.

Lemma ParseMulDiv_loop_simulates (atom1 atom2 : parse_fn) :
  simulates line1 line2 atom1 atom2 ->
  forall k1 k2 node,
    k1 <= k2 ->
    simulates line1 line2 (ParseMulDiv_loop atom1 k1 node)
      (ParseMulDiv_loop atom2 k2 node).
Proof.
  intros Hatom. induction k1 as [|k1 IH]; intros k2 node Hk p1 p2 nd p1' HR H.
  - cbn [ParseMulDiv_loop] in H.
    destruct (is_type Mul p1 || is_type Div p1) eqn:E; [discriminate|].
    injection H as <- <-.
    rewrite (same_run_operator Mul p1 p2 HR eq_refl),
      (same_run_operator Div p1 p2 HR eq_refl) in E.
    rewrite ParseMulDiv_loop_exit by exact E. eauto.
  - cbn [ParseMulDiv_loop] in H.
    destruct (is_type Mul p1 || is_type Div p1) eqn:E.
    + destruct k2 as [|k2]; [lia|]. cbn [ParseMulDiv_loop].
      pose proof (same_run_operator Mul p1 p2 HR eq_refl) as EM.
      pose proof (same_run_operator Div p1 p2 HR eq_refl) as ED.
      rewrite <- EM, <- ED, E.
      apply bind_Ok in H as [q1 [HE H]]. apply bind_Ok in H as [[rhs r1] [HA H]].
      assert (HE2 : exists q2,
                 (if is_type Mul p1 then Eat Mul p2
                  else if is_type Div p1 then Eat Div p2 else Ok p2) = Ok q2
                 /\ same_run line1 line2 q1 q2).
      { destruct (is_type Mul p1);
          [apply (Eat_simulates Mul p1); auto|].
        destruct (is_type Div p1);
          [apply (Eat_simulates Div p1); auto|discriminate]. }
      destruct HE2 as [q2 [HE2 HR2]]. rewrite HE2. cbn [bind].
      destruct (Hatom _ _ _ _ HR2 HA) as [r2 [HA2 HR3]].
      rewrite HA2. cbn [bind].
      assert (Hop : type (m_token p1) = type (m_token p2)
                    \/ is_type Mul p1 = false /\ is_type Div p1 = false).
      { destruct HR; [left; reflexivity|right].
        split; apply at_end_is_type; auto. }
      destruct Hop as [Hop|[F1 F2]]; [|rewrite F1, F2 in E; discriminate].
      rewrite <- Hop. apply (IH k2 _ ltac:(lia) _ _ _ _ HR3 H).
    + injection H as <- <-.
      rewrite (same_run_operator Mul p1 p2 HR eq_refl),
        (same_run_operator Div p1 p2 HR eq_refl) in E.
      rewrite ParseMulDiv_loop_exit by exact E. eauto.
Qed.

Lemma ParseMulDiv_simulates (atom1 atom2 : parse_fn) (k1 k2 : nat) :
  simulates line1 line2 atom1 atom2 -> k1 <= k2 ->
  simulates line1 line2 (ParseMulDiv atom1 k1) (ParseMulDiv atom2 k2).
Proof.
  intros Hatom Hk p1 p2 nd p1' HR H. unfold ParseMulDiv in *.
  apply bind_Ok in H as [[node q1] [HA H]].
  destruct (Hatom _ _ _ _ HR HA) as [q2 [HA2 HR2]].
  rewrite HA2. cbn [bind].
  apply (ParseMulDiv_loop_simulates atom1 atom2 Hatom k1 k2 node Hk _ _ _ _ HR2 H).
Qed.

Lemma ParseAddSub_loop_simulates (muldiv1 muldiv2 : parse_fn) :
  simulates line1 line2 muldiv1 muldiv2 ->
  forall k1 k2 node,
    k1 <= k2 ->
    simulates line1 line2 (ParseAddSub_loop muldiv1 k1 node)
      (ParseAddSub_loop muldiv2 k2 node).
Proof.
  intros Hmd. induction k1 as [|k1 IH]; intros k2 node Hk p1 p2 nd p1' HR H.
  - cbn [ParseAddSub_loop] in H.
    destruct (is_type Plus p1 || is_type Minus p1) eqn:E; [discriminate|].
    injection H as <- <-.
    rewrite (same_run_operator Plus p1 p2 HR eq_refl),
      (same_run_operator Minus p1 p2 HR eq_refl) in E.
    rewrite ParseAddSub_loop_exit by exact E. eauto.
  - cbn [ParseAddSub_loop] in H.
    destruct (is_type Plus p1 || is_type Minus p1) eqn:E.
    + destruct k2 as [|k2]; [lia|]. cbn [ParseAddSub_loop].
      pose proof (same_run_operator Plus p1 p2 HR eq_refl) as EM.
      pose proof (same_run_operator Minus p1 p2 HR eq_refl) as ED.
      rewrite <- EM, <- ED, E.
      apply bind_Ok in H as [q1 [HE H]]. apply bind_Ok in H as [[rhs r1] [HA H]].
      assert (HE2 : exists q2,
                 (if is_type Plus p1 then Eat Plus p2
                  else if is_type Minus p1 then Eat Minus p2 else Ok p2)
                 = Ok q2
                 /\ same_run line1 line2 q1 q2).
      { destruct (is_type Plus p1);
          [apply (Eat_simulates Plus p1); auto|].
        destruct (is_type Minus p1);
          [apply (Eat_simulates Minus p1); auto|discriminate]. }
      destruct HE2 as [q2 [HE2 HR2]]. rewrite HE2. cbn [bind].
      destruct (Hmd _ _ _ _ HR2 HA) as [r2 [HA2 HR3]].
      rewrite HA2. cbn [bind].
      assert (Hop : type (m_token p1) = type (m_token p2)
                    \/ is_type Plus p1 = false /\ is_type Minus p1 = false).
      { destruct HR; [left; reflexivity|right].
        split; apply at_end_is_type; auto. }
      destruct Hop as [Hop|[F1 F2]]; [|rewrite F1, F2 in E; discriminate].
      rewrite <- Hop. apply (IH k2 _ ltac:(lia) _ _ _ _ HR3 H).
    + injection H as <- <-.
      rewrite (same_run_operator Plus p1 p2 HR eq_refl),
        (same_run_operator Minus p1 p2 HR eq_refl) in E.
      rewrite ParseAddSub_loop_exit by exact E. eauto.
Qed.

Lemma ParseAddSub_rec_simulates : forall n1 n2,
  n1 <= n2 ->
  simulates line1 line2 (ParseAddSub_rec n1) (ParseAddSub_rec n2).
Proof.
  induction n1 as [|n1 IH]; intros n2 Hn p1 p2 nd p1' HR H;
    [discriminate|].
  destruct n2 as [|n2]; [lia|].
  cbn [ParseAddSub_rec] in *.
  assert (Hmd : simulates line1 line2
                  (ParseMulDiv (ParseAtom (ParseAddSub_rec n1)) n1)
                  (ParseMulDiv (ParseAtom (ParseAddSub_rec n2)) n2)).
  { apply ParseMulDiv_simulates; [|lia].
    apply ParseAtom_simulates. apply IH. lia. }
  apply bind_Ok in H as [[node q1] [HM H]].
  destruct (Hmd _ _ _ _ HR HM) as [q2 [HM2 HR2]].
  rewrite HM2. cbn [bind].
  apply (ParseAddSub_loop_simulates _ _ Hmd n1 n2 node ltac:(lia) _ _ _ _ HR2 H).
Qed.

(** The tree of a line is the tree of the longer line. *)
Lemma ParseAddSub_extend (node : ExpressionAST) (p1' : Parser) :
  (q <- Parser_new (mkLexer line1 0) ;; ParseAddSub q) = Ok (node, p1') ->
  exists p2',
    (q <- Parser_new (mkLexer line2 0) ;; ParseAddSub q) = Ok (node, p2').
Proof.
  intros H. apply bind_Ok in H as [q1 [HN H]].
  unfold Parser_new in HN. apply bind_Ok in HN as [[tok L1] [HG HN]].
  injection HN as <-.
  pose proof (GetNextToken_extend line1 t c c_ends_token _ 0 tok L1
                eq_refl ltac:(lia) HG) as HX.
  pose proof (GetNextToken_scanned _ (mkLexer line1 0) eq_refl) as HS.
  rewrite HG in HS. cbn [scanned] in HS. destruct HS as [_ [_ HS]].
  assert (HR : exists q2,
             Parser_new (mkLexer line2 0) = Ok q2
             /\ same_run line1 line2 (mkParser L1 tok) q2
             /\ tokens_left (mkParser L1 tok) <= tokens_left q2).
  { unfold Parser_new.
    destruct (TokenType_eqb (type tok) EndOfFile) eqn:Etok.
    - fold line2 in HX. rewrite HX, trailing_token. cbn [bind].
      eexists. split; [reflexivity|]. split; [apply at_end; assumption|].
      unfold tokens_left at 1, is_type. cbn [m_lexer m_token].
      rewrite Etok, HS. lia.
    - destruct HX as [pos' [-> [Hle HG2]]]. fold line2 in HG2.
      rewrite HG2. cbn [bind]. eexists. split; [reflexivity|].
      split; [apply same_token; assumption|].
      unfold tokens_left, is_type, chars_left. cbn [m_lexer m_token m_text m_pos].
      rewrite Etok. unfold line2. rewrite length_append. lia. }
  destruct HR as [q2 [HN2 [HR Hle]]]. rewrite HN2. cbn [bind].
  unfold ParseAddSub in *.
  destruct (ParseAddSub_rec_simulates (S (tokens_left (mkParser L1 tok)))
              (S (tokens_left q2)) ltac:(lia) _ _ _ _ HR H) as [p2' [H2 _]].
  eauto.
Qed.
End Simulation.

(** ** The whole translation of a line *)

Lemma translate_alt (line : string) :
  translate line
  = ('(ast, _) <- (q <- Parser_new (mkLexer line 0) ;; ParseAddSub q) ;;
     '(code, _) <- Generate ast SimpleCodeGenerator_new ;;
     Ok code).
Proof.
  unfold translate. destruct (Parser_new (mkLexer line 0)); reflexivity.
Qed.


Lemma Parser_new_outcome (line : string) :
  match Parser_new (mkLexer line 0) with
  | Ok p =>
      has_value (m_token p) = true /\ m_text (m_lexer p) = line
      /\ tokens_left p <= length line
  | Throw e => thrown line e
  | Undefined | NoFuel => False
  end.
Proof.
  unfold Parser_new.
  pose proof (GetNextToken_scanned _ (mkLexer line 0) eq_refl) as H.
  destruct (GetNextToken (mkLexer line 0)) as [[tok L]|e| |]; cbn [bind];
    simpl in H; auto.
  2:{ left. exact H. }
  destruct H as [Hv [Ht H]]. split; [exact Hv|]. split; [exact Ht|].
  unfold tokens_left, is_type. cbn [m_lexer m_token].
  destruct (TokenType_eqb (type tok) EndOfFile);
    unfold chars_left in *; cbn [m_text m_pos] in *; lia.
Qed.

(** A line shorter than [INT_MAX] characters is translated to a text or
    to an exception: the run neither is cut short nor leaves defined
    behaviour. *)
Theorem translate_outcome (line : string) :
  (Z.of_nat (length line) < INT_MAX)%Z ->
  (exists code, translate line = Ok code)
  \/ (exists e, translate line = Throw e).
Proof.
  intros Hlen. unfold translate.
  pose proof (Parser_new_outcome line) as HP.
  destruct (Parser_new (mkLexer line 0)) as [p|e| |]; cbn [bind];
    try contradiction; [|eauto].
  destruct HP as [Hv [_ Hle]].
  pose proof (ParseAddSub_parsed p Hv) as HA.
  destruct (ParseAddSub p) as [[ast p']|e| |]; cbn [bind parsed] in *;
    try contradiction; [|eauto].
  destruct HA as [_ [_ [Hn [HU _]]]].
  destruct (Generate_defined ast HU) as [code [g' HG]]; [lia|].
  rewrite HG. cbn [bind]. eauto.
Qed.

(** The generator throws nothing. *)
Lemma Visit_not_Throw (node : ExpressionAST) :
  forall g e, Visit node g <> Throw e.
Proof.
  assert (PE : forall prefix rhs g e,
             (g1 <- push_register prefix g ;; emit rhs g1) <> Throw e).
  { intros prefix rhs g e. unfold push_register, emit, back.
    destruct (m_registerId g <? INT_MAX)%Z; simpl; discriminate. }
  induction node as [name|v|l IHl r IHr op]; intros g e H; cbn [Visit] in H.
  - exact (PE _ _ _ _ H).
  - exact (PE _ _ _ _ H).
  - apply bind_Throw in H as [H|[g1 [_ H]]]; [exact (IHl _ _ H)|].
    apply bind_Throw in H as [H|[g2 [_ H]]]; [exact (IHr _ _ H)|].
    unfold pop at 1 in H.
    destruct (m_registers g2) as [|r0 rs]; [discriminate|]. cbn [bind] in H.
    unfold pop at 1 in H. cbn [m_registers] in H.
    destruct rs as [|r1 rs]; [discriminate|]. cbn [bind] in H.
    repeat match type of H with
    | (if ?b then _ else _) = _ => destruct b
    end; try discriminate; exact (PE _ _ _ _ H).
Qed.

(** Whatever a translation throws is the exception of the lexer for an
    unknown character of the line, one of the two of the parser, or the
    one of [std::stoi]. *)
Theorem translate_thrown (line : string) (e : exception) :
  translate line = Throw e -> thrown line e.
Proof.
  unfold translate. intros H.
  pose proof (Parser_new_outcome line) as HP.
  destruct (Parser_new (mkLexer line 0)) as [p|e0| |]; cbn [bind] in H;
    try discriminate.
  2:{ injection H as <-. exact HP. }
  destruct HP as [Hv [Ht _]].
  pose proof (ParseAddSub_parsed p Hv) as HA.
  destruct (ParseAddSub p) as [[ast p']|e0| |]; cbn [bind parsed] in *;
    try discriminate.
  2:{ injection H as <-. rewrite Ht in HA. exact HA. }
  exfalso. unfold Generate in H.
  apply bind_Throw in H as [H|[[code g] [_ H]]]; [|discriminate].
  apply bind_Throw in H as [H|[g1 [_ H]]]; [exact (Visit_not_Throw _ _ _ H)|].
  unfold back in H. destruct (m_registers g1); discriminate.
Qed.

(** C7, as the code has it.  When the first character behind the white
    space at the scan position is no white space, digit, letter or
    operator, [GetNextToken] throws [std::invalid_argument] with the text
    of main.cpp:245, which names the zero-based position of that character
    and the character; a line that begins this way is translated to no IR
    but to that exception, and so is ["1 $ 2"], at position 2.  Whenever a
    translation ends with a [std::invalid_argument], its text names a
    position of the line and the character there, which is such a
    character. *)
Theorem C7_unknown_character_at_scan_position
    (pre ws rest : string) (ch : ascii) :
  all_chars isspace ws = true -> unknown_char ch = true ->
  GetNextToken (mkLexer (pre ++ ws ++ String ch rest) (length pre))
  = Throw (lex_error (length pre + length ws) ch)
  /\ translate (ws ++ String ch rest) = Throw (lex_error (length ws) ch)
  /\ translate "1 $ 2"
     = Throw (invalid_argument "can't parse character at pos 2: '$'")
  /\ (forall line what,
        translate line = Throw (invalid_argument what) ->
        exists pos c,
          get pos line = Some c /\ unknown_char c = true
          /\ what = "can't parse character at pos "
                    ++ to_string (Z.of_nat pos) ++ ": '" ++ String c "'").
Proof.
  intros Hws Hch.
  assert (G : forall pre0,
             GetNextToken (mkLexer (pre0 ++ ws ++ String ch rest) (length pre0))
             = Throw (lex_error (length pre0 + length ws) ch)).
  { intros pre0. rewrite GetNextToken_spaces by exact Hws.
    rewrite (GetNextToken_unknown _ ch); [reflexivity| |exact Hch].
    cbn [m_pos m_text].
    replace (length pre0 + length ws) with (length (pre0 ++ ws))
      by apply length_append.
    rewrite <- append_assoc, get_at_prefix. reflexivity. }
  split; [apply G|]. split; [|split; [reflexivity|]].
  - unfold translate, Parser_new.
    pose proof (G "") as G0. cbn [append length Nat.add] in G0.
    rewrite G0. reflexivity.
  - intros line what H. apply translate_thrown in H.
    destruct H as [[pos [c [E [Hg Hu]]]]|[E|[E|E]]]; try discriminate.
    exists pos, c. injection E as ->. auto.
Qed.

Lemma C7_unknown_character_at_scan_position_witness :
  all_chars isspace "  " = true /\ unknown_char "$" = true
  /\ translate "  $ 2" = Throw (lex_error 2 "$").
Proof.
  split; [reflexivity|]. split; [reflexivity|].
  apply (C7_unknown_character_at_scan_position "" "  " " 2" "$"); reflexivity.
Defined.

(** C7 as stated fails: ["1 2 $"] contains ['$'], and ["a_b"] contains
    ['_'], which is none of the listed characters either; both lines are
    translated to IR. *)
Lemma C7_counterexample :
  some_char unknown_char "1 2 $" = true
  /\ translate "1 2 $" = Ok (ir ["%x1 = 1.000000"; "%result = %x1"])
  /\ some_char unknown_char "a_b" = true
  /\ translate "a_b" = Ok (ir ["%x1 = %a_b"; "%result = %x1"]).
Proof. repeat split; reflexivity. Qed.

(** C9. Every turn of the driver builds its generator, lexer and parser
    anew, so what a line is translated to depends on the line alone: for a
    line shorter than [INT_MAX] characters the translation is one text or
    one exception; a turn of the loop on that line appends the same bytes
    to the output streams whatever was written before; and the driver run
    on the line given twice writes these bytes twice. *)
Theorem C9_translation_depends_on_the_line_only (line : string) :
  (Z.of_nat (length line) < INT_MAX)%Z ->
  ((exists code, translate line = Ok code)
   \/ (exists e, translate line = Throw e))
  /\ exists out err : string,
       (forall io,
          main_body line io
          = Ok (mkConsole (cout io ++ out) (cerr io ++ err)))
       /\ main [line; line] (mkConsole "" "")
          = Ok (mkConsole (">>> " ++ out ++ ">>> " ++ out ++ ">>> ")
                  (err ++ err)).
Proof.
  intros Hlen. split; [apply translate_outcome; exact Hlen|].
  assert (H : exists out err : string,
             forall io, main_body line io
                        = Ok (mkConsole (cout io ++ out) (cerr io ++ err))).
  { destruct (translate_outcome line Hlen) as [[code Hc]|[e He]].
    - exists (code ++ newline), "". intros io.
      unfold main_body, put_cout. rewrite Hc, append_nil_r. reflexivity.
    - exists "", ("invalid expression" ++ newline). intros io.
      unfold main_body, put_cerr. rewrite He, append_nil_r. reflexivity. }
  destruct H as [out [err H]]. exists out, err. split; [exact H|].
  cbn [main]. rewrite H. cbn [bind]. rewrite H. cbn [bind].
  unfold put_cout. cbn [cout cerr append]. rewrite !append_assoc.
  reflexivity.
Qed.

Lemma C9_translation_depends_on_the_line_only_witness :
  (Z.of_nat (length "x / 2") < INT_MAX)%Z
  /\ ((exists code, translate "x / 2" = Ok code)
      \/ (exists e, translate "x / 2" = Throw e)).
Proof.
  split; [reflexivity|].
  apply (C9_translation_depends_on_the_line_only "x / 2"). reflexivity.
Defined.

(** C3, as the code has it.  [ParseAddSub] does not look for the end of
    the line.  When it returns a tree on a line, it returns the same tree
    on every longer line made of that line, a character that cannot go on
    a token (no digit, letter, ['_'] or ['.']) and any further text,
    provided the token the lexer finds behind the original line is no
    binary operator: the trailing tokens stay unread, nothing is thrown,
    and the longer line is translated like the line itself.  From a
    lookahead that carries its text [ParseAddSub] returns a tree, leaving
    a lookahead that is no binary operator, or it throws one of the
    exceptions of [thrown] and returns no tree. *)
Theorem C3_trailing_tokens_stay_unread
    (line1 t : string) (c : ascii) (tok_t : Token) (L_t : Lexer)
    (node : ExpressionAST) (p1' : Parser) :
  (q <- Parser_new (mkLexer line1 0) ;; ParseAddSub q) = Ok (node, p1') ->
  continues_token c = false ->
  GetNextToken (mkLexer (line1 ++ String c t) (length line1)) = Ok (tok_t, L_t) ->
  is_binary_operator (type tok_t) = false ->
  (exists p2',
      (q <- Parser_new (mkLexer (line1 ++ String c t) 0) ;; ParseAddSub q)
      = Ok (node, p2'))
  /\ translate (line1 ++ String c t) = translate line1
  /\ (forall p,
        has_value (m_token p) = true ->
        (exists nd p',
            ParseAddSub p = Ok (nd, p')
            /\ is_binary_operator (type (m_token p')) = false)
        \/ (exists e,
              ParseAddSub p = Throw e /\ thrown (m_text (m_lexer p)) e)).
Proof.
  intros H1 Hc Ht Hop.
  destruct (ParseAddSub_extend line1 t c Hc tok_t L_t Ht Hop node p1' H1)
    as [p2' H2].
  split; [eauto|]. split.
  - rewrite !translate_alt, H1, H2. reflexivity.
  - intros p Hv. pose proof (ParseAddSub_parsed p Hv) as H.
    destruct (ParseAddSub p) as [[nd p']|e| |]; simpl in H; try contradiction;
      [left|right; eauto].
    exists nd, p'. split; [reflexivity|]. apply H.
Qed.

Lemma C3_trailing_tokens_stay_unread_witness :
  (q <- Parser_new (mkLexer "1 + 2" 0) ;; ParseAddSub q)
  = Ok (BinaryExpressionAST (NumberAST 1) (NumberAST 2) "+",
        mkParser (mkLexer "1 + 2" 5) EndOfFile_token)
  /\ continues_token ")" = false
  /\ GetNextToken (mkLexer "1 + 2)" 5)
     = Ok (mkToken RightParen None, mkLexer "1 + 2)" 6)
  /\ is_binary_operator RightParen = false
  /\ translate "1 + 2)" = translate "1 + 2".
Proof.
  do 4 (split; [reflexivity|]).
  apply (C3_trailing_tokens_stay_unread "1 + 2" "" ")"
           (mkToken RightParen None) (mkLexer "1 + 2)" 6)
           (BinaryExpressionAST (NumberAST 1) (NumberAST 2) "+")
           (mkParser (mkLexer "1 + 2" 5) EndOfFile_token));
    reflexivity.
Defined.

(** C3 as stated fails: on ["1 2"] and on ["1 + 2)"] a complete
    expression is followed by a token that is no part of it, and
    [ParseAddSub] returns a tree, which the driver translates. *)
Lemma C3_counterexample :
  (q <- Parser_new (mkLexer "1 2" 0) ;; '(ast, _) <- ParseAddSub q ;; Ok ast)
  = Ok (NumberAST 1)
  /\ translate "1 2" = Ok (ir ["%x1 = 1.000000"; "%result = %x1"])
  /\ (q <- Parser_new (mkLexer "1 + 2)" 0) ;;
      '(ast, _) <- ParseAddSub q ;; Ok ast)
     = Ok (BinaryExpressionAST (NumberAST 1) (NumberAST 2) "+")
  /\ translate "1 + 2)"
     = Ok (ir ["%x1 = 1.000000"; "%x2 = 2.000000"; "%addtmp3 = add %x1 %x2";
               "%result = %addtmp3"]).
Proof. repeat split; reflexivity. Qed.

(** ** Chains of identifiers *)

Lemma GetNextToken_operator (L : Lexer) (op : ascii) :
  get (m_pos L) (m_text L) = Some op -> supported_operator op = true ->
  GetNextToken L = Ok (mkToken (token_type_of op) None, advance L).
Proof.
  intros Hg Hop. apply supported_operator_cases in Hop.
  unfold GetNextToken.
  destruct Hop as [ -> | [ -> | [ -> | -> ] ] ];
    destruct (chars_left L); simpl; rewrite Hg; reflexivity.
Qed.

Lemma chain_tail_stops (rest : list (ascii * string)) :
  stops identifier_char (chain_tail rest) = true.
Proof. destruct rest; reflexivity. Qed.

Lemma chain_tail_cons (pre : string) (o : ascii * string)
    (rest : list (ascii * string)) :
  pre ++ chain_tail (o :: rest)
  = (pre ++ " " ++ String (fst o) (" " ++ snd o)) ++ chain_tail rest.
Proof.
  cbn [chain_tail]. rewrite ?append_assoc. cbn [append].
  rewrite ?append_assoc. reflexivity.
Qed.

Lemma length_chain_tail (rest : list (ascii * string)) :
  List.length rest <= length (chain_tail rest).
Proof.
  induction rest as [|o rest IH]; [simpl; lia|].
  cbn [chain_tail List.length]. rewrite ?length_append.
  cbn [append length]. rewrite ?length_append. simpl. lia.
Qed.

Lemma is_identifier_parts (x : string) :
  is_identifier x = true ->
  exists ch x', x = String ch x' /\ isalpha ch = true
                /\ all_chars identifier_char x = true.
Proof.
  destruct x as [|ch x']; [discriminate|]. unfold is_identifier.
  intros H. apply andb_prop in H as [Ha Hall]. eauto.
Qed.

(** The token behind an operand that ends at [length pre]. *)
Lemma GetNextToken_lookahead (text pre : string)
    (rest : list (ascii * string)) :
  text = pre ++ chain_tail rest -> chain_ok rest = true ->
  GetNextToken (mkLexer text (length pre))
  = Ok (m_token (lookahead text (length pre) rest),
        m_lexer (lookahead text (length pre) rest)).
Proof.
  intros Ht Hok. destruct rest as [|o rest].
  - cbn [lookahead m_token m_lexer]. apply GetNextToken_end.
    cbn [m_pos m_text]. rewrite Ht. cbn [chain_tail]. apply get_at_prefix.
  - cbn [chain_ok forallb] in Hok. apply andb_prop in Hok as [Ho _].
    apply andb_prop in Ho as [Hop _].
    cbn [lookahead m_token m_lexer].
    rewrite (GetNextToken_space _ " "%char); [|cbn [m_pos m_text]|reflexivity].
    2:{ rewrite Ht. cbn [chain_tail]. rewrite get_at_prefix. reflexivity. }
    rewrite (GetNextToken_operator _ (fst o)); [|cbn [m_pos m_text advance]|exact Hop].
    + unfold advance. cbn [m_pos m_text]. do 3 f_equal. lia.
    + rewrite Ht. cbn [chain_tail].
      replace (S (length pre)) with (length (pre ++ " "))
        by (rewrite length_append; simpl; lia).
      cbn [append].
      rewrite (append_cons_shift pre " " (String (fst o) _)), get_at_prefix.
      reflexivity.
Qed.

(** The identifier behind an operator that ends at [length pre]. *)
Lemma GetNextToken_operand (text pre x tail : string) :
  text = pre ++ " " ++ x ++ tail ->
  is_identifier x = true -> stops identifier_char tail = true ->
  GetNextToken (mkLexer text (length pre))
  = Ok (mkToken Identifier (Some x),
        mkLexer text (length pre + 1 + length x)).
Proof.
  intros Ht Hx Htail.
  destruct (is_identifier_parts x Hx) as [ch [x' [Ex [Ha Hall]]]].
  rewrite (GetNextToken_space _ " "%char); [|cbn [m_pos m_text]|reflexivity].
  2:{ rewrite Ht, get_at_prefix. reflexivity. }
  unfold advance. cbn [m_pos m_text].
  assert (Ht' : text = (pre ++ " ") ++ x ++ tail)
    by (rewrite Ht, append_assoc; reflexivity).
  replace (S (length pre)) with (length (pre ++ " "))
    by (rewrite length_append; simpl; lia).
  rewrite (GetNextToken_alpha _ ch); [|cbn [m_pos m_text]|exact Ha].
  2:{ rewrite Ht', get_at_prefix, Ex. reflexivity. }
  rewrite Ht' at 1 2. rewrite ReadAsIdentifier_run; auto.
  rewrite <- Ht'. do 3 f_equal. rewrite length_append. simpl. lia.
Qed.

(** [ParseAtom] on an identifier of the chain. *)
Lemma ParseAtom_operand (rec : parse_fn) (text pre x : string)
    (rest : list (ascii * string)) :
  text = pre ++ chain_tail rest -> chain_ok rest = true ->
  ParseAtom rec (mkParser (mkLexer text (length pre))
                   (mkToken Identifier (Some x)))
  = Ok (VariableRefAST x, lookahead text (length pre) rest).
Proof.
  intros Ht Hok. rewrite ParseAtom_Identifier.
  rewrite (Eat_ok Identifier _ (m_token (lookahead text (length pre) rest))
             (m_lexer (lookahead text (length pre) rest))); [|reflexivity|].
  - cbn [bind]. destruct (lookahead text (length pre) rest). reflexivity.
  - cbn [m_lexer]. apply GetNextToken_lookahead; assumption.
Qed.

(** [Eat] on the operator in front of an operand. *)
Lemma Eat_operator (text pre : string) (o : ascii * string)
    (rest : list (ascii * string)) :
  text = pre ++ chain_tail (o :: rest) -> chain_ok (o :: rest) = true ->
  Eat (token_type_of (fst o)) (lookahead text (length pre) (o :: rest))
  = Ok (mkParser
          (mkLexer text
             (length (pre ++ " " ++ String (fst o) (" " ++ snd o))))
          (mkToken Identifier (Some (snd o)))).
Proof.
  intros Ht Hok. cbn [chain_ok forallb] in Hok.
  apply andb_prop in Hok as [Ho _]. apply andb_prop in Ho as [Hop Hx].
  cbn [lookahead].
  apply Eat_ok.
  - unfold is_type. cbn [m_token type].
    destruct (token_type_of (fst o)); reflexivity.
  - cbn [m_lexer].
    replace (length pre + 2) with (length (pre ++ " " ++ String (fst o) ""))
      by (rewrite ?length_append; simpl; lia).
    rewrite (GetNextToken_operand text _ (snd o) (chain_tail rest)); auto.
    + do 3 f_equal. rewrite ?length_append. cbn [append length].
      rewrite ?length_append. simpl. lia.
    + rewrite Ht. cbn [chain_tail]. rewrite ?append_assoc. cbn [append].
      rewrite ?append_assoc. reflexivity.
    + apply chain_tail_stops.
Qed.

Lemma lookahead_additive (text : string) (pos : nat)
    (rest : list (ascii * string)) :
  forallb (fun o => additive (fst o)) rest = true ->
  is_type Mul (lookahead text pos rest)
  || is_type Div (lookahead text pos rest) = false.
Proof.
  destruct rest as [|o rest]; [reflexivity|].
  cbn [forallb]. intros H. apply andb_prop in H as [H _].
  unfold additive in H. apply orb_prop in H as [H|H];
    apply Ascii.eqb_eq in H; cbn [lookahead]; rewrite H; reflexivity.
Qed.

Lemma lookahead_multiplicative (text : string) (pos : nat)
    (rest : list (ascii * string)) :
  forallb (fun o => multiplicative (fst o)) rest = true ->
  is_type Plus (lookahead text pos rest)
  || is_type Minus (lookahead text pos rest) = false.
Proof.
  destruct rest as [|o rest]; [reflexivity|].
  cbn [forallb]. intros H. apply andb_prop in H as [H _].
  unfold multiplicative in H. apply orb_prop in H as [H|H];
    apply Ascii.eqb_eq in H; cbn [lookahead]; rewrite H; reflexivity.
Qed.

Lemma lookahead_end (text pre : string) :
  text = pre ++ chain_tail [] ->
  lookahead text (length pre) []
  = mkParser (mkLexer text (length text)) EndOfFile_token.
Proof.
  intros Ht. cbn [lookahead]. rewrite Ht at 3. cbn [chain_tail].
  rewrite append_nil_r. reflexivity.
Qed.

Lemma chain_ok_tail (o : ascii * string) (rest : list (ascii * string)) :
  chain_ok (o :: rest) = true -> chain_ok rest = true.
Proof. cbn [chain_ok forallb]. intros H. apply andb_prop in H. tauto. Qed.

Lemma length_operand_prefix (pre : string) (o : ascii * string) :
  length (pre ++ " " ++ String (fst o) (" " ++ snd o))
  = length pre + 3 + length (snd o).
Proof. rewrite length_append. cbn [append length]. lia. Qed.

Lemma additive_step (p : Parser) (op : ascii) :
  additive op = true -> type (m_token p) = token_type_of op ->
  is_type Plus p || is_type Minus p = true
  /\ (if is_type Plus p then Eat Plus p
      else if is_type Minus p then Eat Minus p else Ok p)
     = Eat (token_type_of op) p
  /\ (if TokenType_eqb (type (m_token p)) Plus then "+" else "-")%char = op.
Proof.
  unfold additive, is_type. intros Hop Ht. rewrite Ht.
  apply orb_prop in Hop as [Hop|Hop]; apply Ascii.eqb_eq in Hop; subst op;
    repeat split; reflexivity.
Qed.

Lemma multiplicative_step (p : Parser) (op : ascii) :
  multiplicative op = true -> type (m_token p) = token_type_of op ->
  is_type Mul p || is_type Div p = true
  /\ (if is_type Mul p then Eat Mul p
      else if is_type Div p then Eat Div p else Ok p)
     = Eat (token_type_of op) p
  /\ (if TokenType_eqb (type (m_token p)) Mul then "*" else "/")%char = op.
Proof.
  unfold multiplicative, is_type. intros Hop Ht. rewrite Ht.
  apply orb_prop in Hop as [Hop|Hop]; apply Ascii.eqb_eq in Hop; subst op;
    repeat split; reflexivity.
Qed.

(** The loop of [ParseAddSub] over the rest of an additive chain. *)
Lemma ParseAddSub_loop_identifiers (rec : parse_fn) (k : nat)
    (rest : list (ascii * string)) :
  forall text pre node fuel,
    text = pre ++ chain_tail rest -> chain_ok rest = true ->
    forallb (fun o => additive (fst o)) rest = true ->
    List.length rest <= fuel ->
    ParseAddSub_loop (ParseMulDiv (ParseAtom rec) k) fuel node
      (lookahead text (length pre) rest)
    = Ok (left_chain node (variables rest),
          mkParser (mkLexer text (length text)) EndOfFile_token).
Proof.
  induction rest as [|o rest IH]; intros text pre node fuel Ht Hok Hadd Hf.
  - rewrite (lookahead_end text pre Ht).
    apply ParseAddSub_loop_exit. reflexivity.
  - destruct fuel as [|fuel]; [simpl in Hf; lia|].
    pose proof (Eat_operator text pre o rest Ht Hok) as HE.
    pose proof (chain_ok_tail _ _ Hok) as Hok'.
    cbn [forallb] in Hadd. apply andb_prop in Hadd as [Ho Hadd'].
    rewrite chain_tail_cons in Ht.
    set (pre' := pre ++ " " ++ String (fst o) (" " ++ snd o)) in *.
    assert (HM : ParseMulDiv (ParseAtom rec) k
                   (mkParser (mkLexer text (length pre'))
                      (mkToken Identifier (Some (snd o))))
                 = Ok (VariableRefAST (snd o),
                       lookahead text (length pre') rest)).
    { unfold ParseMulDiv.
      rewrite (ParseAtom_operand rec text pre' (snd o) rest Ht Hok').
      cbn [bind]. apply ParseMulDiv_loop_exit.
      apply lookahead_additive. exact Hadd'. }
    specialize (IH text pre'
                  (BinaryExpressionAST node (VariableRefAST (snd o)) (fst o))
                  fuel Ht Hok' Hadd' ltac:(simpl in Hf; lia)).
    etransitivity; [|exact IH]. clear IH.
    destruct (additive_step (lookahead text (length pre) (o :: rest)) (fst o)
                Ho eq_refl) as [S1 [S2 S3]].
    cbn [ParseAddSub_loop]. rewrite S1, S2, S3, HE. cbn [bind].
    fold pre'. rewrite HM. reflexivity.
Qed.

(** The loop of [ParseMulDiv] over the rest of a multiplicative chain. *)
Lemma ParseMulDiv_loop_identifiers (rec : parse_fn)
    (rest : list (ascii * string)) :
  forall text pre node fuel,
    text = pre ++ chain_tail rest -> chain_ok rest = true ->
    forallb (fun o => multiplicative (fst o)) rest = true ->
    List.length rest <= fuel ->
    ParseMulDiv_loop (ParseAtom rec) fuel node
      (lookahead text (length pre) rest)
    = Ok (left_chain node (variables rest),
          mkParser (mkLexer text (length text)) EndOfFile_token).
Proof.
  induction rest as [|o rest IH]; intros text pre node fuel Ht Hok Hmul Hf.
  - rewrite (lookahead_end text pre Ht).
    apply ParseMulDiv_loop_exit. reflexivity.
  - destruct fuel as [|fuel]; [simpl in Hf; lia|].
    pose proof (Eat_operator text pre o rest Ht Hok) as HE.
    pose proof (chain_ok_tail _ _ Hok) as Hok'.
    cbn [forallb] in Hmul. apply andb_prop in Hmul as [Ho Hmul'].
    rewrite chain_tail_cons in Ht.
    set (pre' := pre ++ " " ++ String (fst o) (" " ++ snd o)) in *.
    pose proof (ParseAtom_operand rec text pre' (snd o) rest Ht Hok') as HA.
    specialize (IH text pre'
                  (BinaryExpressionAST node (VariableRefAST (snd o)) (fst o))
                  fuel Ht Hok' Hmul' ltac:(simpl in Hf; lia)).
    etransitivity; [|exact IH]. clear IH.
    destruct (multiplicative_step (lookahead text (length pre) (o :: rest))
                (fst o) Ho eq_refl) as [S1 [S2 S3]].
    cbn [ParseMulDiv_loop]. rewrite S1, S2, S3, HE. cbn [bind].
    fold pre'. rewrite HA. reflexivity.
Qed.

(** The tree of a chain of identifiers with operators of one precedence
    is the left chain of its operands. *)
Theorem ParseAddSub_chain_text (x0 : string) (rest : list (ascii * string)) :
  is_identifier x0 = true -> chain_ok rest = true ->
  same_precedence rest = true ->
  (q <- Parser_new (mkLexer (chain_text x0 rest) 0) ;; ParseAddSub q)
  = Ok (left_chain (VariableRefAST x0) (variables rest),
        mkParser (mkLexer (chain_text x0 rest) (length (chain_text x0 rest)))
          EndOfFile_token).
Proof.
  intros Hx Hok Hsame.
  set (text := chain_text x0 rest).
  assert (Ht : text = x0 ++ chain_tail rest) by reflexivity.
  destruct (is_identifier_parts x0 Hx) as [ch [x' [Ex [Ha Hall]]]].
  assert (Hnew : Parser_new (mkLexer text 0)
                 = Ok (mkParser (mkLexer text (length x0))
                         (mkToken Identifier (Some x0)))).
  { unfold Parser_new.
    rewrite (GetNextToken_alpha _ ch); [|cbn [m_pos m_text]|exact Ha].
    2:{ rewrite Ht, Ex. reflexivity. }
    pose proof (ReadAsIdentifier_run "" x0 (chain_tail rest) Hall
                  (chain_tail_stops rest)) as R.
    cbn [append length Nat.add] in R. rewrite <- Ht in R. rewrite R.
    reflexivity. }
  rewrite Hnew. cbn [bind]. unfold ParseAddSub.
  set (p0 := mkParser (mkLexer text (length x0)) (mkToken Identifier (Some x0))).
  assert (Hfuel : List.length rest <= tokens_left p0).
  { unfold tokens_left, p0, chars_left, is_type. cbn [m_lexer m_token m_text m_pos].
    pose proof (length_chain_tail rest). rewrite Ht, length_append.
    simpl. lia. }
  cbn [ParseAddSub_rec]. unfold ParseMulDiv at 1. unfold p0 at 1.
  rewrite (ParseAtom_operand _ text x0 x0 rest Ht Hok). cbn [bind].
  unfold same_precedence in Hsame. apply orb_prop in Hsame as [Hadd|Hmul].
  - rewrite ParseMulDiv_loop_exit by (apply lookahead_additive; exact Hadd).
    cbn [bind]. apply ParseAddSub_loop_identifiers; auto.
  - rewrite (ParseMulDiv_loop_identifiers _ rest text x0); auto.
    cbn [bind]. apply ParseAddSub_loop_exit. reflexivity.
Qed.

(** ** The code of a chain *)

Lemma Visit_chain_step (node : ExpressionAST) (g g0 : SimpleCodeGenerator)
    (prev x : string) (op : ascii) :
  Visit node g = Ok g0 -> m_registers g0 = prev :: m_registers g ->
  (m_registerId g0 + 2 <= INT_MAX)%Z -> supported_operator op = true ->
  let load := mkInstruction "%x" (m_registerId g0) ("%" ++ x) in
  let combine :=
    mkInstruction (temporary_prefix op) (m_registerId g0 + 1)
      (mnemonic op ++ " " ++ prev ++ " " ++ dest load) in
  Visit (BinaryExpressionAST node (VariableRefAST x) op) g
  = Ok (mkGenerator (m_code g0 ++ render [load; combine])
          (dest combine :: m_registers g) (m_registerId g0 + 2)).
Proof.
  intros HV Hregs Hroom Hop load combine.
  cbn [Visit]. rewrite HV. cbn [bind].
  rewrite push_emit_defined by lia. cbn [bind].
  unfold pop at 1. cbn [m_registers m_code m_registerId bind].
  unfold pop at 1. cbn [m_registers m_code m_registerId]. rewrite Hregs.
  cbn [bind].
  apply supported_operator_cases in Hop.
  destruct Hop as [ -> | [ -> | [ -> | -> ] ] ];
    cbn [Ascii.eqb Bool.eqb];
    rewrite push_emit_defined by (cbn [m_registerId]; lia);
    cbn [m_registers m_code m_registerId];
    unfold combine, load, render, instruction_line, dest, temporary_prefix,
      mnemonic;
    cbn [Ascii.eqb Bool.eqb dest_prefix dest_id operation append];
    rewrite ?append_nil_r;
    repeat (progress (rewrite ?append_assoc; cbn [append]));
    f_equal; f_equal; try reflexivity; lia.
Qed.

Lemma Visit_left_chain (rest : list (ascii * string)) :
  forall node g g0 prev,
    Visit node g = Ok g0 -> m_registers g0 = prev :: m_registers g ->
    (m_registerId g0 + 2 * Z.of_nat (List.length rest) <= INT_MAX)%Z ->
    chain_ok rest = true ->
    Visit (left_chain node (variables rest)) g
    = Ok (mkGenerator
            (m_code g0 ++ render (chain_instructions prev (m_registerId g0) rest))
            (chain_register prev (m_registerId g0) rest :: m_registers g)
            (m_registerId g0 + 2 * Z.of_nat (List.length rest))).
Proof.
  induction rest as [|o rest IH]; intros node g g0 prev HV Hregs Hroom Hok.
  - cbn [variables map left_chain fold_left chain_instructions chain_register
         render List.length].
    rewrite HV, append_nil_r. destruct g0 as [c r i].
    cbn [m_code m_registers m_registerId] in *. subst r. do 2 f_equal. lia.
  - pose proof (chain_ok_tail _ _ Hok) as Hok'.
    cbn [chain_ok forallb] in Hok. apply andb_prop in Hok as [Ho _].
    apply andb_prop in Ho as [Hop _].
    cbn [List.length] in Hroom.
    pose proof (Visit_chain_step node g g0 prev (snd o) (fst o) HV Hregs
                  ltac:(lia) Hop) as Hstep.
    cbv zeta in Hstep.
    change (left_chain node (variables (o :: rest)))
      with (left_chain
              (BinaryExpressionAST node (VariableRefAST (snd o)) (fst o))
              (variables rest)).
    rewrite (IH _ g _ _ Hstep eq_refl); auto.
    + cbn [m_code m_registers m_registerId chain_instructions chain_register
           List.length].
      f_equal. f_equal.
      * cbn [render]. rewrite append_nil_r, !append_assoc. reflexivity.
      * lia.
    + cbn [m_registerId]. lia.
Qed.

(** The translation of a chain of identifiers. *)
Theorem translate_chain_text (x0 : string) (rest : list (ascii * string)) :
  is_identifier x0 = true -> chain_ok rest = true ->
  same_precedence rest = true ->
  (2 * Z.of_nat (List.length rest) + 1 < INT_MAX)%Z ->
  translate (chain_text x0 rest)
  = Ok (render (mkInstruction "%x" 1 ("%" ++ x0)
                :: chain_instructions "%x1" 2 rest)
        ++ "%result = " ++ chain_register "%x1" 2 rest).
Proof.
  intros Hx Hok Hsame Hroom.
  rewrite translate_alt, ParseAddSub_chain_text by assumption.
  cbn [bind]. unfold Generate.
  assert (HV : Visit (VariableRefAST x0) SimpleCodeGenerator_new
               = Ok (mkGenerator
                       (render [mkInstruction "%x" 1 ("%" ++ x0)])
                       ["%x1"] 2)).
  { cbn [Visit]. rewrite push_emit_defined by reflexivity.
    unfold render, instruction_line, dest.
    cbn [dest_prefix dest_id operation SimpleCodeGenerator_new m_code
         m_registers m_registerId].
    rewrite append_nil_r. reflexivity. }
  rewrite (Visit_left_chain rest _ _ _ "%x1" HV eq_refl); auto.
  2:{ cbn [m_registerId]. lia. }
  cbn [bind back m_registers m_code m_registerId SimpleCodeGenerator_new].
  f_equal. cbn [render]. rewrite append_nil_r, !append_assoc. reflexivity.
Qed.

(** ** Left association *)

Lemma ParseAddSub_loop_chain (muldiv : parse_fn) (fuel : nat) :
  forall node p node' p',
    ParseAddSub_loop muldiv fuel node p = Ok (node', p') ->
    exists operands,
      chain_run muldiv Plus Minus "+" "-" p operands p'
      /\ node' = left_chain node operands.
Proof.
  induction fuel as [|fuel IH]; intros node p node' p' H;
    cbn [ParseAddSub_loop] in H;
    destruct (is_type Plus p || is_type Minus p) eqn:Eop; try discriminate.
  - injection H as <- <-. exists []. split; [constructor; exact Eop|reflexivity].
  - apply bind_Ok in H as [q [HE H]]. apply bind_Ok in H as [[rhs p1] [HM H]].
    destruct (IH _ _ _ _ H) as [rest [Hrun ->]].
    exists ((if is_type Plus p then "+"%char else "-"%char, rhs) :: rest).
    split; [|reflexivity].
    apply (chain_more muldiv Plus Minus "+" "-" p q p1 p'); auto.
    destruct (is_type Plus p); [exact HE|].
    destruct (is_type Minus p); [exact HE|discriminate].
  - injection H as <- <-. exists []. split; [constructor; exact Eop|reflexivity].
Qed.

Lemma ParseMulDiv_loop_chain (atom : parse_fn) (fuel : nat) :
  forall node p node' p',
    ParseMulDiv_loop atom fuel node p = Ok (node', p') ->
    exists operands,
      chain_run atom Mul Div "*" "/" p operands p'
      /\ node' = left_chain node operands.
Proof.
  induction fuel as [|fuel IH]; intros node p node' p' H;
    cbn [ParseMulDiv_loop] in H;
    destruct (is_type Mul p || is_type Div p) eqn:Eop; try discriminate.
  - injection H as <- <-. exists []. split; [constructor; exact Eop|reflexivity].
  - apply bind_Ok in H as [q [HE H]]. apply bind_Ok in H as [[rhs p1] [HM H]].
    destruct (IH _ _ _ _ H) as [rest [Hrun ->]].
    exists ((if is_type Mul p then "*"%char else "/"%char, rhs) :: rest).
    split; [|reflexivity].
    apply (chain_more atom Mul Div "*" "/" p q p1 p'); auto.
    destruct (is_type Mul p); [exact HE|].
    destruct (is_type Div p); [exact HE|discriminate].
  - injection H as <- <-. exists []. split; [constructor; exact Eop|reflexivity].
Qed.

(** A binary node over one of the four operators: both children are
    visited, left first, and one instruction on their two registers is
    appended. *)
Lemma Visit_binary (l r : ExpressionAST) (op : ascii)
    (g g' : SimpleCodeGenerator) :
  supported_operator op = true ->
  Visit (BinaryExpressionAST l r op) g = Ok g' ->
  exists g1 g2 right_ left_ rs,
    Visit l g = Ok g1 /\ Visit r g1 = Ok g2
    /\ m_registers g2 = right_ :: left_ :: rs
    /\ g' = mkGenerator
              (m_code g2
               ++ instruction_line
                    (mkInstruction (temporary_prefix op) (m_registerId g2)
                       (mnemonic op ++ " " ++ left_ ++ " " ++ right_)))
              (dest (mkInstruction (temporary_prefix op) (m_registerId g2)
                       (mnemonic op ++ " " ++ left_ ++ " " ++ right_)) :: rs)
              (m_registerId g2 + 1).
Proof.
  intros Hop H. cbn [Visit] in H.
  apply bind_Ok in H as [g1 [H1 H]]. apply bind_Ok in H as [g2 [H2 H]].
  apply bind_Ok in H as [[right_ g3] [H3 H]].
  apply bind_Ok in H as [[left_ g4] [H4 H]].
  apply pop_Ok in H3 as [rs3 [Hr3 ->]].
  apply pop_Ok in H4 as [rs4 [Hr4 ->]].
  cbn [m_registers m_code m_registerId] in *. subst rs3.
  exists g1, g2, right_, left_, rs4. repeat split; auto.
  apply supported_operator_cases in Hop.
  destruct Hop as [ -> | [ -> | [ -> | -> ] ] ];
    cbn [Ascii.eqb Bool.eqb] in H;
    apply push_emit in H as [_ ->];
    cbn [m_registers m_code m_registerId];
    unfold instruction_line, dest, temporary_prefix, mnemonic;
    cbn [Ascii.eqb Bool.eqb dest_prefix dest_id operation append];
    rewrite ?append_assoc; cbn [append]; rewrite ?append_assoc;
    reflexivity.
Qed.

Lemma chain_run_ParseAddSub_loop (muldiv : parse_fn) (p p' : Parser)
    (operands : list (ascii * ExpressionAST)) :
  chain_run muldiv Plus Minus "+" "-" p operands p' ->
  forall fuel node,
    List.length operands <= fuel ->
    ParseAddSub_loop muldiv fuel node p = Ok (left_chain node operands, p').
Proof.
  induction 1 as [p Hno|p q p1 p' rhs rest Hop HE HM Hrun IH];
    intros fuel node Hf.
  - apply ParseAddSub_loop_exit. exact Hno.
  - destruct fuel as [|fuel]; [simpl in Hf; lia|].
    cbn [ParseAddSub_loop]. rewrite Hop.
    assert (HE' : (if is_type Plus p then Eat Plus p
                   else if is_type Minus p then Eat Minus p else Ok p) = Ok q).
    { destruct (is_type Plus p); [exact HE|].
      destruct (is_type Minus p); [exact HE|discriminate]. }
    rewrite HE'. cbn [bind]. rewrite HM. cbn [bind].
    rewrite IH by (simpl in Hf; lia). reflexivity.
Qed.

(** The code of a tree over the four operators ends in the instruction
    that defines the register left on top of [m_registers]. *)
Lemma Visit_result_register (node : ExpressionAST)
    (g g' : SimpleCodeGenerator) :
  unknown_operators node = 0 -> Visit node g = Ok g' ->
  exists code r,
    m_code g' = m_code g ++ code /\ m_registers g' = r :: m_registers g.
Proof.
  intros HU H. destruct (Visit_visited _ _ _ H) as [ins V].
  destruct (visited_top _ _ _ _ V HU) as [front [last [_ Ht]]].
  exists (render ins), (dest last). split; [apply (visited_code _ _ _ _ V)|exact Ht].
Qed.

(** C5. A chain of identifiers joined by operators of one precedence,
    [x0 o1 x1 o2 x2 ...], is parsed to the tree in which every operator
    has everything to its left as its left child, so [a - b - c] becomes
    [(a - b) - c]; its code loads [x0], then for each further operand
    loads it and combines the register of everything to its left with
    it, so [a] and [b] are combined before the result is combined with
    [c].  For operands of any kind: each of the two loops of the parser
    returns the tree it was given with the operands it reads wrapped
    around it from left to right, and the code of [(a o1 b) o2 c] is the
    code of [a], the code of [b], the instruction on their two registers,
    the code of [c] and last the instruction on the register of [a o1 b]
    and the register of [c]. *)
Theorem C5_chains_associate_to_the_left
    (x0 : string) (rest : list (ascii * string)) :
  is_identifier x0 = true -> chain_ok rest = true ->
  same_precedence rest = true ->
  (2 * Z.of_nat (List.length rest) + 1 < INT_MAX)%Z ->
  (q <- Parser_new (mkLexer (chain_text x0 rest) 0) ;;
   '(ast, _) <- ParseAddSub q ;; Ok ast)
  = Ok (left_chain (VariableRefAST x0) (variables rest))
  /\ translate (chain_text x0 rest)
     = Ok (render (mkInstruction "%x" 1 ("%" ++ x0)
                   :: chain_instructions "%x1" 2 rest)
           ++ "%result = " ++ chain_register "%x1" 2 rest)
  /\ (forall muldiv fuel node p node' p',
        ParseAddSub_loop muldiv fuel node p = Ok (node', p') ->
        exists operands,
          chain_run muldiv Plus Minus "+" "-" p operands p'
          /\ node' = left_chain node operands)
  /\ (forall atom fuel node p node' p',
        ParseMulDiv_loop atom fuel node p = Ok (node', p') ->
        exists operands,
          chain_run atom Mul Div "*" "/" p operands p'
          /\ node' = left_chain node operands)
  /\ (forall a b c o1 o2 g g',
        unknown_operators
          (BinaryExpressionAST (BinaryExpressionAST a b o1) c o2) = 0 ->
        Visit (BinaryExpressionAST (BinaryExpressionAST a b o1) c o2) g = Ok g' ->
        exists ga gb gab gc code_a code_b code_c ra rb rc i1 i2,
          Visit a g = Ok ga /\ m_code ga = m_code g ++ code_a
          /\ m_registers ga = ra :: m_registers g
          /\ Visit b ga = Ok gb /\ m_code gb = m_code ga ++ code_b
          /\ m_registers gb = rb :: ra :: m_registers g
          /\ m_code gab = m_code gb ++ instruction_line i1
          /\ operation i1 = mnemonic o1 ++ " " ++ ra ++ " " ++ rb
          /\ m_registers gab = dest i1 :: m_registers g
          /\ Visit c gab = Ok gc /\ m_code gc = m_code gab ++ code_c
          /\ m_registers gc = rc :: dest i1 :: m_registers g
          /\ m_code g' = m_code gc ++ instruction_line i2
          /\ operation i2 = mnemonic o2 ++ " " ++ dest i1 ++ " " ++ rc
          /\ m_code g' = m_code g ++ code_a ++ code_b ++ instruction_line i1
                         ++ code_c ++ instruction_line i2).
Proof.
  intros Hx Hok Hsame Hroom.
  split.
  { pose proof (ParseAddSub_chain_text x0 rest Hx Hok Hsame) as H.
    destruct (Parser_new (mkLexer (chain_text x0 rest) 0)) as [q|e| |];
      cbn [bind] in *; try discriminate.
    rewrite H. reflexivity. }
  split; [apply translate_chain_text; assumption|].
  split; [intros; eapply ParseAddSub_loop_chain; eassumption|].
  split; [intros; eapply ParseMulDiv_loop_chain; eassumption|].
  intros a b c o1 o2 g g' HU H. cbn [unknown_operators] in HU.
  destruct (supported_operator o1) eqn:H1; [|lia].
  destruct (supported_operator o2) eqn:H2; [|lia].
  assert (HUa : unknown_operators a = 0) by lia.
  assert (HUb : unknown_operators b = 0) by lia.
  assert (HUc : unknown_operators c = 0) by lia.
  apply (Visit_binary _ _ _ _ _ H2) in H
    as [gab [gc [right2 [left2 [rs2 [Hab [Hc [Hr2 ->]]]]]]]].
  apply (Visit_binary _ _ _ _ _ H1) in Hab
    as [ga [gb [right1 [left1 [rs1 [Ha [Hb [Hr1 Egab]]]]]]]].
  destruct (Visit_result_register a g ga HUa Ha) as [code_a [ra [Ca Ra]]].
  destruct (Visit_result_register b ga gb HUb Hb) as [code_b [rb [Cb Rb]]].
  destruct (Visit_result_register c gab gc HUc Hc) as [code_c [rc [Cc Rc]]].
  rewrite Rb, Ra in Hr1. injection Hr1 as <- <- <-.
  set (i1 := mkInstruction (temporary_prefix o1) (m_registerId gb)
               (mnemonic o1 ++ " " ++ ra ++ " " ++ rb)) in *.
  assert (Rgab : m_registers gab = dest i1 :: m_registers g)
    by (rewrite Egab; reflexivity).
  assert (Cgab : m_code gab = m_code gb ++ instruction_line i1)
    by (rewrite Egab; reflexivity).
  rewrite Rc, Rgab in Hr2. injection Hr2 as <- <- <-.
  set (i2 := mkInstruction (temporary_prefix o2) (m_registerId gc)
               (mnemonic o2 ++ " " ++ dest i1 ++ " " ++ rc)).
  exists ga, gb, gab, gc, code_a, code_b, code_c, ra, rb, rc, i1, i2.
  cbn [m_code].
  repeat split; auto.
  - rewrite Rb, Ra. reflexivity.
  - rewrite Rc, Rgab. reflexivity.
  - rewrite Cc, Cgab, Cb, Ca, !append_assoc. reflexivity.
Qed.

Lemma C5_chains_associate_to_the_left_witness :
  is_identifier "a" = true
  /\ chain_ok [("-"%char, "b"); ("-"%char, "c")] = true
  /\ same_precedence [("-"%char, "b"); ("-"%char, "c")] = true
  /\ (2 * Z.of_nat (List.length [("-"%char, "b"); ("-"%char, "c")]) + 1
      < INT_MAX)%Z
  /\ (q <- Parser_new (mkLexer "a - b - c" 0) ;;
      '(ast, _) <- ParseAddSub q ;; Ok ast)
     = Ok (BinaryExpressionAST
             (BinaryExpressionAST (VariableRefAST "a") (VariableRefAST "b") "-")
             (VariableRefAST "c") "-")
  /\ translate "a - b - c"
     = Ok (ir ["%x1 = %a";
               "%x2 = %b";
               "%subtmp3 = sub %x1 %x2";
               "%x4 = %c";
               "%subtmp5 = sub %subtmp3 %x4";
               "%result = %subtmp5"]).
Proof.
  do 4 (split; [reflexivity|]).
  destruct (C5_chains_associate_to_the_left "a"
              [("-"%char, "b"); ("-"%char, "c")]
              eq_refl eq_refl eq_refl eq_refl) as [Hparse [Hcode _]].
  split; [exact Hparse|exact Hcode].
Defined.

(** * Further properties of the code *)

(** ** The generator in closed form *)

(** X1. On a new generator, [Generate] returns for every AST over the four
    operators with fewer than [INT_MAX] nodes the instructions of the tree
    in post-order, the registers numbered from 1: the code of the left
    subtree, the code of the right subtree, then the node's instruction on
    the registers that hold the values of the two; the last line is
    [%result = ] and the register of the root. *)
Theorem Generate_is_post_order (root : ExpressionAST) :
  unknown_operators root = 0 ->
  (Z.of_nat (nodes root) < INT_MAX)%Z ->
  let code :=
    render (post_order root 1) ++ "%result = "
    ++ result_register (post_order root 1) in
  Generate root SimpleCodeGenerator_new
  = Ok (code,
        mkGenerator code [result_register (post_order root 1)]
          (1 + Z.of_nat (nodes root))).
Proof.
  intros HU Hsize.
  exact (Generate_closed_form root SimpleCodeGenerator_new HU
           ltac:(cbn [SimpleCodeGenerator_new m_registerId]; lia)).
Qed.

Lemma Generate_is_post_order_witness :
  Generate
    (BinaryExpressionAST (VariableRefAST "a")
       (BinaryExpressionAST (NumberAST 2) (VariableRefAST "b") "*") "-")
    SimpleCodeGenerator_new
  = Ok (ir ["%x1 = %a"; "%x2 = 2.000000"; "%x3 = %b";
            "%multmp4 = mul %x2 %x3"; "%subtmp5 = sub %x1 %multmp4";
            "%result = %subtmp5"],
        mkGenerator
          (ir ["%x1 = %a"; "%x2 = 2.000000"; "%x3 = %b";
               "%multmp4 = mul %x2 %x3"; "%subtmp5 = sub %x1 %multmp4";
               "%result = %subtmp5"])
          ["%subtmp5"] 6).
Proof.
  apply (Generate_is_post_order
           (BinaryExpressionAST (VariableRefAST "a")
              (BinaryExpressionAST (NumberAST 2) (VariableRefAST "b") "*")
              "-"));
    [reflexivity | vm_compute; reflexivity].
Defined.

(** X2. A generator object is good for one [Generate]: [m_code],
    [m_registers] and [m_registerId] are never reset, so a second
    [Generate] on the same object returns the whole text of the first call
    (its [%result] line included, with no line end behind it) followed by
    the code of the second tree, whose registers are numbered on from
    where the first call stopped, and leaves two registers on the
    stack. *)
Theorem Generate_again_accumulates (root1 root2 : ExpressionAST) :
  unknown_operators root1 = 0 -> unknown_operators root2 = 0 ->
  (Z.of_nat (nodes root1 + nodes root2) < INT_MAX)%Z ->
  exists code1 g1 g2,
    Generate root1 SimpleCodeGenerator_new = Ok (code1, g1)
    /\ let ins2 := post_order root2 (1 + Z.of_nat (nodes root1)) in
       Generate root2 g1
       = Ok (code1 ++ render ins2 ++ "%result = " ++ result_register ins2, g2)
       /\ m_registers g2
          = [result_register ins2; result_register (post_order root1 1)]
       /\ m_registerId g2
          = (1 + Z.of_nat (nodes root1) + Z.of_nat (nodes root2))%Z.
Proof.
  intros HU1 HU2 Hsize.
  pose proof (Generate_closed_form root1 SimpleCodeGenerator_new HU1) as H1.
  cbv zeta in H1. cbn [SimpleCodeGenerator_new m_registerId m_code
                       m_registers] in H1.
  rewrite H1 by lia.
  eexists. eexists. eexists. split; [reflexivity|]. cbv zeta.
  rewrite Generate_closed_form;
    [|exact HU2|cbn [m_registerId]; lia].
  cbn [m_code m_registers m_registerId append].
  repeat split.
Qed.

Lemma Generate_again_accumulates_witness :
  exists g1 g2,
    Generate (VariableRefAST "a") SimpleCodeGenerator_new
    = Ok (ir ["%x1 = %a"; "%result = %x1"], g1)
    /\ Generate (VariableRefAST "b") g1
       = Ok (ir ["%x1 = %a"; "%result = %x1%x2 = %b"; "%result = %x2"], g2).
Proof.
  destruct (Generate_again_accumulates (VariableRefAST "a")
              (VariableRefAST "b") eq_refl eq_refl)
    as [code1 [g1 [g2 [H1 [H2 _]]]]]; [vm_compute; reflexivity|].
  exists g1, g2.
  assert (E : code1 = ir ["%x1 = %a"; "%result = %x1"]).
  { vm_compute in H1. injection H1 as <- _. reflexivity. }
  subst code1. split; [exact H1|exact H2].
Defined.

Lemma Visit_not_NoFuel (node : ExpressionAST) :
  forall g, Visit node g <> NoFuel.
Proof.
  assert (PE : forall prefix rhs g,
             (g1 <- push_register prefix g ;; emit rhs g1) <> NoFuel).
  { intros prefix rhs g. unfold push_register, emit, back.
    destruct (m_registerId g <? INT_MAX)%Z; simpl; discriminate. }
  induction node as [name|v|l IHl r IHr op]; intros g H; cbn [Visit] in H.
  - exact (PE _ _ _ H).
  - exact (PE _ _ _ H).
  - destruct (Visit l g) as [g1| | |] eqn:H1; cbn [bind] in H;
      try discriminate; [|exact (IHl _ H1)].
    destruct (Visit r g1) as [g2| | |] eqn:H2; cbn [bind] in H;
      try discriminate; [|exact (IHr _ H2)].
    unfold pop at 1 in H.
    destruct (m_registers g2) as [|r0 rs]; [discriminate|]. cbn [bind] in H.
    unfold pop at 1 in H. cbn [m_registers] in H.
    destruct rs as [|r1 rs]; [discriminate|]. cbn [bind] in H.
    repeat match type of H with
    | (if ?b then _ else _) = _ => destruct b
    end; try discriminate; exact (PE _ _ _ H).
Qed.

(** The binary [Visit] on an operator the [switch] does not know: the
    code of the two operands, no instruction for the node itself, and the
    stack as it was before. *)
Lemma Visit_unknown_operator (l r : ExpressionAST) (op : ascii)
    (g : SimpleCodeGenerator) :
  supported_operator op = false ->
  unknown_operators l = 0 -> unknown_operators r = 0 ->
  (m_registerId g + Z.of_nat (nodes l + nodes r) <= INT_MAX)%Z ->
  Visit (BinaryExpressionAST l r op) g
  = Ok (mkGenerator
          (m_code g ++ render (post_order l (m_registerId g))
           ++ render (post_order r (m_registerId g + Z.of_nat (nodes l))))
          (m_registers g)
          (m_registerId g + Z.of_nat (nodes l) + Z.of_nat (nodes r))).
Proof.
  intros Hop Hl Hr Hroom. cbn [Visit].
  rewrite Visit_post_order by (assumption || lia). cbn [bind].
  rewrite Visit_post_order by (cbn [m_registerId]; assumption || lia).
  cbn [bind]. unfold pop at 1. cbn [m_registers m_code m_registerId bind].
  unfold pop at 1. cbn [m_registers m_code m_registerId bind].
  unfold supported_operator in Hop.
  apply orb_false_elim in Hop as [Hop H4].
  apply orb_false_elim in Hop as [Hop H3].
  apply orb_false_elim in Hop as [H1 H2].
  rewrite H1, H2, H3, H4, append_assoc. reflexivity.
Qed.

(** X3. The [switch] of the binary [Visit] has no [default]: for an
    operator other than the four it pops the two operand registers and
    pushes none.  On a new generator every tree with such a node brings
    the run to a [back()] on an empty [m_registers], in [Generate] or in
    the [Visit] of a node above that one.  This is undefined behaviour:
    the outcome [Undefined] stands for a run to which the language gives
    no meaning, and says nothing of what a build does from there on; it
    may return a text all the same.  When the node is the root and its
    operands are trees over the four operators, [Visit] returns with the
    code of the two operands emitted, no instruction for the root and
    [m_registers] empty, so that the undefined step is the [back()] of
    main.cpp:118, after which [%result = ] is appended. *)
Theorem Generate_unknown_operator_is_undefined (root : ExpressionAST) :
  unknown_operators root <> 0 ->
  Generate root SimpleCodeGenerator_new = Undefined
  /\ forall l r op,
       root = BinaryExpressionAST l r op ->
       unknown_operators l = 0 -> unknown_operators r = 0 ->
       (Z.of_nat (nodes l + nodes r) < INT_MAX)%Z ->
       supported_operator op = false
       /\ Visit root SimpleCodeGenerator_new
          = Ok (mkGenerator
                  (render (post_order l 1)
                   ++ render (post_order r (1 + Z.of_nat (nodes l))))
                  []
                  (1 + Z.of_nat (nodes l) + Z.of_nat (nodes r))).
Proof.
  intros HU. split.
  - destruct (Generate root SimpleCodeGenerator_new) as [[code g]|e| |] eqn:H;
      [| |reflexivity|].
    + apply Generate_Ok in H.
      destruct H as [front [last [_ [_ [_ [_ [_ [_ H0]]]]]]]]. contradiction.
    + exfalso. unfold Generate in H.
      apply bind_Throw in H as [H|[g1 [_ H]]];
        [exact (Visit_not_Throw _ _ _ H)|].
      unfold back in H. destruct (m_registers g1); discriminate.
    + exfalso. unfold Generate in H.
      destruct (Visit root SimpleCodeGenerator_new) as [g1| | |] eqn:H1;
        cbn [bind] in H; try discriminate; [|exact (Visit_not_NoFuel _ _ H1)].
      unfold back in H. destruct (m_registers g1); discriminate.
  - intros l r op -> Hl Hr Hsize. cbn [unknown_operators] in HU.
    destruct (supported_operator op) eqn:Hop; [lia|].
    split; [reflexivity|].
    rewrite (Visit_unknown_operator l r op SimpleCodeGenerator_new Hop Hl Hr)
      by (cbn [SimpleCodeGenerator_new m_registerId]; lia).
    reflexivity.
Qed.

Lemma Generate_unknown_operator_is_undefined_witness :
  Generate
    (BinaryExpressionAST (VariableRefAST "a") (VariableRefAST "b") "^")
    SimpleCodeGenerator_new
  = Undefined
  /\ Visit
       (BinaryExpressionAST (VariableRefAST "a") (VariableRefAST "b") "^")
       SimpleCodeGenerator_new
     = Ok (mkGenerator ("%x1 = %a" ++ newline ++ "%x2 = %b" ++ newline) []
             3).
Proof.
  destruct (Generate_unknown_operator_is_undefined
              (BinaryExpressionAST (VariableRefAST "a") (VariableRefAST "b")
                 "^"))
    as [H1 H2]; [simpl; discriminate|].
  split; [exact H1|].
  destruct (H2 (VariableRefAST "a") (VariableRefAST "b") "^"%char eq_refl
              eq_refl eq_refl)
    as [_ H3]; [vm_compute; reflexivity|].
  exact H3.
Defined.

(** ** Lines that begin with no operand *)

Lemma Parser_new_spaces (ws rest : string) :
  all_chars isspace ws = true ->
  Parser_new (mkLexer (ws ++ rest) 0)
  = Parser_new (mkLexer (ws ++ rest) (length ws)).
Proof.
  intros Hws. unfold Parser_new.
  pose proof (GetNextToken_spaces ws "" rest Hws) as H.
  cbn [append length Nat.add] in H. rewrite H. reflexivity.
Qed.

Lemma ParseAddSub_no_operand (p : Parser) :
  is_type Number p = false -> is_type Identifier p = false ->
  is_type LeftParen p = false ->
  ParseAddSub p = Throw (runtime_error "can't parse atom").
Proof.
  intros H1 H2 H3. unfold ParseAddSub.
  cbn [ParseAddSub_rec]. unfold ParseMulDiv, ParseAtom.
  rewrite H1, H2, H3. reflexivity.
Qed.

Lemma translate_no_operand (line : string) (p : Parser) :
  Parser_new (mkLexer line 0) = Ok p ->
  is_type Number p = false -> is_type Identifier p = false ->
  is_type LeftParen p = false ->
  translate line = Throw (runtime_error "can't parse atom").
Proof.
  intros HP H1 H2 H3. unfold translate. rewrite HP. cbn [bind].
  rewrite ParseAddSub_no_operand by assumption. reflexivity.
Qed.

(** X4. An empty line and a line of white space only are no expression:
    the lexer returns EndOfFile as the first token, [ParseAtom] throws
    [std::runtime_error("can't parse atom")], and the turn of the driver
    writes [invalid expression] to [std::cerr] and nothing to
    [std::cout]. *)
Theorem blank_line_is_invalid (ws : string) :
  all_chars isspace ws = true ->
  translate ws = Throw (runtime_error "can't parse atom")
  /\ forall io,
       main_body ws io
       = Ok (mkConsole (cout io)
               (cerr io ++ "invalid expression" ++ newline)).
Proof.
  intros Hws.
  assert (H : translate ws = Throw (runtime_error "can't parse atom")).
  { apply (translate_no_operand ws
             (mkParser (mkLexer ws (length ws)) EndOfFile_token));
      try reflexivity.
    pose proof (Parser_new_spaces ws "" Hws) as HP.
    rewrite append_nil_r in HP. rewrite HP. unfold Parser_new.
    rewrite GetNextToken_end; [reflexivity|].
    apply get_ge_None. cbn [m_text m_pos]. lia. }
  split; [exact H|]. intros io. unfold main_body. rewrite H. reflexivity.
Qed.

Lemma blank_line_is_invalid_witness :
  all_chars isspace "   " = true
  /\ translate "   " = Throw (runtime_error "can't parse atom").
Proof.
  split; [reflexivity|].
  apply (blank_line_is_invalid "   "). reflexivity.
Defined.

Lemma is_operator_char_cases (c : ascii) :
  is_operator_char c = true ->
  c = "+"%char \/ c = "-"%char \/ c = "*"%char \/ c = "/"%char
  \/ c = "("%char \/ c = ")"%char.
Proof.
  unfold is_operator_char. intros H.
  repeat (apply orb_prop in H as [H|H]);
    apply Ascii.eqb_eq in H; tauto.
Qed.

(** X5. There is no unary operator: a line whose first character behind
    optional white space is [+], [-], [*], [/] or [)] is rejected with
    [std::runtime_error("can't parse atom")], whatever follows; so is
    ["-1"]. *)
Theorem leading_operator_is_invalid (ws rest : string) (c : ascii) :
  all_chars isspace ws = true ->
  is_operator_char c = true -> c <> "("%char ->
  translate (ws ++ String c rest) = Throw (runtime_error "can't parse atom").
Proof.
  intros Hws Hc Hparen.
  assert (Hget : get (length ws) (ws ++ String c rest) = Some c)
    by apply get_append_end.
  assert (HP : exists ty,
             Parser_new (mkLexer (ws ++ String c rest) 0)
             = Ok (mkParser (mkLexer (ws ++ String c rest) (S (length ws)))
                     (mkToken ty None))
             /\ ty <> Number /\ ty <> Identifier /\ ty <> LeftParen).
  { rewrite Parser_new_spaces by exact Hws.
    unfold Parser_new, GetNextToken.
    destruct (chars_left (mkLexer (ws ++ String c rest) (length ws)));
      cbn [GetNextToken_loop m_text m_pos]; rewrite Hget;
      apply is_operator_char_cases in Hc;
      destruct Hc as [ -> | [ -> | [ -> | [ -> | [ -> | -> ] ] ] ] ];
      try congruence; cbn; eexists; (split; [reflexivity|]);
      repeat split; discriminate. }
  destruct HP as [ty [HP [N1 [N2 N3]]]].
  apply (translate_no_operand _ _ HP); unfold is_type; cbn [m_token type];
    destruct ty; try reflexivity; congruence.
Qed.

Lemma leading_operator_is_invalid_witness :
  all_chars isspace "" = true /\ is_operator_char "-" = true
  /\ translate "-1" = Throw (runtime_error "can't parse atom").
Proof.
  split; [reflexivity|]. split; [reflexivity|].
  apply (leading_operator_is_invalid "" "1" "-");
    [reflexivity | reflexivity | discriminate].
Defined.

(** ** The translation of a line, from its two halves *)

(** X6. For a line shorter than [INT_MAX] characters the translation is
    decided by the parser alone: when [ParseAddSub] returns a tree, the
    tree is over the four operators, has at most as many nodes as the line
    has characters, and the line is translated to the post-order code of
    that tree, so code generation cannot fail behind a parse; when the
    parser throws, the translation throws the same exception. *)
Theorem translate_is_parse_then_generate (line : string) :
  (Z.of_nat (length line) < INT_MAX)%Z ->
  match (q <- Parser_new (mkLexer line 0) ;; ParseAddSub q) with
  | Ok (ast, _) =>
      unknown_operators ast = 0 /\ nodes ast <= length line
      /\ translate line
         = Ok (render (post_order ast 1) ++ "%result = "
               ++ result_register (post_order ast 1))
  | Throw e => translate line = Throw e
  | Undefined | NoFuel => False
  end.
Proof.
  intros Hlen. rewrite translate_alt.
  pose proof (Parser_new_outcome line) as HP.
  destruct (Parser_new (mkLexer line 0)) as [p|e| |]; cbn [bind];
    try contradiction; [|reflexivity].
  destruct HP as [Hv [_ Hle]].
  pose proof (ParseAddSub_parsed p Hv) as HA.
  destruct (ParseAddSub p) as [[ast p']|e| |]; cbn [bind parsed] in *;
    try contradiction; [|reflexivity].
  destruct HA as [_ [_ [Hn [HU _]]]].
  split; [exact HU|]. split; [lia|].
  pose proof (Generate_closed_form ast SimpleCodeGenerator_new HU) as HG.
  cbv zeta in HG.
  cbn [SimpleCodeGenerator_new m_registerId m_code m_registers] in HG.
  rewrite HG by lia. reflexivity.
Qed.

Lemma translate_is_parse_then_generate_witness :
  (Z.of_nat (length "a * (b + 1)") < INT_MAX)%Z
  /\ translate "a * (b + 1)"
     = Ok (ir ["%x1 = %a"; "%x2 = %b"; "%x3 = 1.000000";
               "%addtmp4 = add %x2 %x3"; "%multmp5 = mul %x1 %addtmp4";
               "%result = %multmp5"]).
Proof.
  assert (Hlen : (Z.of_nat (length "a * (b + 1)") < INT_MAX)%Z)
    by (vm_compute; reflexivity).
  split; [exact Hlen|].
  pose proof (translate_is_parse_then_generate "a * (b + 1)" Hlen) as H.
  vm_compute in H. destruct H as [_ [_ H]].
  vm_compute. exact H.
Defined.

(** ** A whole session *)

Lemma main_body_outcome (line : string) (io : Console) :
  (Z.of_nat (length line) < INT_MAX)%Z ->
  main_body line io
  = Ok (mkConsole (cout io ++ line_cout line) (cerr io ++ line_cerr line)).
Proof.
  intros Hlen. unfold main_body, line_cout, line_cerr, put_cout, put_cerr.
  destruct (translate_outcome line Hlen) as [[code H]|[e H]]; rewrite H;
    rewrite append_nil_r; reflexivity.
Qed.

(** X7. The driver never stops at a line it cannot translate: on any
    input whose lines are shorter than [INT_MAX] characters [main] runs
    to the end of the input and returns; [std::cout] receives the prompt
    before every line and once more at the end of the input, and behind
    the prompt of a valid line its code and a line end; [std::cerr]
    receives one line [invalid expression] for every invalid line, in
    order. *)
Theorem main_runs_every_line (cin : list string) :
  Forall (fun line => (Z.of_nat (length line) < INT_MAX)%Z) cin ->
  forall io,
    main cin io
    = Ok (mkConsole (cout io ++ session_cout cin)
            (cerr io ++ session_cerr cin)).
Proof.
  induction 1 as [|line cin Hlen _ IH]; intros io.
  - cbn [main session_cout session_cerr]. unfold put_cout.
    rewrite !append_nil_r. reflexivity.
  - cbn [main session_cout session_cerr].
    rewrite main_body_outcome by exact Hlen. cbn [bind]. rewrite IH.
    unfold put_cout. cbn [cout cerr]. rewrite !append_assoc. reflexivity.
Qed.

Lemma main_runs_every_line_witness :
  main ["1 +"; "x"] (mkConsole "" "")
  = Ok (mkConsole
          (">>> " ++ ">>> " ++ ir ["%x1 = %x"; "%result = %x1"] ++ newline
           ++ ">>> ")
          ("invalid expression" ++ newline)).
Proof.
  apply (main_runs_every_line ["1 +"; "x"]).
  repeat (constructor; [vm_compute; reflexivity|]). constructor.
Defined.

(** ** The lexer along a line *)

Lemma GetNextToken_times_S (n : nat) (L L1 : Lexer) (tok : Token) :
  GetNextToken L = Ok (tok, L1) ->
  GetNextToken_times (S n) L
  = ('(toks, L') <- GetNextToken_times n L1 ;; Ok (tok :: toks, L')).
Proof. intros H. cbn [GetNextToken_times]. rewrite H. reflexivity. Qed.

(** X8. Scanning a line always comes to an end.  [GetNextToken] called
    again and again from any lexer state neither loops nor leaves the
    text: after at most as many tokens as there are characters left it
    returns EndOfFile with nothing left to scan, unless a call before
    throws [std::invalid_argument] for an unknown character of the text;
    the text itself is never changed. *)
Theorem lexer_reaches_the_end (L : Lexer) :
  exists n,
    n <= chars_left L
    /\ match GetNextToken_times (S n) L with
       | Ok (toks, L') =>
           m_text L' = m_text L /\ chars_left L' = 0
           /\ exists front last,
                toks = (front ++ [last])%list /\ List.length front = n
                /\ TokenType_eqb (type last) EndOfFile = true
                /\ forallb
                     (fun t => negb (TokenType_eqb (type t) EndOfFile))
                     front = true
       | Throw e =>
           exists pos ch,
             e = lex_error pos ch /\ get pos (m_text L) = Some ch
             /\ unknown_char ch = true
       | Undefined | NoFuel => False
       end.
Proof.
  remember (chars_left L) as k eqn:Hk. revert L Hk.
  induction k as [k IH] using lt_wf_ind. intros L Hk.
  pose proof (GetNextToken_scanned _ L eq_refl) as HS.
  destruct (GetNextToken L) as [[tok L1]|e| |] eqn:HG; cbn [scanned] in HS;
    try contradiction.
  - destruct HS as [_ [Ht Hleft]].
    destruct (TokenType_eqb (type tok) EndOfFile) eqn:HE.
    + exists 0. split; [lia|].
      rewrite (GetNextToken_times_S 0 L L1 tok HG). cbn [GetNextToken_times bind].
      split; [exact Ht|]. split; [exact Hleft|].
      exists [], tok. repeat split. exact HE.
    + destruct (IH (chars_left L1) ltac:(lia) L1 eq_refl) as [n [Hn H1]].
      exists (S n). split; [lia|].
      rewrite (GetNextToken_times_S (S n) L L1 tok HG).
      destruct (GetNextToken_times (S n) L1) as [[toks L2]|e| |];
        cbn [bind]; try contradiction.
      * destruct H1 as [Ht2 [H0 [front [last [-> [Hlen [HL HF]]]]]]].
        split; [congruence|]. split; [exact H0|].
        exists (tok :: front), last. cbn [app List.length forallb].
        rewrite HE, HF, Hlen. repeat split. exact HL.
      * rewrite <- Ht. exact H1.
  - exists 0. split; [lia|]. cbn [GetNextToken_times]. rewrite HG.
    cbn [bind]. exact HS.
Qed.


Lemma split_at (text : string) : forall pos,
  pos <= length text ->
  exists pre suf, text = pre ++ suf /\ length pre = pos.
Proof.
  induction text as [|ch text IH]; intros [|pos] Hle; cbn [length] in Hle.
  - exists "", "". split; reflexivity.
  - lia.
  - exists "", (String ch text). split; reflexivity.
  - destruct (IH pos ltac:(lia)) as [pre [suf [-> Hlen]]].
    exists (String ch pre), suf. cbn [append length]. split; congruence.
Qed.

Lemma span (P : ascii -> bool) (s : string) :
  exists run rest,
    s = run ++ rest /\ all_chars P run = true /\ stops P rest = true.
Proof.
  induction s as [|ch s [run [rest [E [Ha Hs]]]]].
  - exists "", "". repeat split.
  - destruct (P ch) eqn:HP.
    + exists (String ch run), rest. cbn [append all_chars].
      rewrite HP, Ha, <- E. repeat split. exact Hs.
    + exists "", (String ch s). cbn [append all_chars stops].
      rewrite HP. repeat split.
Qed.

Lemma span_nonempty (P : ascii -> bool) (ch : ascii) (s run rest : string) :
  String ch s = run ++ rest -> stops P rest = true -> P ch = true ->
  exists run', run = String ch run'.
Proof.
  intros E Hs HP. destruct run as [|c run'].
  - cbn [append] in E. subst rest. cbn [stops] in Hs. rewrite HP in Hs.
    discriminate.
  - cbn [append] in E. injection E as <- _. eauto.
Qed.

Lemma is_literal_intro (ch : ascii) (ds : string) (fraction : option string) :
  all_chars isdigit (String ch ds) = true ->
  match fraction with
  | Some fs => all_chars isdigit fs = true
  | None => True
  end ->
  is_literal (String ch ds) fraction = true.
Proof.
  intros H1 H2. unfold is_literal. rewrite H1.
  destruct fraction; [rewrite H2|]; reflexivity.
Qed.

Lemma token_at (pre s : string) (tok : Token) (L' : Lexer) :
  stops isspace s = true ->
  GetNextToken (mkLexer (pre ++ s) (length pre)) = Ok (tok, L') ->
  exists lexeme rest,
    s = lexeme ++ rest
    /\ L' = mkLexer (pre ++ s) (length pre + length lexeme)
    /\ lexeme_of tok lexeme rest.
Proof.
  intros Hsp H.
  pose proof (get_at_prefix pre s) as Hget.
  destruct s as [|ch s'].
  - rewrite (GetNextToken_end (mkLexer _ _)) in H by exact Hget.
    injection H as <- <-.
    exists "", "". cbn [length]. rewrite Nat.add_0_r. repeat split.
  - cbn [stops] in Hsp. apply negb_true_iff in Hsp.
    destruct (isdigit ch) eqn:Hd; [|destruct (isalpha ch) eqn:Ha;
      [|destruct (is_operator_char ch) eqn:Ho]].
    + rewrite (GetNextToken_digit (mkLexer _ _) ch Hget Hd) in H.
      destruct (span isdigit (String ch s')) as [ds [r1 [E [Hds Hr1]]]].
      destruct (span_nonempty _ _ _ _ _ E Hr1 Hd) as [ds' Eds].
      rewrite E in H |- *.
      destruct r1 as [|c r2]; [|destruct (c =? ".")%char eqn:Hdot].
      * rewrite ReadAsNumberConstant_digits in H by (assumption || reflexivity).
        injection H as <- <-. exists ds, "". repeat split.
        exists ds, None. subst ds.
        rewrite is_literal_intro by (exact Hds || exact I). repeat split.
      * apply Ascii.eqb_eq in Hdot. subst c.
        destruct (span isdigit r2) as [fs [rest [E2 [Hfs Hrest]]]].
        subst r2.
        change (String "." (fs ++ rest)) with ("." ++ fs ++ rest) in H |- *.
        rewrite ReadAsNumberConstant_fraction in H by assumption.
        injection H as <- <-.
        exists (ds ++ "." ++ fs), rest. rewrite !append_assoc.
        split; [reflexivity|]. split; [reflexivity|].
        split; [reflexivity|].
        exists ds, (Some fs). subst ds.
        rewrite is_literal_intro by assumption.
        repeat split; [exact Hrest|discriminate].
      * rewrite ReadAsNumberConstant_digits in H
          by (try assumption; cbn [stops]; rewrite Hdot; reflexivity).
        injection H as <- <-. exists ds, (String c r2). repeat split.
        exists ds, None. subst ds.
        rewrite is_literal_intro by (exact Hds || exact I).
        repeat split; [exact Hr1|]. cbn [stops]. rewrite Hdot. reflexivity.
    + rewrite (GetNextToken_alpha (mkLexer _ _) ch Hget Ha) in H.
      destruct (isalpha_class ch Ha) as [_ [_ Hic]].
      destruct (span identifier_char (String ch s')) as [x [rest [E [Hx Hrest]]]].
      destruct (span_nonempty _ _ _ _ _ E Hrest Hic) as [x' Ex].
      rewrite E in H |- *.
      rewrite ReadAsIdentifier_run in H by assumption.
      injection H as <- <-. exists x, rest. repeat split; [|exact Hrest].
      subst x. cbn [is_identifier]. rewrite Ha, Hx. reflexivity.
    + exists (String ch ""), s'. cbn [append length].
      unfold GetNextToken in H.
      destruct (chars_left (mkLexer (pre ++ String ch s') (length pre)));
        cbn [GetNextToken_loop m_text m_pos] in H; rewrite Hget in H;
        apply is_operator_char_cases in Ho;
        destruct Ho as [ -> | [ -> | [ -> | [ -> | [ -> | -> ] ] ] ] ];
        cbn in H; injection H as <- <-; unfold advance; cbn [m_text m_pos];
        rewrite Nat.add_1_r; repeat split; eexists; split; reflexivity.
    + rewrite (GetNextToken_unknown (mkLexer _ _) ch Hget) in H; [discriminate|].
      unfold unknown_char. rewrite Hsp, Hd, Ha, Ho. reflexivity.
Qed.

(** X9. Every token is a piece of the line.  A call of [GetNextToken]
    that returns has skipped the white space [ws] at the scan position,
    taken the text [lexeme] behind it and left the scan position at its
    end.  For a Number token [lexeme] is the token's value: the longest
    run of digits, with a dot and the longest run of digits behind it
    (which may be empty) when a dot follows the first run; for an
    Identifier it is the value too: a letter followed by the longest run
    of letters, digits and ['_']; for an operator or parenthesis it is
    the one character; EndOfFile is returned only when nothing but the
    white space was left. *)
Theorem token_is_longest_lexeme (L : Lexer) (tok : Token) (L' : Lexer) :
  m_pos L <= length (m_text L) ->
  GetNextToken L = Ok (tok, L') ->
  exists pre ws lexeme rest,
    m_text L = pre ++ ws ++ lexeme ++ rest
    /\ length pre = m_pos L
    /\ all_chars isspace ws = true
    /\ stops isspace (lexeme ++ rest) = true
    /\ L' = mkLexer (m_text L) (m_pos L + length ws + length lexeme)
    /\ lexeme_of tok lexeme rest.
Proof.
  destruct L as [text pos]. cbn [m_text m_pos]. intros Hpos H.
  destruct (split_at text pos Hpos) as [pre [s [-> Hlen]]].
  destruct (span isspace s) as [ws [s1 [-> [Hws Hs1]]]].
  subst pos. rewrite GetNextToken_spaces in H by exact Hws.
  rewrite <- append_assoc, <- length_append in H.
  destruct (token_at _ _ _ _ Hs1 H) as [lexeme [rest [-> [HL' Hlex]]]].
  exists pre, ws, lexeme, rest.
  rewrite length_append, append_assoc in HL'.
  repeat split; assumption.
Qed.

Lemma token_is_longest_lexeme_witness :
  exists pre ws lexeme rest,
    "x + 12.5a" = pre ++ ws ++ lexeme ++ rest
    /\ length pre = 3 /\ ws = " " /\ lexeme = "12.5" /\ rest = "a".
Proof.
  destruct (token_is_longest_lexeme (mkLexer "x + 12.5a" 3)
              (mkToken Number (Some "12.5")) (mkLexer "x + 12.5a" 8))
    as [pre [ws [lexeme [rest [E [Hlen [Hws [_ [HL [Hv _]]]]]]]]]];
    [simpl; lia | reflexivity |].
  exists pre, ws, lexeme, rest. cbn [m_text m_pos type] in *.
  injection Hv as <-. injection HL as HL.
  split; [exact E|]. split; [exact Hlen|].
  assert (Hw : length ws = 1) by (cbn [length] in HL; lia).
  destruct pre as [|c0 [|c1 [|c2 [|c3 pre]]]]; try discriminate.
  cbn [append] in E. injection E as <- <- <- E.
  destruct ws as [|w [|w' ws]]; try discriminate.
  cbn [append] in E. injection E as <- E.
  subst rest. repeat split.
Defined.

(** ** More fuel changes nothing *)

Lemma ParseAtom_refines (rec1 rec2 : parse_fn) :
  refines rec1 rec2 -> refines (ParseAtom rec1) (ParseAtom rec2).
Proof.
  intros H p. unfold ParseAtom.
  destruct (is_type Number p); [right; reflexivity|].
  destruct (is_type Identifier p); [right; reflexivity|].
  destruct (is_type LeftParen p); [|right; reflexivity].
  destruct (Eat LeftParen p) as [q| | |]; cbn [bind]; try (right; reflexivity).
  destruct (H q) as [HN|HE]; [left; rewrite HN; reflexivity|].
  right. rewrite HE. reflexivity.
Qed.

Lemma ParseMulDiv_loop_refines (atom1 atom2 : parse_fn) :
  refines atom1 atom2 ->
  forall k1 k2 node,
    k1 <= k2 ->
    refines (ParseMulDiv_loop atom1 k1 node) (ParseMulDiv_loop atom2 k2 node).
Proof.
  intros H. induction k1 as [|k1 IH]; intros k2 node Hk p.
  - cbn [ParseMulDiv_loop].
    destruct (is_type Mul p || is_type Div p) eqn:Hc; [left; reflexivity|].
    right. rewrite ParseMulDiv_loop_exit by exact Hc. reflexivity.
  - destruct k2 as [|k2]; [lia|]. cbn [ParseMulDiv_loop].
    destruct (is_type Mul p || is_type Div p); [|right; reflexivity].
    cbv zeta.
    destruct (if is_type Mul p then Eat Mul p
              else if is_type Div p then Eat Div p else Ok p)
      as [q| | |]; cbn [bind]; try (right; reflexivity).
    destruct (H q) as [HN|HE]; [left; rewrite HN; reflexivity|].
    rewrite HE. destruct (atom1 q) as [[rhs p']| | |]; cbn [bind];
      try (right; reflexivity).
    apply IH. lia.
Qed.

Lemma ParseMulDiv_refines (atom1 atom2 : parse_fn) (k1 k2 : nat) :
  refines atom1 atom2 -> k1 <= k2 ->
  refines (ParseMulDiv atom1 k1) (ParseMulDiv atom2 k2).
Proof.
  intros H Hk p. unfold ParseMulDiv.
  destruct (H p) as [HN|HE]; [left; rewrite HN; reflexivity|].
  rewrite HE. destruct (atom1 p) as [[node p']| | |]; cbn [bind];
    try (right; reflexivity).
  apply ParseMulDiv_loop_refines; assumption.
Qed.

Lemma ParseAddSub_loop_refines (muldiv1 muldiv2 : parse_fn) :
  refines muldiv1 muldiv2 ->
  forall k1 k2 node,
    k1 <= k2 ->
    refines (ParseAddSub_loop muldiv1 k1 node)
      (ParseAddSub_loop muldiv2 k2 node).
Proof.
  intros H. induction k1 as [|k1 IH]; intros k2 node Hk p.
  - cbn [ParseAddSub_loop].
    destruct (is_type Plus p || is_type Minus p) eqn:Hc; [left; reflexivity|].
    right. rewrite ParseAddSub_loop_exit by exact Hc. reflexivity.
  - destruct k2 as [|k2]; [lia|]. cbn [ParseAddSub_loop].
    destruct (is_type Plus p || is_type Minus p); [|right; reflexivity].
    cbv zeta.
    destruct (if is_type Plus p then Eat Plus p
              else if is_type Minus p then Eat Minus p else Ok p)
      as [q| | |]; cbn [bind]; try (right; reflexivity).
    destruct (H q) as [HN|HE]; [left; rewrite HN; reflexivity|].
    rewrite HE. destruct (muldiv1 q) as [[rhs p']| | |]; cbn [bind];
      try (right; reflexivity).
    apply IH. lia.
Qed.

Lemma ParseAddSub_rec_refines : forall f1 f2,
  f1 <= f2 -> refines (ParseAddSub_rec f1) (ParseAddSub_rec f2).
Proof.
  induction f1 as [|f1 IH]; intros f2 Hf p; [left; reflexivity|].
  destruct f2 as [|f2]; [lia|]. cbn [ParseAddSub_rec]. cbv zeta.
  assert (HM : refines (ParseMulDiv (ParseAtom (ParseAddSub_rec f1)) f1)
                 (ParseMulDiv (ParseAtom (ParseAddSub_rec f2)) f2)).
  { apply ParseMulDiv_refines; [|lia].
    apply ParseAtom_refines, IH. lia. }
  destruct (HM p) as [HN|HE]; [left; rewrite HN; reflexivity|].
  rewrite HE.
  destruct (ParseMulDiv (ParseAtom (ParseAddSub_rec f1)) f1 p)
    as [[node p']| | |]; cbn [bind]; try (right; reflexivity).
  apply ParseAddSub_loop_refines; [exact HM|lia].
Qed.

(** What [ParseAddSub_rec] returns at some fuel without being cut short
    is what [ParseAddSub] returns. *)
Lemma ParseAddSub_at_some_fuel (p : Parser) (f : nat)
    (r : result (ExpressionAST * Parser)) :
  has_value (m_token p) = true ->
  ParseAddSub_rec f p = r -> r <> NoFuel -> ParseAddSub p = r.
Proof.
  intros Hv Hr HN. unfold ParseAddSub.
  pose proof (ParseAddSub_rec_parsed (S (tokens_left p)) p Hv
                ltac:(lia)) as HP.
  destruct (ParseAddSub_rec_refines f (Nat.max f (S (tokens_left p)))
              ltac:(lia) p) as [H1|H1]; [congruence|].
  destruct (ParseAddSub_rec_refines (S (tokens_left p))
              (Nat.max f (S (tokens_left p))) ltac:(lia) p) as [H2|H2].
  - rewrite H2 in HP. contradiction.
  - congruence.
Qed.

(** ** Written expressions are parsed to their trees *)

Lemma TokenType_eqb_refl (ty : TokenType) : TokenType_eqb ty ty = true.
Proof. destruct ty; reflexivity. Qed.

Lemma Eat_parser_at (ty : TokenType) (text : string) (pos : nat)
    (tok : Token) :
  type tok = ty ->
  Eat ty (mkParser (mkLexer text pos) tok) = parser_at text pos.
Proof.
  intros <-. unfold Eat, is_type, parser_at, Parser_new.
  cbn [m_token m_lexer]. rewrite TokenType_eqb_refl. reflexivity.
Qed.

Lemma parser_at_spaces (text pre ws rest : string) :
  text = pre ++ ws ++ rest -> all_chars isspace ws = true ->
  parser_at text (length pre) = parser_at text (length pre + length ws).
Proof.
  intros -> H. unfold parser_at, Parser_new.
  rewrite GetNextToken_spaces by exact H. reflexivity.
Qed.

Lemma parser_at_end (text : string) :
  parser_at text (length text)
  = Ok (mkParser (mkLexer text (length text)) EndOfFile_token).
Proof.
  unfold parser_at, Parser_new.
  rewrite GetNextToken_end; [reflexivity|].
  apply get_ge_None. cbn [m_text m_pos]. lia.
Qed.

Lemma parser_at_char (text pre rest : string) (c : ascii) (ty : TokenType) :
  text = pre ++ String c rest -> operator_char ty = Some c ->
  parser_at text (length pre)
  = Ok (mkParser (mkLexer text (S (length pre))) (mkToken ty None)).
Proof.
  intros -> Hc. pose proof (get_append_end pre c rest) as Hget.
  unfold parser_at, Parser_new, GetNextToken.
  destruct (chars_left (mkLexer (pre ++ String c rest) (length pre)));
    cbn [GetNextToken_loop m_text m_pos]; rewrite Hget;
    destruct ty; try discriminate; injection Hc as <-; reflexivity.
Qed.

Lemma operator_char_token_type_of (op : ascii) :
  supported_operator op = true ->
  operator_char (token_type_of op) = Some op.
Proof.
  intros H. apply supported_operator_cases in H.
  destruct H as [ -> | [ -> | [ -> | -> ] ] ]; reflexivity.
Qed.

Lemma stops_continues_token (suf : string) :
  stops continues_token suf = true ->
  stops isdigit suf = true /\ stops identifier_char suf = true
  /\ stops (fun ch => (ch =? ".")%char) suf = true.
Proof.
  destruct suf as [|ch suf]; [repeat split|]. cbn [stops].
  unfold continues_token. intros H. apply negb_true_iff in H.
  apply orb_false_elim in H as [H H3]. apply orb_false_elim in H as [H1 H2].
  rewrite H1, H2, H3. repeat split.
Qed.

Lemma isspace_ends_token (ch : ascii) :
  isspace ch = true -> continues_token ch = false.
Proof. by_bits ch. Qed.

Lemma stops_after_spaces (ws suf : string) :
  all_chars isspace ws = true -> stops continues_token suf = true ->
  stops continues_token (ws ++ suf) = true.
Proof.
  destruct ws as [|ch ws]; [intros _ H; exact H|].
  cbn [all_chars append stops]. intros H _. apply andb_prop in H as [H _].
  rewrite (isspace_ends_token ch H). reflexivity.
Qed.

Lemma operator_ends_token (op : ascii) :
  is_operator_char op = true -> continues_token op = false.
Proof.
  intros H. apply is_operator_char_cases in H.
  destruct H as [ -> | [ -> | [ -> | [ -> | [ -> | -> ] ] ] ] ]; reflexivity.
Qed.

Lemma parser_at_identifier (text pre x suf : string) :
  text = pre ++ x ++ suf -> is_identifier x = true ->
  stops identifier_char suf = true ->
  parser_at text (length pre)
  = Ok (mkParser (mkLexer text (length pre + length x))
          (mkToken Identifier (Some x))).
Proof.
  intros -> Hid Hst.
  destruct (is_identifier_parts x Hid) as [ch [x' [E [Ha Hall]]]].
  assert (Hget : get (length pre) (pre ++ x ++ suf) = Some ch)
    by (rewrite get_at_prefix, E; reflexivity).
  unfold parser_at, Parser_new.
  rewrite (GetNextToken_alpha (mkLexer _ _) ch Hget Ha).
  rewrite ReadAsIdentifier_run by assumption. reflexivity.
Qed.

Lemma is_literal_parts (ds : string) (fraction : option string) :
  is_literal ds fraction = true ->
  (exists ch ds', ds = String ch ds' /\ isdigit ch = true)
  /\ all_chars isdigit ds = true
  /\ match fraction with
     | Some fs => all_chars isdigit fs = true
     | None => True
     end.
Proof.
  unfold is_literal. intros H.
  apply andb_prop in H as [H Hfr]. apply andb_prop in H as [Hne Hds].
  split; [|split; [exact Hds|destruct fraction; [exact Hfr|exact I]]].
  destruct ds as [|ch ds']; [discriminate|].
  cbn [all_chars] in Hds. apply andb_prop in Hds as [Hd _]. eauto.
Qed.

Lemma parser_at_literal (text pre ds suf : string)
    (fraction : option string) :
  text = pre ++ literal_text ds fraction ++ suf ->
  is_literal ds fraction = true -> stops continues_token suf = true ->
  parser_at text (length pre)
  = Ok (mkParser
          (mkLexer text (length pre + length (literal_text ds fraction)))
          (mkToken Number (Some (literal_text ds fraction)))).
Proof.
  intros -> Hlit Hst.
  destruct (is_literal_parts ds fraction Hlit)
    as [[ch [ds' [E Hd]]] [Hds Hfr]].
  destruct (stops_continues_token suf Hst) as [S1 [_ S3]].
  assert (Hget : get (length pre) (pre ++ literal_text ds fraction ++ suf)
                 = Some ch).
  { rewrite get_at_prefix, E. destruct fraction; reflexivity. }
  unfold parser_at, Parser_new.
  rewrite (GetNextToken_digit (mkLexer _ _) ch Hget Hd).
  destruct fraction as [fs|]; cbn [literal_text].
  - rewrite !append_assoc.
    rewrite ReadAsNumberConstant_fraction by assumption. reflexivity.
  - rewrite ReadAsNumberConstant_digits by assumption. reflexivity.
Qed.

Lemma ParseMulDiv_loop_step (atom : parse_fn) (k : nat)
    (node rhs : ExpressionAST) (p q p' : Parser) (op : ascii) :
  multiplicative op = true -> type (m_token p) = token_type_of op ->
  Eat (token_type_of op) p = Ok q -> atom q = Ok (rhs, p') ->
  ParseMulDiv_loop atom (S k) node p
  = ParseMulDiv_loop atom k (BinaryExpressionAST node rhs op) p'.
Proof.
  intros Hop Ht HE HA.
  destruct (multiplicative_step p op Hop Ht) as [S1 [S2 S3]].
  cbn [ParseMulDiv_loop]. rewrite S1, S2, S3, HE. cbn [bind].
  rewrite HA. reflexivity.
Qed.

Lemma ParseAddSub_loop_step (muldiv : parse_fn) (k : nat)
    (node rhs : ExpressionAST) (p q p' : Parser) (op : ascii) :
  additive op = true -> type (m_token p) = token_type_of op ->
  Eat (token_type_of op) p = Ok q -> muldiv q = Ok (rhs, p') ->
  ParseAddSub_loop muldiv (S k) node p
  = ParseAddSub_loop muldiv k (BinaryExpressionAST node rhs op) p'.
Proof.
  intros Hop Ht HE HA.
  destruct (additive_step p op Hop Ht) as [S1 [S2 S3]].
  cbn [ParseAddSub_loop]. rewrite S1, S2, S3, HE. cbn [bind].
  rewrite HA. reflexivity.
Qed.

Lemma parses_product_of_atom (text : string) (pos : nat)
    (node : ExpressionAST) (pend : Parser) :
  parses_atom text pos node pend -> parses_product text pos node pend.
Proof.
  intros [p [f0 [HP H]]]. exists p, f0, 0, node, pend.
  split; [exact HP|]. intros f Hf. split; [exact (H f Hf)|]. reflexivity.
Qed.

(** A product that no [*] or [/] follows is what [ParseMulDiv]
    returns. *)
Lemma parses_product_muldiv (text : string) (pos : nat)
    (node : ExpressionAST) (pend : Parser) :
  parses_product text pos node pend -> no_MulDiv pend ->
  exists p f0,
    parser_at text pos = Ok p
    /\ forall f, f0 <= f -> muldiv_fn f p = Ok (node, pend).
Proof.
  intros [p [f0 [n [a [p1 [HP H]]]]]] Hno. exists p, (Nat.max f0 n).
  split; [exact HP|]. intros f Hf.
  destruct (H f ltac:(lia)) as [Ha Hl].
  unfold muldiv_fn, ParseMulDiv. rewrite Ha. cbn [bind].
  specialize (Hl (f - n)). replace (n + (f - n)) with f in Hl by lia.
  rewrite Hl. apply ParseMulDiv_loop_exit. exact Hno.
Qed.

Lemma parses_sum_of_product (text : string) (pos : nat)
    (node : ExpressionAST) (pend : Parser) :
  parses_product text pos node pend -> no_MulDiv pend ->
  parses_sum text pos node pend.
Proof.
  intros H Hno.
  destruct (parses_product_muldiv _ _ _ _ H Hno) as [p [f0 [HP HM]]].
  exists p, f0, 0, node, pend.
  split; [exact HP|]. intros f Hf. split; [exact (HM f Hf)|]. reflexivity.
Qed.

(** A sum that no [+] or [-] follows is what [ParseAddSub] returns. *)
Lemma parses_sum_rec (text : string) (pos : nat) (node : ExpressionAST)
    (pend : Parser) :
  parses_sum text pos node pend ->
  is_type Plus pend || is_type Minus pend = false ->
  exists p f0,
    parser_at text pos = Ok p
    /\ forall f, f0 <= f -> ParseAddSub_rec f p = Ok (node, pend).
Proof.
  intros [p [f0 [n [m [p1 [HP H]]]]]] Hno. exists p, (S (Nat.max f0 n)).
  split; [exact HP|]. intros [|f] Hf; [lia|].
  destruct (H f ltac:(lia)) as [Hm Hl].
  cbn [ParseAddSub_rec]. cbv zeta. fold (atom_fn f). fold (muldiv_fn f).
  rewrite Hm. cbn [bind].
  specialize (Hl (f - n)). replace (n + (f - n)) with f in Hl by lia.
  rewrite Hl. apply ParseAddSub_loop_exit. exact Hno.
Qed.

Lemma parses_of_atom (level : nat) (text : string) (pos : nat)
    (node : ExpressionAST) (pend : Parser) :
  parses_atom text pos node pend -> parses level text pos node pend.
Proof.
  intros H. destruct level as [|[|level]]; cbn [parses]; [|
    apply parses_product_of_atom; exact H | exact H].
  intros Hno. apply parses_sum_of_product; [|exact Hno].
  apply parses_product_of_atom; exact H.
Qed.

Lemma parses_from (level : nat) (text : string) (pos pos' : nat)
    (node : ExpressionAST) (pend : Parser) :
  parser_at text pos = parser_at text pos' ->
  parses level text pos' node pend -> parses level text pos node pend.
Proof.
  intros E. destruct level as [|[|level]]; cbn [parses];
    unfold parses_sum, parses_product, parses_atom; rewrite E; auto.
Qed.

Ltac same_text :=
  subst; repeat (progress (rewrite ?append_assoc; cbn [append]));
  rewrite ?append_nil_r; reflexivity.

Ltac same_length :=
  rewrite ?length_append; cbn [length]; rewrite ?length_append; lia.

Lemma supported_operator_char (op : ascii) :
  supported_operator op = true -> is_operator_char op = true.
Proof.
  intros H. apply supported_operator_cases in H.
  destruct H as [ -> | [ -> | [ -> | -> ] ] ]; reflexivity.
Qed.

Lemma supported_not_multiplicative (op : ascii) :
  supported_operator op = true -> multiplicative op = false ->
  additive op = true.
Proof.
  intros H. apply supported_operator_cases in H.
  destruct H as [ -> | [ -> | [ -> | -> ] ] ]; intros H;
    try reflexivity; discriminate.
Qed.

Lemma additive_no_MulDiv (op : ascii) (L : Lexer) :
  additive op = true ->
  no_MulDiv (mkParser L (mkToken (token_type_of op) None)).
Proof.
  unfold additive. intros H.
  apply orb_prop in H as [H|H]; apply Ascii.eqb_eq in H; subst op;
    reflexivity.
Qed.

Lemma parse_written (e : Expr) :
  forall level pre suf text pend,
    text = pre ++ written e ++ suf ->
    stops continues_token suf = true ->
    parser_at text (length pre + length (written e)) = Ok pend ->
    grammatical level e = true ->
    parses level text (length pre) (tree e) pend.
Proof.
  induction e as [x|ds fraction|e' IH|l IHl op r IHr|ws1 e' IH ws2];
    intros level pre suf text pend Ht Hst Hend Hg;
    cbn [written tree grammatical] in *.
  - (* identifier *)
    apply parses_of_atom.
    destruct (stops_continues_token suf Hst) as [_ [S2 _]].
    exists (mkParser (mkLexer text (length pre + length x))
              (mkToken Identifier (Some x))), 0.
    split; [exact (parser_at_identifier text pre x suf Ht Hg S2)|].
    intros f _. unfold atom_fn. rewrite ParseAtom_Identifier.
    rewrite Eat_parser_at by reflexivity. rewrite Hend. reflexivity.
  - (* literal *)
    apply parses_of_atom. apply andb_prop in Hg as [Hlit Hle].
    exists (mkParser
              (mkLexer text (length pre + length (literal_text ds fraction)))
              (mkToken Number (Some (literal_text ds fraction)))), 0.
    split; [exact (parser_at_literal text pre ds suf fraction Ht Hlit Hst)|].
    intros f _. unfold atom_fn. rewrite ParseAtom_Number.
    rewrite Eat_parser_at by reflexivity. rewrite Hend. cbn [bind].
    rewrite stoi_literal by exact Hlit. rewrite Hle. reflexivity.
  - (* parentheses *)
    apply parses_of_atom.
    set (w := written e') in *.
    set (pre' := pre ++ "(").
    assert (Hlen' : length pre' = S (length pre))
      by (unfold pre'; same_length).
    set (pend' := mkParser (mkLexer text (S (length pre' + length w)))
                    (mkToken RightParen None)).
    assert (Ht' : text = pre' ++ w ++ (")" ++ suf))
      by (unfold pre'; same_text).
    assert (Hend' : parser_at text (length pre' + length w) = Ok pend').
    { unfold pend'. rewrite <- length_append.
      apply (parser_at_char text (pre' ++ w) suf ")" RightParen);
        [unfold pre'; same_text|reflexivity]. }
    pose proof (IH 0 pre' (")" ++ suf) text pend' Ht' eq_refl Hend' Hg)
      as HS.
    cbn [parses] in HS. specialize (HS eq_refl).
    destruct (parses_sum_rec _ _ _ _ HS eq_refl) as [q [f0 [HQ HR]]].
    exists (mkParser (mkLexer text (S (length pre)))
              (mkToken LeftParen None)), f0.
    split.
    { apply (parser_at_char text pre (w ++ ")" ++ suf) "(" LeftParen);
        [same_text|reflexivity]. }
    intros f Hf. unfold atom_fn, ParseAtom.
    unfold is_type at 1 2 3. cbn [m_token type TokenType_eqb].
    rewrite Eat_parser_at by reflexivity.
    rewrite <- Hlen', HQ. cbn [bind]. rewrite (HR f Hf). cbn [bind].
    unfold pend'. rewrite Eat_parser_at by reflexivity.
    replace (S (length pre' + length w))
      with (length pre + length ("(" ++ w ++ ")")) by same_length.
    rewrite Hend. reflexivity.
  - (* operator *)
    apply andb_prop in Hg as [Hg Hgr]. apply andb_prop in Hg as [Hg Hgl].
    apply andb_prop in Hg as [Hop Hlevel].
    set (wl := written l) in *. set (wr := written r) in *.
    set (pre_r := pre ++ wl ++ String op "").
    assert (Hlen_r : length pre_r = S (length pre + length wl))
      by (unfold pre_r; same_length).
    set (pend_l := mkParser (mkLexer text (S (length pre + length wl)))
                     (mkToken (token_type_of op) None)).
    assert (Ht_l : text = pre ++ wl ++ (String op wr ++ suf)) by same_text.
    assert (Ht_r : text = pre_r ++ wr ++ suf) by (unfold pre_r; same_text).
    assert (Hst_l : stops continues_token (String op wr ++ suf) = true).
    { cbn [append stops].
      rewrite (operator_ends_token op (supported_operator_char op Hop)).
      reflexivity. }
    assert (Hend_l : parser_at text (length pre + length wl) = Ok pend_l).
    { unfold pend_l. rewrite <- length_append.
      apply (parser_at_char text (pre ++ wl) (wr ++ suf) op
               (token_type_of op));
        [same_text|exact (operator_char_token_type_of op Hop)]. }
    assert (Hend_r : parser_at text (length pre_r + length wr) = Ok pend).
    { rewrite <- Hend. f_equal. rewrite Hlen_r. same_length. }
    assert (HEat : Eat (token_type_of op) pend_l
                   = parser_at text (length pre_r)).
    { unfold pend_l. rewrite Eat_parser_at by reflexivity.
      rewrite Hlen_r. reflexivity. }
    unfold precedence in *. destruct (multiplicative op) eqn:Hm.
    + assert (HP : parses_product text (length pre)
                     (BinaryExpressionAST (tree l) (tree r) op) pend).
      { pose proof (IHl 1 pre _ text pend_l Ht_l Hst_l Hend_l Hgl) as Hl.
        pose proof (IHr 2 pre_r suf text pend Ht_r Hst Hend_r Hgr) as Hr.
        cbn [parses] in Hl, Hr.
        destruct Hl as [p [f0 [n [a [p1 [HP H]]]]]].
        destruct Hr as [q [g0 [HQ HR]]].
        exists p, (Nat.max f0 g0), (S n), a, p1. split; [exact HP|].
        intros f Hf. destruct (H f ltac:(lia)) as [Ha Hloop].
        split; [exact Ha|]. intros k.
        replace (S n + k) with (n + S k) by lia. rewrite Hloop.
        apply (ParseMulDiv_loop_step (atom_fn f) k (tree l) (tree r)
                 pend_l q pend op Hm eq_refl).
        - rewrite HEat. exact HQ.
        - apply HR. lia. }
      destruct level as [|[|level]]; cbn [parses].
      * intros Hno. apply parses_sum_of_product; assumption.
      * exact HP.
      * discriminate.
    + destruct level as [|level]; [|discriminate]. cbn [parses].
      intros Hno.
      pose proof (supported_not_multiplicative op Hop Hm) as Hadd.
      pose proof (IHl 0 pre _ text pend_l Ht_l Hst_l Hend_l Hgl) as Hl.
      pose proof (IHr 1 pre_r suf text pend Ht_r Hst Hend_r Hgr) as Hr.
      cbn [parses] in Hl, Hr.
      specialize (Hl (additive_no_MulDiv op _ Hadd)).
      destruct Hl as [p [f0 [n [m [p1 [HP H]]]]]].
      destruct (parses_product_muldiv _ _ _ _ Hr Hno) as [q [g0 [HQ HM]]].
      exists p, (Nat.max f0 g0), (S n), m, p1. split; [exact HP|].
      intros f Hf. destruct (H f ltac:(lia)) as [Ha Hloop].
      split; [exact Ha|]. intros k.
      replace (S n + k) with (n + S k) by lia. rewrite Hloop.
      apply (ParseAddSub_loop_step (muldiv_fn f) k (tree l) (tree r)
               pend_l q pend op Hadd eq_refl).
      * rewrite HEat. exact HQ.
      * apply HM. lia.
  - (* white space *)
    apply andb_prop in Hg as [Hg Hge]. apply andb_prop in Hg as [Hw1 Hw2].
    set (w := written e') in *.
    set (pre' := pre ++ ws1).
    assert (Ht' : text = pre' ++ w ++ (ws2 ++ suf))
      by (unfold pre'; same_text).
    assert (Hend' : parser_at text (length pre' + length w) = Ok pend).
    { rewrite <- length_append.
      rewrite (parser_at_spaces text (pre' ++ w) ws2 suf);
        [|unfold pre'; same_text|exact Hw2].
      rewrite <- Hend. f_equal. unfold pre'. same_length. }
    apply (parses_from level text (length pre) (length pre')).
    { unfold pre'. rewrite length_append.
      apply (parser_at_spaces text pre ws1 (w ++ ws2 ++ suf));
        [same_text|exact Hw1]. }
    exact (IH level pre' (ws2 ++ suf) text pend Ht'
             (stops_after_spaces ws2 suf Hw2 Hst) Hend' Hge).
Qed.

Lemma Parser_new_has_value (line : string) (p : Parser) :
  Parser_new (mkLexer line 0) = Ok p -> has_value (m_token p) = true.
Proof.
  intros H. pose proof (Parser_new_outcome line) as HP.
  rewrite H in HP. apply HP.
Qed.

Lemma parse_at_some_fuel (line : string) (p : Parser) (f : nat)
    (r : result (ExpressionAST * Parser)) :
  Parser_new (mkLexer line 0) = Ok p ->
  ParseAddSub_rec f p = r -> r <> NoFuel ->
  (q <- Parser_new (mkLexer line 0) ;; ParseAddSub q) = r.
Proof.
  intros HP Hr HN. rewrite HP. cbn [bind].
  exact (ParseAddSub_at_some_fuel p f r (Parser_new_has_value line p HP)
           Hr HN).
Qed.

Lemma translate_throws (line : string) (p : Parser) (f : nat)
    (e : exception) :
  Parser_new (mkLexer line 0) = Ok p ->
  ParseAddSub_rec f p = Throw e -> translate line = Throw e.
Proof.
  intros HP Hr. rewrite translate_alt.
  rewrite (parse_at_some_fuel line p f (Throw e) HP Hr) by discriminate.
  reflexivity.
Qed.

(** [ParseAddSub] on the text of an expression of the grammar. *)
Lemma ParseAddSub_written (e : Expr) :
  grammatical 0 e = true ->
  (q <- Parser_new (mkLexer (written e) 0) ;; ParseAddSub q)
  = Ok (tree e,
        mkParser (mkLexer (written e) (length (written e))) EndOfFile_token).
Proof.
  intros Hg.
  set (text := written e).
  set (pend := mkParser (mkLexer text (length text)) EndOfFile_token).
  assert (HS : parses 0 text (length "") (tree e) pend).
  { apply (parse_written e 0 "" "" text pend);
      [unfold text; cbn [append]; rewrite append_nil_r; reflexivity
      |reflexivity|apply parser_at_end|exact Hg]. }
  cbn [parses] in HS. specialize (HS eq_refl).
  destruct (parses_sum_rec _ _ _ _ HS eq_refl) as [q [f0 [HQ HR]]].
  apply (parse_at_some_fuel text q f0 _ HQ (HR f0 (le_n f0))).
  discriminate.
Qed.

Lemma grammatical_tree (e : Expr) : forall level,
  grammatical level e = true -> unknown_operators (tree e) = 0.
Proof.
  induction e as [x|ds fraction|e' IH|l IHl op r IHr|ws1 e' IH ws2];
    intros level H; cbn [grammatical tree unknown_operators] in *;
    try reflexivity.
  - exact (IH 0 H).
  - apply andb_prop in H as [H Hr]. apply andb_prop in H as [H Hl].
    apply andb_prop in H as [Hop _].
    rewrite Hop, (IHl _ Hl), (IHr _ Hr). reflexivity.
  - apply andb_prop in H as [_ H]. exact (IH level H).
Qed.

(** X10. Every expression of the grammar is parsed to the tree of its
    structure, however it is laid out.  For an expression written with
    identifiers, literals up to [INT_MAX], the four operators, any white
    space between the tokens and any parentheses, where a sum stands as
    an operand of [*] or [/] or as the right operand of [+] or [-] only
    in parentheses: [ParseAddSub] reads the whole line and returns the
    tree in which [*] and [/] bind tighter than [+] and [-], operators of
    one level nest to the left, and parentheses and white space leave no
    node; the line is translated to the post-order code of that tree. *)
Theorem written_expression_is_parsed_to_its_tree (e : Expr) :
  grammatical 0 e = true ->
  (q <- Parser_new (mkLexer (written e) 0) ;; ParseAddSub q)
  = Ok (tree e,
        mkParser (mkLexer (written e) (length (written e))) EndOfFile_token)
  /\ ((Z.of_nat (nodes (tree e)) < INT_MAX)%Z ->
      translate (written e)
      = Ok (render (post_order (tree e) 1) ++ "%result = "
            ++ result_register (post_order (tree e) 1))).
Proof.
  intros Hg. pose proof (ParseAddSub_written e Hg) as HP.
  split; [exact HP|]. intros Hsize.
  rewrite translate_alt, HP. cbn [bind].
  pose proof (Generate_closed_form (tree e) SimpleCodeGenerator_new
                (grammatical_tree e 0 Hg)) as HG.
  cbv zeta in HG.
  cbn [SimpleCodeGenerator_new m_registerId m_code m_registers] in HG.
  rewrite HG by lia. reflexivity.
Qed.

Lemma written_expression_is_parsed_to_its_tree_witness :
  written
    (EBin (EBlank "" (EId "a") " ") "-"
       (EBin (EBlank " " (EId "b") "")
          "*" (EParen (EBin (ELit "2" (Some "5")) "+" (EId "c")))))
  = "a - b*(2.5+c)"
  /\ (q <- Parser_new (mkLexer "a - b*(2.5+c)" 0) ;; ParseAddSub q)
     = Ok (BinaryExpressionAST (VariableRefAST "a")
             (BinaryExpressionAST (VariableRefAST "b")
                (BinaryExpressionAST (NumberAST 2) (VariableRefAST "c") "+")
                "*")
             "-",
           mkParser (mkLexer "a - b*(2.5+c)" 13) EndOfFile_token).
Proof.
  split; [reflexivity|].
  apply (written_expression_is_parsed_to_its_tree
           (EBin (EBlank "" (EId "a") " ") "-"
              (EBin (EBlank " " (EId "b") "")
                 "*" (EParen (EBin (ELit "2" (Some "5")) "+" (EId "c")))))).
  vm_compute. reflexivity.
Defined.

(** X11. A parenthesis that is not closed is an error of [Eat]: a line
    made of ["("] and an expression of the grammar, with nothing behind
    it, is rejected with [std::runtime_error("can't eat that token")],
    thrown when [ParseAtom] asks for the [RightParen] and the lookahead
    is EndOfFile. *)
Theorem unclosed_parenthesis_is_invalid (e : Expr) :
  grammatical 0 e = true ->
  translate ("(" ++ written e)
  = Throw (runtime_error "can't eat that token").
Proof.
  intros Hg.
  set (text := "(" ++ written e).
  set (pend := mkParser (mkLexer text (length text)) EndOfFile_token).
  assert (HS : parses 0 text (length "(") (tree e) pend).
  { apply (parse_written e 0 "(" "" text pend);
      [unfold text; rewrite append_nil_r; reflexivity
      |reflexivity|apply parser_at_end|exact Hg]. }
  cbn [parses] in HS. specialize (HS eq_refl).
  destruct (parses_sum_rec _ _ _ _ HS eq_refl) as [q [f0 [HQ HR]]].
  apply (translate_throws text
           (mkParser (mkLexer text 1) (mkToken LeftParen None)) (S f0)).
  - apply (parser_at_char text "" (written e) "(" LeftParen); reflexivity.
  - cbn [ParseAddSub_rec]. cbv zeta. unfold ParseMulDiv, ParseAtom.
    unfold is_type at 1 2 3. cbn [m_token type TokenType_eqb].
    rewrite Eat_parser_at by reflexivity.
    cbn [length] in HQ. rewrite HQ. cbn [bind].
    rewrite (HR f0 (le_n f0)). reflexivity.
Qed.

Lemma unclosed_parenthesis_is_invalid_witness :
  translate "(1 + x" = Throw (runtime_error "can't eat that token").
Proof.
  apply (unclosed_parenthesis_is_invalid
           (EBin (EBlank "" (ELit "1" None) " ") "+"
              (EBlank " " (EId "x") ""))).
  vm_compute. reflexivity.
Defined.

Lemma ParseAtom_at_end (rec : parse_fn) (L : Lexer) :
  ParseAtom rec (mkParser L EndOfFile_token)
  = Throw (runtime_error "can't parse atom").
Proof. reflexivity. Qed.

(** X12. An operator needs its right operand: a line made of an
    expression of the grammar, an operator and nothing but white space
    behind it is rejected with [std::runtime_error("can't parse atom")],
    for [+] and [-] behind a sum and for [*] and [/] behind a product. *)
Theorem missing_right_operand_is_invalid (e : Expr) (op : ascii)
    (ws : string) :
  supported_operator op = true -> grammatical (precedence op) e = true ->
  all_chars isspace ws = true ->
  translate (written e ++ String op ws)
  = Throw (runtime_error "can't parse atom").
Proof.
  intros Hop Hg Hws.
  set (w := written e). set (text := w ++ String op ws).
  set (pend := mkParser (mkLexer text (S (length w)))
                 (mkToken (token_type_of op) None)).
  set (pe := mkParser (mkLexer text (length text)) EndOfFile_token).
  assert (Hend : parser_at text (length "" + length w) = Ok pend).
  { apply (parser_at_char text w ws op (token_type_of op));
      [reflexivity|exact (operator_char_token_type_of op Hop)]. }
  assert (HS : parses (precedence op) text (length "") (tree e) pend).
  { apply (parse_written e (precedence op) "" (String op ws) text pend);
      [reflexivity| |exact Hend|exact Hg].
    cbn [stops].
    rewrite (operator_ends_token op (supported_operator_char op Hop)).
    reflexivity. }
  assert (HEat : Eat (token_type_of op) pend = Ok pe).
  { unfold pend. rewrite Eat_parser_at by reflexivity.
    replace (S (length w)) with (length (w ++ String op ""))
      by same_length.
    rewrite (parser_at_spaces text (w ++ String op "") ws "");
      [|unfold text; same_text|exact Hws].
    replace (length (w ++ String op "") + length ws) with (length text)
      by (unfold text; same_length).
    apply parser_at_end. }
  unfold precedence in HS. destruct (multiplicative op) eqn:Hm;
    cbn [parses] in HS.
  - destruct HS as [p [f0 [n [a [p1 [HP H]]]]]].
    destruct (multiplicative_step pend op Hm eq_refl) as [S1 [S2 S3]].
    apply (translate_throws text p (S (Nat.max f0 (S n))) _ HP).
    destruct (H (Nat.max f0 (S n)) ltac:(lia)) as [Ha Hloop].
    cbn [ParseAddSub_rec]. cbv zeta.
    fold (atom_fn (Nat.max f0 (S n))). unfold ParseMulDiv at 1.
    rewrite Ha. cbn [bind].
    specialize (Hloop (S (Nat.max f0 (S n) - S n))).
    replace (n + S (Nat.max f0 (S n) - S n)) with (Nat.max f0 (S n))
      in Hloop by lia.
    rewrite Hloop. cbn [ParseMulDiv_loop]. rewrite S1, S2, HEat.
    reflexivity.
  - pose proof (supported_not_multiplicative op Hop Hm) as Hadd.
    specialize (HS (additive_no_MulDiv op _ Hadd)).
    destruct HS as [p [f0 [n [m [p1 [HP H]]]]]].
    destruct (additive_step pend op Hadd eq_refl) as [S1 [S2 S3]].
    apply (translate_throws text p (S (Nat.max f0 (S n))) _ HP).
    destruct (H (Nat.max f0 (S n)) ltac:(lia)) as [Ha Hloop].
    cbn [ParseAddSub_rec]. cbv zeta.
    fold (atom_fn (Nat.max f0 (S n))).
    fold (muldiv_fn (Nat.max f0 (S n))).
    rewrite Ha. cbn [bind].
    specialize (Hloop (S (Nat.max f0 (S n) - S n))).
    replace (n + S (Nat.max f0 (S n) - S n)) with (Nat.max f0 (S n))
      in Hloop by lia.
    rewrite Hloop. cbn [ParseAddSub_loop]. rewrite S1, S2, HEat.
    reflexivity.
Qed.

Lemma missing_right_operand_is_invalid_witness :
  translate "a * b / " = Throw (runtime_error "can't parse atom").
Proof.
  apply (missing_right_operand_is_invalid
           (EBin (EBlank "" (EId "a") " ") "*" (EBlank " " (EId "b") " "))
           "/" " ");
    reflexivity.
Defined.

(** ** What is parsed is an expression of the grammar *)

Lemma parser_at_tail (pre tail : string) (p : Parser) :
  parser_at (pre ++ tail) (length pre) = Ok p ->
  exists ws lexeme rest,
    tail = ws ++ lexeme ++ rest /\ all_chars isspace ws = true
    /\ m_lexer p
       = mkLexer (pre ++ tail) (length pre + length ws + length lexeme)
    /\ lexeme_of (m_token p) lexeme rest.
Proof.
  intros H. unfold parser_at, Parser_new in H.
  destruct (GetNextToken (mkLexer (pre ++ tail) (length pre)))
    as [[tok L']| | |] eqn:HG; cbn [bind] in H; try discriminate.
  injection H as <-.
  destruct (span isspace tail) as [ws [s1 [-> [Hws Hs1]]]].
  rewrite GetNextToken_spaces in HG by exact Hws.
  rewrite <- append_assoc, <- length_append in HG.
  destruct (token_at _ _ _ _ Hs1 HG) as [lexeme [rest [-> [HL Hlex]]]].
  exists ws, lexeme, rest. cbn [m_lexer m_token].
  rewrite length_append, append_assoc in HL. auto.
Qed.

Lemma Eat_Ok_inv (ty : TokenType) (p q : Parser) :
  Eat ty p = Ok q ->
  type (m_token p) = ty /\ Parser_new (m_lexer p) = Ok q.
Proof.
  unfold Eat. destruct (is_type ty p) eqn:T; cbn [negb]; [|discriminate].
  intros H. split; [exact (is_type_eq ty p T)|exact H].
Qed.

Lemma grammatical_lower (e : Expr) : forall level,
  grammatical (S level) e = true -> grammatical level e = true.
Proof.
  induction e as [x|ds fraction|e' IH|l IHl op r IHr|ws1 e' IH ws2];
    intros level H; cbn [grammatical] in *; try exact H.
  - apply andb_prop in H as [H Hr]. apply andb_prop in H as [H Hl].
    apply andb_prop in H as [Hop Hlevel].
    rewrite Hop, Hl, Hr.
    apply Nat.leb_le in Hlevel.
    assert (E : (level <=? precedence op)%nat = true)
      by (apply Nat.leb_le; lia).
    rewrite E. reflexivity.
  - apply andb_prop in H as [H He]. rewrite H. cbn [andb]. apply IH, He.
Qed.

(** The token behind an expression already read, when it is an operator
    of the given two types: the white space before it, and the parser
    that [Eat] leaves. *)
Lemma operator_behind (text pre tail : string) (p q : Parser)
    (ty : TokenType) (c : ascii) :
  text = pre ++ tail -> parser_at text (length pre) = Ok p ->
  operator_char ty = Some c -> Eat ty p = Ok q ->
  exists ws rest,
    tail = ws ++ String c rest /\ all_chars isspace ws = true
    /\ parser_at text (length (pre ++ ws ++ String c "")) = Ok q.
Proof.
  intros -> HP Hc HE.
  destruct (parser_at_tail pre tail p HP)
    as [ws [lexeme [rest [-> [Hws [HL Hlex]]]]]].
  destruct (Eat_Ok_inv ty p q HE) as [Hty HQ].
  unfold lexeme_of in Hlex. rewrite Hty in Hlex.
  assert (E : lexeme = String c "").
  { destruct ty; try discriminate; destruct Hlex as [_ [c' [E1 E2]]];
      congruence. }
  subst lexeme. exists ws, rest. split; [reflexivity|].
  split; [exact Hws|].
  unfold parser_at. rewrite HL in HQ. rewrite <- HQ. f_equal. f_equal.
  same_length.
Qed.

Lemma ParseAtom_sound (rec : parse_fn) :
  sound 0 rec -> sound 2 (ParseAtom rec).
Proof.
  intros Hrec pre tail p node p' HP H.
  destruct (parser_at_tail pre tail p HP)
    as [ws [lexeme [rest [Etail [Hws [HL Hlex]]]]]].
  unfold ParseAtom in H. unfold lexeme_of in Hlex.
  destruct (is_type Number p) eqn:T1;
    [|destruct (is_type Identifier p) eqn:T2;
      [|destruct (is_type LeftParen p) eqn:T3; [|discriminate]]].
  - rewrite (is_type_eq _ _ T1) in Hlex.
    destruct Hlex as [Hv [ds [fraction [El [Hlit _]]]]].
    rewrite Hv in H. cbn [deref bind] in H.
    destruct (Eat Number p) as [q| | |] eqn:HE; cbn [bind] in H;
      try discriminate.
    rewrite El, stoi_literal in H by exact Hlit.
    destruct (decimal_value ds <=? INT_MAX)%Z eqn:Hle; cbn [bind] in H;
      try discriminate.
    injection H as <- <-.
    destruct (Eat_Ok_inv _ _ _ HE) as [_ HQ]. rewrite HL in HQ.
    exists (EBlank ws (ELit ds fraction) ""), rest.
    cbn [written tree grammatical]. rewrite Hws, Hlit, Hle.
    split; [same_text|]. split; [reflexivity|]. split; [reflexivity|].
    unfold parser_at. rewrite <- HQ. f_equal. f_equal. subst lexeme.
    same_length.
  - rewrite (is_type_eq _ _ T2) in Hlex. destruct Hlex as [Hv [Hid _]].
    rewrite Hv in H. cbn [deref bind] in H.
    destruct (Eat Identifier p) as [q| | |] eqn:HE; cbn [bind] in H;
      try discriminate.
    injection H as <- <-.
    destruct (Eat_Ok_inv _ _ _ HE) as [_ HQ]. rewrite HL in HQ.
    exists (EBlank ws (EId lexeme) ""), rest.
    cbn [written tree grammatical]. rewrite Hws, Hid.
    split; [same_text|]. split; [reflexivity|]. split; [reflexivity|].
    unfold parser_at. rewrite <- HQ. f_equal. f_equal. same_length.
  - clear HL Hlex Etail Hws ws lexeme rest.
    destruct (Eat LeftParen p) as [q| | |] eqn:HE; cbn [bind] in H;
      try discriminate.
    destruct (operator_behind _ pre tail p q LeftParen "(" eq_refl HP
                eq_refl HE) as [ws [rest [-> [Hws HQ]]]].
    destruct (rec q) as [[node1 p1]| | |] eqn:HR; cbn [bind] in H;
      try discriminate.
    destruct (Eat RightParen p1) as [p2| | |] eqn:HE2; cbn [bind] in H;
      try discriminate.
    injection H as <- <-.
    set (pre1 := pre ++ ws ++ "(") in *.
    assert (Ht1 : pre ++ ws ++ String "(" rest = pre1 ++ rest)
      by (unfold pre1; same_text).
    rewrite Ht1 in HQ.
    destruct (Hrec pre1 rest q node1 p1 HQ HR)
      as [e1 [suf1 [-> [Hg1 [Htree HP1]]]]].
    rewrite <- length_append in HP1.
    destruct (operator_behind _ (pre1 ++ written e1) suf1 p1 p2 RightParen
                ")" ltac:(same_text) HP1 eq_refl HE2)
      as [ws2 [rest2 [-> [Hws2 HQ2]]]].
    exists (EBlank ws (EParen (EBlank "" e1 ws2)) ""), rest2.
    cbn [written tree grammatical all_chars]. rewrite Hws, Hws2, Hg1.
    split; [same_text|]. split; [reflexivity|]. split; [exact Htree|].
    rewrite Ht1, <- HQ2. f_equal. unfold pre1. same_length.
Qed.

Lemma ParseMulDiv_loop_sound (atom : parse_fn) :
  sound 2 atom ->
  forall k e0 pre tail p node' p',
    grammatical 1 e0 = true ->
    parser_at (pre ++ written e0 ++ tail) (length pre + length (written e0))
    = Ok p ->
    ParseMulDiv_loop atom k (tree e0) p = Ok (node', p') ->
    reads 1 pre (written e0 ++ tail) node' p'.
Proof.
  intros Hatom. induction k as [|k IH];
    intros e0 pre tail p node' p' Hg HP H; cbn [ParseMulDiv_loop] in H;
    destruct (is_type Mul p || is_type Div p) eqn:Hc; try discriminate.
  1,3: injection H as <- <-; exists e0, tail; auto.
  cbv zeta in H.
  assert (Hstep : exists op q,
             multiplicative op = true /\ supported_operator op = true
             /\ Eat (token_type_of op) p = Ok q
             /\ ('(rhs, p2) <- atom q ;;
                 ParseMulDiv_loop atom k
                   (BinaryExpressionAST (tree e0) rhs op) p2)
                = Ok (node', p')).
  { unfold is_type in *.
    destruct (TokenType_eqb (type (m_token p)) Mul) eqn:TM.
    - exists "*"%char.
      destruct (Eat Mul p) as [q| | |] eqn:HE; cbn [bind] in H;
        try discriminate.
      exists q. auto.
    - cbn [orb] in Hc. rewrite Hc in H. exists "/"%char.
      destruct (Eat Div p) as [q| | |] eqn:HE; cbn [bind] in H;
        try discriminate.
      exists q. auto. }
  clear H. destruct Hstep as [op [q [Hm [Hop [HE H]]]]].
  rewrite <- length_append in HP.
  destruct (operator_behind _ (pre ++ written e0) tail p q (token_type_of op)
              op ltac:(same_text) HP (operator_char_token_type_of op Hop) HE)
    as [ws [rest [-> [Hws HQ]]]].
  destruct (atom q) as [[rhs p2]| | |] eqn:HA; cbn [bind] in H;
    try discriminate.
  set (pre_r := (pre ++ written e0) ++ ws ++ String op "") in *.
  assert (Ht : pre ++ written e0 ++ ws ++ String op rest = pre_r ++ rest)
    by (unfold pre_r; same_text).
  rewrite Ht in HQ.
  destruct (Hatom pre_r rest q rhs p2 HQ HA)
    as [er [suf [-> [Hgr [Htree HP2]]]]].
  subst rhs.
  set (e1 := EBin (EBlank "" e0 ws) op er).
  assert (Hw : pre_r ++ written er ++ suf = pre ++ written e1 ++ suf)
    by (unfold pre_r, e1; cbn [written]; same_text).
  assert (Hl : length pre_r + length (written er)
               = length pre + length (written e1))
    by (unfold pre_r, e1; cbn [written]; same_length).
  rewrite Hw, Hl in HP2.
  assert (Hg1 : grammatical 1 e1 = true).
  { unfold e1. cbn [grammatical all_chars]. unfold precedence.
    rewrite Hm, Hop, Hws, Hg, Hgr. reflexivity. }
  destruct (IH e1 pre suf p2 node' p' Hg1 HP2 H)
    as [e [suf' [E [Hge [Ht' HP']]]]].
  exists e, suf'. rewrite Ht, Hw. split; [|auto].
  rewrite <- E. unfold e1. cbn [written]. same_text.
Qed.

Lemma ParseMulDiv_sound (atom : parse_fn) (k : nat) :
  sound 2 atom -> sound 1 (ParseMulDiv atom k).
Proof.
  intros Hatom pre tail p node p' HP H. unfold ParseMulDiv in H.
  destruct (atom p) as [[a p1]| | |] eqn:HA; cbn [bind] in H;
    try discriminate.
  destruct (Hatom pre tail p a p1 HP HA) as [e0 [suf [-> [Hg [<- HP1]]]]].
  exact (ParseMulDiv_loop_sound atom Hatom k e0 pre suf p1 node p'
           (grammatical_lower e0 1 Hg) HP1 H).
Qed.

Lemma ParseAddSub_loop_sound (muldiv : parse_fn) :
  sound 1 muldiv ->
  forall k e0 pre tail p node' p',
    grammatical 0 e0 = true ->
    parser_at (pre ++ written e0 ++ tail) (length pre + length (written e0))
    = Ok p ->
    ParseAddSub_loop muldiv k (tree e0) p = Ok (node', p') ->
    reads 0 pre (written e0 ++ tail) node' p'.
Proof.
  intros Hmuldiv. induction k as [|k IH];
    intros e0 pre tail p node' p' Hg HP H; cbn [ParseAddSub_loop] in H;
    destruct (is_type Plus p || is_type Minus p) eqn:Hc; try discriminate.
  1,3: injection H as <- <-; exists e0, tail; auto.
  cbv zeta in H.
  assert (Hstep : exists op q,
             multiplicative op = false /\ supported_operator op = true
             /\ Eat (token_type_of op) p = Ok q
             /\ ('(rhs, p2) <- muldiv q ;;
                 ParseAddSub_loop muldiv k
                   (BinaryExpressionAST (tree e0) rhs op) p2)
                = Ok (node', p')).
  { unfold is_type in *.
    destruct (TokenType_eqb (type (m_token p)) Plus) eqn:TM.
    - exists "+"%char.
      destruct (Eat Plus p) as [q| | |] eqn:HE; cbn [bind] in H;
        try discriminate.
      exists q. auto.
    - cbn [orb] in Hc. rewrite Hc in H. exists "-"%char.
      destruct (Eat Minus p) as [q| | |] eqn:HE; cbn [bind] in H;
        try discriminate.
      exists q. auto. }
  clear H. destruct Hstep as [op [q [Hm [Hop [HE H]]]]].
  rewrite <- length_append in HP.
  destruct (operator_behind _ (pre ++ written e0) tail p q (token_type_of op)
              op ltac:(same_text) HP (operator_char_token_type_of op Hop) HE)
    as [ws [rest [-> [Hws HQ]]]].
  destruct (muldiv q) as [[rhs p2]| | |] eqn:HA; cbn [bind] in H;
    try discriminate.
  set (pre_r := (pre ++ written e0) ++ ws ++ String op "") in *.
  assert (Ht : pre ++ written e0 ++ ws ++ String op rest = pre_r ++ rest)
    by (unfold pre_r; same_text).
  rewrite Ht in HQ.
  destruct (Hmuldiv pre_r rest q rhs p2 HQ HA)
    as [er [suf [-> [Hgr [Htree HP2]]]]].
  subst rhs.
  set (e1 := EBin (EBlank "" e0 ws) op er).
  assert (Hw : pre_r ++ written er ++ suf = pre ++ written e1 ++ suf)
    by (unfold pre_r, e1; cbn [written]; same_text).
  assert (Hl : length pre_r + length (written er)
               = length pre + length (written e1))
    by (unfold pre_r, e1; cbn [written]; same_length).
  rewrite Hw, Hl in HP2.
  assert (Hg1 : grammatical 0 e1 = true).
  { unfold e1. cbn [grammatical all_chars]. unfold precedence.
    rewrite Hm, Hop, Hws, Hg, Hgr. reflexivity. }
  destruct (IH e1 pre suf p2 node' p' Hg1 HP2 H)
    as [e [suf' [E [Hge [Ht' HP']]]]].
  exists e, suf'. rewrite Ht, Hw. split; [|auto].
  rewrite <- E. unfold e1. cbn [written]. same_text.
Qed.

Lemma ParseAddSub_rec_sound : forall f, sound 0 (ParseAddSub_rec f).
Proof.
  induction f as [|f IH]; intros pre tail p node p' HP H;
    cbn [ParseAddSub_rec] in H; [discriminate|]. cbv zeta in H.
  assert (HM : sound 1 (ParseMulDiv (ParseAtom (ParseAddSub_rec f)) f))
    by (apply ParseMulDiv_sound, ParseAtom_sound, IH).
  destruct (ParseMulDiv (ParseAtom (ParseAddSub_rec f)) f p)
    as [[m p1]| | |] eqn:Hm; cbn [bind] in H; try discriminate.
  destruct (HM pre tail p m p1 HP Hm) as [e0 [suf [-> [Hg [<- HP1]]]]].
  exact (ParseAddSub_loop_sound _ HM f e0 pre suf p1 node p'
           (grammatical_lower e0 0 Hg) HP1 H).
Qed.

(** Behind what was read, an EndOfFile lookahead means that only white
    space was left. *)
Lemma rest_is_blank (pre suf : string) (p : Parser) :
  parser_at (pre ++ suf) (length pre) = Ok p ->
  is_type EndOfFile p = true -> all_chars isspace suf = true.
Proof.
  intros HP HE.
  destruct (parser_at_tail _ _ _ HP)
    as [ws [lexeme [rest [-> [Hws [_ Hlex]]]]]].
  unfold lexeme_of in Hlex. rewrite (is_type_eq _ _ HE) in Hlex.
  destruct Hlex as [_ [-> ->]]. cbn [append]. rewrite append_nil_r.
  exact Hws.
Qed.

(** X13. The parser accepts nothing but the grammar.  Whenever
    [ParseAddSub] returns a tree for a line, the part of the line it has
    read is an expression of the grammar (identifiers, literals up to
    [INT_MAX], the four operators, parentheses in pairs, white space
    between tokens), the tree is the tree of that expression, and the
    lookahead it leaves is the first token of the rest of the line; when
    that lookahead is EndOfFile, the rest is white space. *)
Theorem parsed_text_is_an_expression (line : string) (node : ExpressionAST)
    (p' : Parser) :
  (q <- Parser_new (mkLexer line 0) ;; ParseAddSub q) = Ok (node, p') ->
  exists e suf,
    line = written e ++ suf /\ grammatical 0 e = true /\ tree e = node
    /\ Parser_new (mkLexer line (length (written e))) = Ok p'
    /\ (is_type EndOfFile p' = true -> all_chars isspace suf = true).
Proof.
  intros H.
  destruct (Parser_new (mkLexer line 0)) as [q| | |] eqn:HQ; cbn [bind] in H;
    try discriminate.
  destruct (ParseAddSub_rec_sound _ "" line q node p' HQ H)
    as [e [suf [-> [Hg [Ht HP]]]]].
  exists e, suf. cbn [append length Nat.add] in HP.
  repeat (split; [auto; fail|]).
  apply (rest_is_blank (written e) suf p'). exact HP.
Qed.

Lemma parsed_text_is_an_expression_witness :
  exists e suf,
    "x*2 )" = written e ++ suf /\ grammatical 0 e = true
    /\ tree e
       = BinaryExpressionAST (VariableRefAST "x") (NumberAST 2) "*".
Proof.
  destruct (parsed_text_is_an_expression "x*2 )"
              (BinaryExpressionAST (VariableRefAST "x") (NumberAST 2) "*")
              (mkParser (mkLexer "x*2 )" 5) (mkToken RightParen None))
              ltac:(vm_compute; reflexivity))
    as [e [suf [H1 [H2 [H3 _]]]]].
  exists e, suf. auto.
Defined.

(** X14. The lines that [ParseAddSub] reads to the end are the
    expressions of the grammar, no more and no fewer: it returns a tree
    with EndOfFile as the lookahead exactly for the lines that are the
    text of an expression made of identifiers, literals up to [INT_MAX],
    the four operators, parentheses in pairs and white space between the
    tokens. *)
Theorem read_to_the_end_iff_grammatical (line : string) :
  (exists node p',
      (q <- Parser_new (mkLexer line 0) ;; ParseAddSub q) = Ok (node, p')
      /\ is_type EndOfFile p' = true)
  <-> (exists e, line = written e /\ grammatical 0 e = true).
Proof.
  split.
  - intros [node [p' [H HE]]].
    destruct (Parser_new (mkLexer line 0)) as [q| | |] eqn:HQ;
      cbn [bind] in H; try discriminate.
    destruct (ParseAddSub_rec_sound _ "" line q node p' HQ H)
      as [e [suf [-> [Hg [_ HP]]]]].
    cbn [append length Nat.add] in HP.
    pose proof (rest_is_blank (written e) suf p' HP HE) as Hws.
    exists (EBlank "" e suf). cbn [written grammatical all_chars append].
    rewrite Hws, Hg. split; reflexivity.
  - intros [e [-> Hg]].
    exists (tree e),
      (mkParser (mkLexer (written e) (length (written e))) EndOfFile_token).
    split; [exact (ParseAddSub_written e Hg)|reflexivity].
Qed.

(** * The text [Generate] returns *)

Lemma all_chars_impl (P Q : ascii -> bool) (s : string) :
  (forall ch, P ch = true -> Q ch = true) ->
  all_chars P s = true -> all_chars Q s = true.
Proof.
  intros HPQ. induction s as [|ch s IH]; [reflexivity|].
  cbn [all_chars]. intros H. apply andb_prop in H as [H Hs].
  rewrite (HPQ ch H), (IH Hs). reflexivity.
Qed.

Lemma identifier_char_no_newline (ch : ascii) :
  identifier_char ch = true -> negb (is_newline ch) = true.
Proof. by_bits ch. Qed.

Lemma grammatical_one_line_names (e : Expr) : forall level,
  grammatical level e = true -> one_line_names (tree e) = true.
Proof.
  induction e as [x|ds fraction|e' IH|l IHl op r IHr|ws1 e' IH ws2];
    intros level H; cbn [grammatical tree one_line_names] in *.
  - destruct (is_identifier_parts x H) as [ch [x' [_ [_ Hall]]]].
    exact (all_chars_impl _ _ x identifier_char_no_newline Hall).
  - reflexivity.
  - exact (IH 0 H).
  - apply andb_prop in H as [H Hr]. apply andb_prop in H as [_ Hl].
    rewrite (IHl _ Hl), (IHr _ Hr). reflexivity.
  - apply andb_prop in H as [_ H]. exact (IH level H).
Qed.

(** The names in a tree that the parser has returned are identifiers. *)
Lemma parsed_one_line_names (line : string) (node : ExpressionAST)
    (p' : Parser) :
  (q <- Parser_new (mkLexer line 0) ;; ParseAddSub q) = Ok (node, p') ->
  one_line_names node = true.
Proof.
  intros H.
  destruct (Parser_new (mkLexer line 0)) as [q| | |] eqn:HQ; cbn [bind] in H;
    try discriminate.
  destruct (ParseAddSub_rec_sound _ "" line q node p' HQ H)
    as [e [suf [_ [Hg [<- _]]]]].
  exact (grammatical_one_line_names e 0 Hg).
Qed.

(** C4. [Generate] returns a text for every AST over the four operators
    that has fewer nodes than [INT_MAX], and the text it returns is the
    code of the instructions [post_order root 1], one for every node of
    the tree, followed by the [%result] line.  The destinations of these
    instructions are numbered 1, 2, 3, ... up to the number of nodes in
    the order of emission, one number per instruction whatever the prefix
    ([%x], [%addtmp], [%subtmp], [%multmp], [%divtmp]), and are pairwise
    different.  When no variable name of the tree holds a line end, the
    text has one line per instruction and the [%result] line behind them,
    every line begins with the register it defines, and no register is
    defined by two lines; the trees [ParseAddSub] returns are such
    trees. *)
Theorem C4_register_ids_count_from_one (root : ExpressionAST) :
  (unknown_operators root = 0 ->
   (Z.of_nat (nodes root) < INT_MAX)%Z ->
   exists code g', Generate root SimpleCodeGenerator_new = Ok (code, g'))
  /\ (forall code g',
        Generate root SimpleCodeGenerator_new = Ok (code, g') ->
        let ins := post_order root 1 in
        code = render ins ++ "%result = " ++ result_register ins
        /\ List.length ins = nodes root
        /\ map dest_id ins = Zseq 1 (nodes root)
        /\ Forall (fun i => register_prefix (dest_prefix i) = true) ins
        /\ NoDup (map dest ins)
        /\ (one_line_names root = true ->
            lines code
            = (map instruction_text ins
               ++ [("%result = " ++ result_register ins)%string])%list
            /\ map destination (lines code)
               = (map dest ins ++ ["%result"])%list
            /\ NoDup (map destination (lines code))))
  /\ (forall line p',
        (q <- Parser_new (mkLexer line 0) ;; ParseAddSub q) = Ok (root, p') ->
        one_line_names root = true).
Proof.
  split; [apply Generate_defined|].
  split; [|intros line p'; apply parsed_one_line_names].
  intros code g' H. cbv zeta.
  destruct (Generate_Ok_post_order _ _ _ H) as [_ [_ [Hc _]]].
  pose proof (post_order_prefixes root 1) as HP.
  pose proof (post_order_NoDup root 1) as HN.
  split; [exact Hc|]. split; [apply post_order_length|].
  split; [apply post_order_ids|]. split; [exact HP|]. split; [exact HN|].
  intros Hn.
  assert (HL : lines code
               = (map instruction_text (post_order root 1)
                  ++ [("%result = "
                       ++ result_register (post_order root 1))%string])%list)
    by (rewrite Hc; apply lines_of_code, Hn).
  assert (HD : map destination (lines code)
               = (map dest (post_order root 1) ++ ["%result"])%list).
  { rewrite HL, map_app, (map_destination _ HP). reflexivity. }
  split; [exact HL|]. split; [exact HD|].
  rewrite HD. apply destinations_NoDup; assumption.
Qed.

Lemma C4_register_ids_count_from_one_witness :
  map dest_id
    (post_order
       (BinaryExpressionAST (VariableRefAST "a") (NumberAST 2) "-") 1)
  = [1; 2; 3]%Z
  /\ map destination
       (lines (ir ["%x1 = %a"; "%x2 = 2.000000"; "%subtmp3 = sub %x1 %x2";
                   "%result = %subtmp3"]))
     = ["%x1"; "%x2"; "%subtmp3"; "%result"]
  /\ NoDup
       (map destination
          (lines (ir ["%x1 = %a"; "%x2 = 2.000000";
                      "%subtmp3 = sub %x1 %x2"; "%result = %subtmp3"]))).
Proof.
  destruct (C4_register_ids_count_from_one
              (BinaryExpressionAST (VariableRefAST "a") (NumberAST 2) "-"))
    as [_ [H _]].
  destruct (H (ir ["%x1 = %a"; "%x2 = 2.000000"; "%subtmp3 = sub %x1 %x2";
                   "%result = %subtmp3"])
              (mkGenerator
                 (ir ["%x1 = %a"; "%x2 = 2.000000"; "%subtmp3 = sub %x1 %x2";
                      "%result = %subtmp3"])
                 ["%subtmp3"] 4) eq_refl)
    as [_ [_ [Hi [_ [_ Hl]]]]].
  destruct (Hl eq_refl) as [_ [Hd HN]].
  split; [exact Hi|]. split; [exact Hd|exact HN].
Defined.

(** C6, as the code has it.  The text [Generate] returns is the code of
    the instructions [post_order root 1] followed by [%result = R] with
    no line end behind it (the driver prints the line end).  [R] is the
    destination of the last of these instructions, which is the
    instruction of the root: its prefix is that of the root's kind and
    its number the number of nodes; and when [Generate] returns,
    [m_registers] holds [R] and nothing else.  When no variable name of
    the tree holds a line end, the last line of the text is
    [%result = R] and the line before it is the one that defines [R];
    the trees [ParseAddSub] returns are such trees. *)
Theorem C6_result_line_names_last_register (root : ExpressionAST) :
  (unknown_operators root = 0 ->
   (Z.of_nat (nodes root) < INT_MAX)%Z ->
   exists code g', Generate root SimpleCodeGenerator_new = Ok (code, g'))
  /\ (forall code g',
        Generate root SimpleCodeGenerator_new = Ok (code, g') ->
        exists (front : list Instruction) (last : Instruction),
          post_order root 1 = (front ++ [last])%list
          /\ code = render front ++ instruction_line last
                    ++ "%result = " ++ dest last
          /\ dest_prefix last = node_prefix root
          /\ dest_id last = Z.of_nat (nodes root)
          /\ m_registers g' = [dest last]
          /\ register_prefix (dest_prefix last) = true
          /\ (one_line_names root = true ->
              lines code
              = (map instruction_text front
                 ++ [instruction_text last;
                     ("%result = " ++ dest last)%string])%list))
  /\ (forall line p',
        (q <- Parser_new (mkLexer line 0) ;; ParseAddSub q) = Ok (root, p') ->
        one_line_names root = true).
Proof.
  split; [apply Generate_defined|].
  split; [|intros line p'; apply parsed_one_line_names].
  intros code g' H.
  destruct (Generate_Ok_post_order _ _ _ H) as [_ [_ [Hc Hg]]].
  destruct (post_order_last root 1) as [front [last [E [Hp Hi]]]].
  pose proof (lines_of_code root) as HL.
  rewrite E, result_register_last in Hc, Hg, HL.
  exists front, last.
  split; [exact E|]. split.
  { rewrite Hc, render_app. cbn [render].
    rewrite append_nil_r, append_assoc. reflexivity. }
  split; [exact Hp|]. split; [lia|]. split; [rewrite Hg; reflexivity|].
  split; [rewrite Hp; apply node_prefix_register|].
  intros Hn. rewrite Hc, (HL Hn), map_app, <- app_assoc. reflexivity.
Qed.

Lemma C6_result_line_names_last_register_witness :
  exists front last,
    ir ["%x1 = 1.000000"; "%x2 = 2.000000"; "%addtmp3 = add %x1 %x2";
        "%result = %addtmp3"]
    = render front ++ instruction_line last ++ "%result = " ++ dest last
    /\ dest last = "%addtmp3"
    /\ List.length front = 2.
Proof.
  destruct (C6_result_line_names_last_register
              (BinaryExpressionAST (NumberAST 1) (NumberAST 2) "+"))
    as [_ [H _]].
  destruct (H (ir ["%x1 = 1.000000"; "%x2 = 2.000000";
                   "%addtmp3 = add %x1 %x2"; "%result = %addtmp3"])
              (mkGenerator
                 (ir ["%x1 = 1.000000"; "%x2 = 2.000000";
                      "%addtmp3 = add %x1 %x2"; "%result = %addtmp3"])
                 ["%addtmp3"] 4) eq_refl)
    as [front [last [E [Hc [Hp [Hi _]]]]]].
  exists front, last. split; [exact Hc|]. split.
  - unfold dest. rewrite Hp, Hi. reflexivity.
  - apply (f_equal (@List.length Instruction)) in E.
    rewrite length_app in E. cbn in E. lia.
Defined.

